(** * HPACK (RFC 7541) header compression: a shallow embedding of the Go
    library and the verification of its specification.

    Go values are modelled as follows.
    - [int] (64 bit) is [Z]; the one place where the code can leave the
      64-bit range, the accumulation in [decodeInteger], wraps explicitly
      with [wrap64].  All other integers are lengths of slices held in
      memory, or sums bounded by them.
    - [byte] is [Byte.byte]; [[]byte] and [string] are both [list byte]
      (a Go string is an immutable byte sequence, and the conversions
      [[]byte(s)] and [string(b)] do not change the octets).
    - a function that can return an error, panic or loop for ever returns
      an [outcome]; a method that mutates its receiver returns the new
      receiver next to the outcome. *)

From Stdlib Require Import ZArith List Lia Bool String Ascii.
From Stdlib Require Import Strings.Byte.
Import ListNotations.
Local Open Scope Z_scope.

(* ================================================================== *)
(** * Part I: the embedding                                             *)
(* ================================================================== *)

(** ** Outcomes: errors and panics *)

(** The run-time panics the code can raise. *)
Inductive panic : Type :=
| PanicPrefixLength      (* panic("prefix length in bits must be >= 1 and <= 8") *)
| PanicRanOutOfData      (* panic("ran out of data while reading HPACK integer") *)
| PanicIndexOutOfRange   (* runtime error: index out of range *)
| PanicSliceBounds       (* runtime error: slice bounds out of range *)
| PanicUnknownType.      (* panic(fmt.Errorf("unknown type: %02x", ...)) *)

(** The error values of the package. *)
Inductive error : Type :=
| ErrIntegerValueTooLarge
| ErrIntegerEncodedLengthTooLong
| ErrStringLiteralLengthTooLong
| ErrHuffmanDecodeFailure
| ErrHuffmanRanOutOfData           (* "ran out of data while decoding huffman encoded data" *)
| ErrIndexNotFound (index : Z)     (* "index %d not found in dynamic table" *)
| ErrResizeTooLarge (size current : Z).
                                   (* "can't resize dynamic table to %d in an update to a
                                      value greater than the current size, %d" *)

Inductive outcome (A : Type) : Type :=
| Ok (a : A)
| Err (e : error)
| Panic (p : panic)
| Diverges.                        (* the loop never exits *)

Arguments Ok {A} a.
Arguments Err {A} e.
Arguments Panic {A} p.
Arguments Diverges {A}.

Definition bind {A B : Type} (x : outcome A) (f : A -> outcome B) : outcome B :=
  match x with
  | Ok a => f a
  | Err e => Err e
  | Panic p => Panic p
  | Diverges => Diverges
  end.

(** ** Bytes *)

Definition Z_of_byte (b : byte) : Z := Z.of_N (Byte.to_N b).

(** The conversion [byte(x)] of an [int]: the low eight bits. *)
Definition byte_of_Z (z : Z) : byte :=
  match Byte.of_N (Z.to_N (z mod 256)) with
  | Some b => b
  | None => x00
  end.

(** [b[0] |= flag] on a non-empty slice. *)
Definition orFirst (flag : Z) (bs : list byte) : list byte :=
  match bs with
  | [] => []
  | b :: bs' => byte_of_Z (Z.lor (Z_of_byte b) flag) :: bs'
  end.

(** [len] of a slice or string. *)
Definition len {A : Type} (l : list A) : Z := Z.of_nat (List.length l).

(** ** integers.go *)

(** Wrap-around of a 64-bit signed [int]. *)
Definition wrap64 (z : Z) : Z := (z + 2 ^ 63) mod 2 ^ 64 - 2 ^ 63.

(** [int(math.Pow(2, float64(m)))].  The power is exact in a float64, and
    the conversion back is exact up to 2^62.  From 2^63 on the value is
    out of the range of [int] and Go leaves the result to the
    implementation; amd64 yields the least [int].  No theorem below goes
    through that case. *)
Definition pow2_int (m : Z) : Z := if m <? 63 then 2 ^ m else - 2 ^ 63.

(** The loop of [decodeInteger]; [rest] is [buf[idx:]], so that
    [idx == len(buf)] is [rest = []]. *)
Fixpoint decodeInteger_loop (rest : list byte) (idx m n prefix : Z)
         (integerMax encodedLengthMax : Z) : outcome (list byte * Z * Z) :=
  match rest with
  | [] => Panic PanicRanOutOfData
  | b :: rest' =>
      let n := wrap64 (n + Z.land (Z_of_byte b) 127 * pow2_int m) in
      if Z.land (Z_of_byte b) (Z.shiftl 1 7) =? 0 then
        if n >? integerMax then Err ErrIntegerValueTooLarge
        else Ok (rest', prefix, n)
      else
        let m := m + 7 in
        let idx := idx + 1 in
        if idx =? encodedLengthMax then Err ErrIntegerEncodedLengthTooLong
        else decodeInteger_loop rest' idx m n prefix integerMax encodedLengthMax
  end.

(** [decodeInteger]: the remaining buffer, the first octet without its
    prefix bits, and the number. *)
Definition decodeInteger (buf : list byte) (prefixLength : Z)
           (integerMax encodedLengthMax : Z) : outcome (list byte * Z * Z) :=
  if (prefixLength <? 1) || (prefixLength >? 8) then Panic PanicPrefixLength
  else
    match buf with
    | [] => Panic PanicIndexOutOfRange
    | b0 :: rest =>
        let mask := Z.shiftl 1 prefixLength - 1 in
        let n := Z.land mask (Z_of_byte b0) in
        let prefix := Z.ldiff (Z_of_byte b0) mask in
        if negb (n =? mask) then Ok (rest, prefix, n)
        else decodeInteger_loop rest 1 0 n prefix integerMax encodedLengthMax
    end.

(** The loop [for i >= 128 { ... }] of [encodeInteger] and the final
    append.  [i] shrinks by a factor of 128 in each round, so the fuel
    [S (log2 i)] given by [encodeInteger] is never used up. *)
Fixpoint encodeInteger_loop (fuel : nat) (i : Z) (buf : list byte) : list byte :=
  match fuel with
  | O => buf ++ [byte_of_Z i]
  | S fuel' =>
      if i >=? 128
      then encodeInteger_loop fuel' (Z.quot i 128)
                              (buf ++ [byte_of_Z (Z.rem i 128 + 128)])
      else buf ++ [byte_of_Z i]
  end.

Definition encodeInteger (number : Z) (prefixLength : Z) : outcome (list byte) :=
  if (prefixLength <? 1) || (prefixLength >? 8) then Panic PanicPrefixLength
  else if number <? 2 ^ prefixLength - 1 then Ok [byte_of_Z number]
  else
    let i := number in
    let buf := [byte_of_Z (2 ^ prefixLength - 1)] in
    let i := i - (2 ^ prefixLength - 1) in
    Ok (encodeInteger_loop (S (Z.to_nat (Z.log2 i))) i buf).

Definition DefaultMaxIntegerValue : Z := Z.shiftl 1 32 - 1.
Definition DefaultMaxIntegerEncodedLength : Z := 6.
Definition DefaultMaxStringLiteralLength : Z := 1024 * 64.


(** ** The Huffman code table *)

(** Modelled from the spec: the table [huffmanCodes] (a generated source
    file that is not among the sources at hand): "257 entries (symbols
    0..255 plus EOS at 256); each entry is (code_value, bit_length)", the
    canonical code of RFC 7541, Appendix B.  The test vectors of
    huffman_test.go are replayed against it below. *)
Definition huffmanCodes : list (Z * Z) :=
  [
    (8184, 13); (8388568, 23); (268435426, 28); (268435427, 28); (268435428, 28); (268435429, 28);
    (268435430, 28); (268435431, 28); (268435432, 28); (16777194, 24); (1073741820, 30); (268435433, 28);
    (268435434, 28); (1073741821, 30); (268435435, 28); (268435436, 28); (268435437, 28); (268435438, 28);
    (268435439, 28); (268435440, 28); (268435441, 28); (268435442, 28); (1073741822, 30); (268435443, 28);
    (268435444, 28); (268435445, 28); (268435446, 28); (268435447, 28); (268435448, 28); (268435449, 28);
    (268435450, 28); (268435451, 28); (20, 6); (1016, 10); (1017, 10); (4090, 12);
    (8185, 13); (21, 6); (248, 8); (2042, 11); (1018, 10); (1019, 10);
    (249, 8); (2043, 11); (250, 8); (22, 6); (23, 6); (24, 6);
    (0, 5); (1, 5); (2, 5); (25, 6); (26, 6); (27, 6);
    (28, 6); (29, 6); (30, 6); (31, 6); (92, 7); (251, 8);
    (32764, 15); (32, 6); (4091, 12); (1020, 10); (8186, 13); (33, 6);
    (93, 7); (94, 7); (95, 7); (96, 7); (97, 7); (98, 7);
    (99, 7); (100, 7); (101, 7); (102, 7); (103, 7); (104, 7);
    (105, 7); (106, 7); (107, 7); (108, 7); (109, 7); (110, 7);
    (111, 7); (112, 7); (113, 7); (114, 7); (252, 8); (115, 7);
    (253, 8); (8187, 13); (524272, 19); (8188, 13); (16380, 14); (34, 6);
    (32765, 15); (3, 5); (35, 6); (4, 5); (36, 6); (5, 5);
    (37, 6); (38, 6); (39, 6); (6, 5); (116, 7); (117, 7);
    (40, 6); (41, 6); (42, 6); (7, 5); (43, 6); (118, 7);
    (44, 6); (8, 5); (9, 5); (45, 6); (119, 7); (120, 7);
    (121, 7); (122, 7); (123, 7); (32766, 15); (2044, 11); (16381, 14);
    (8189, 13); (268435452, 28); (1048550, 20); (4194258, 22); (1048551, 20); (1048552, 20);
    (4194259, 22); (4194260, 22); (4194261, 22); (8388569, 23); (4194262, 22); (8388570, 23);
    (8388571, 23); (8388572, 23); (8388573, 23); (8388574, 23); (16777195, 24); (8388575, 23);
    (16777196, 24); (16777197, 24); (4194263, 22); (8388576, 23); (16777198, 24); (8388577, 23);
    (8388578, 23); (8388579, 23); (8388580, 23); (2097116, 21); (4194264, 22); (8388581, 23);
    (4194265, 22); (8388582, 23); (8388583, 23); (16777199, 24); (4194266, 22); (2097117, 21);
    (1048553, 20); (4194267, 22); (4194268, 22); (8388584, 23); (8388585, 23); (2097118, 21);
    (8388586, 23); (4194269, 22); (4194270, 22); (16777200, 24); (2097119, 21); (4194271, 22);
    (8388587, 23); (8388588, 23); (2097120, 21); (2097121, 21); (4194272, 22); (2097122, 21);
    (8388589, 23); (4194273, 22); (8388590, 23); (8388591, 23); (1048554, 20); (4194274, 22);
    (4194275, 22); (4194276, 22); (8388592, 23); (4194277, 22); (4194278, 22); (8388593, 23);
    (67108832, 26); (67108833, 26); (1048555, 20); (524273, 19); (4194279, 22); (8388594, 23);
    (4194280, 22); (33554412, 25); (67108834, 26); (67108835, 26); (67108836, 26); (134217694, 27);
    (134217695, 27); (67108837, 26); (16777201, 24); (33554413, 25); (524274, 19); (2097123, 21);
    (67108838, 26); (134217696, 27); (134217697, 27); (67108839, 26); (134217698, 27); (16777202, 24);
    (2097124, 21); (2097125, 21); (67108840, 26); (67108841, 26); (268435453, 28); (134217699, 27);
    (134217700, 27); (134217701, 27); (1048556, 20); (16777203, 24); (1048557, 20); (2097126, 21);
    (4194281, 22); (2097127, 21); (2097128, 21); (8388595, 23); (4194282, 22); (4194283, 22);
    (33554414, 25); (33554415, 25); (16777204, 24); (16777205, 24); (67108842, 26); (8388596, 23);
    (67108843, 26); (134217702, 27); (67108844, 26); (67108845, 26); (134217703, 27); (134217704, 27);
    (134217705, 27); (134217706, 27); (134217707, 27); (268435454, 28); (134217708, 27); (134217709, 27);
    (134217710, 27); (134217711, 27); (134217712, 27); (67108846, 26); (1073741823, 30)
  ].

(** [huffmanCodes[i]]. *)
Definition huffmanCode (i : Z) : Z * Z := nth (Z.to_nat i) huffmanCodes (0, 0).

(** ** The Huffman decoding table *)

(** An entry of a lookup table: a leaf carries [symbol] and [bits], an
    inner entry carries [nextTable]; an empty slot is [None] (nil). *)
#[local] Unset Elimination Schemes.
Inductive huffmanEntry : Type :=
  mkEntry (symbol : Z) (bits : Z) (nextTable : option (list (option huffmanEntry))).
#[local] Set Elimination Schemes.

Definition entry_symbol (e : huffmanEntry) : Z := let (s, _, _) := e in s.
Definition entry_bits (e : huffmanEntry) : Z := let (_, b, _) := e in b.
Definition entry_nextTable (e : huffmanEntry) : option (list (option huffmanEntry)) :=
  let (_, _, t) := e in t.

(** The code, if any, that is a prefix of the [nbits]-bit string [q]. *)
Fixpoint find_leaf (codes : list (Z * Z)) (sym : Z) (q nbits : Z) : option (Z * Z) :=
  match codes with
  | [] => None
  | (c, l) :: codes' =>
      if (l <=? nbits) && (Z.shiftr q (nbits - l) =? c) then Some (sym, l)
      else find_leaf codes' (sym + 1) q nbits
  end.

(** Is the [nbits]-bit string [q] a proper prefix of some code? *)
Definition has_longer (codes : list (Z * Z)) (q nbits : Z) : bool :=
  existsb (fun cl => (nbits <? snd cl) && (Z.shiftr (fst cl) (snd cl - nbits) =? q)) codes.

(** The table reached by the octets [prefix] ([level] of them): 256 slots,
    one for each next octet. *)
Fixpoint buildTable (depth : nat) (prefix level : Z) : list (option huffmanEntry) :=
  match depth with
  | O => []
  | S depth' =>
      map (fun v =>
             let q := prefix * 256 + Z.of_nat v in
             let nbits := 8 * (level + 1) in
             match find_leaf huffmanCodes 0 q nbits with
             | Some (sym, l) => Some (mkEntry sym l None)
             | None =>
                 if has_longer huffmanCodes q nbits
                 then Some (mkEntry 0 0 (Some (buildTable depth' q (level + 1))))
                 else None
             end)
          (seq 0 256)
  end.

(** Modelled from the spec: the table [lookupTable] of the generated file
    huffman_tables.go, which is not among the sources at hand: "a rooted
    trie over 8-bit strides; each node is an array of 256 slots; a slot is
    either empty, a leaf (symbol, bit_length), or a pointer to a child
    node when the matched prefix is longer than the bits consumed so far
    in the window; built offline from the canonical codes".  The
    bit_length of a leaf is the length of the whole code, which is what
    [HuffmanDecode] compares with the bits read and then consumes. *)
Definition lookupTable : list (option huffmanEntry) :=
  Eval vm_compute in buildTable 4 0 0.

(** ** The bit reader *)

Record bitReader : Type := mkBitReader {
  br_buf : list byte;
  br_index : Z;
  br_bitIndex : Z
}.

Definition newBitReader (buf : list byte) : bitReader := mkBitReader buf 0 0.

(** [buf[idx]], or nothing where Go panics. *)
Definition index_at {A : Type} (buf : list A) (idx : Z) : option A :=
  if idx <? 0 then None else nth_error buf (Z.to_nat idx).

(** [b << uint(s)] on a [byte]. *)
Definition shl_byte (b s : Z) : Z :=
  if (0 <=? s) && (s <? 8) then Z.shiftl b s mod 256 else 0.

(** [v << uint(s)] on an [int]: a negative [s] converts to a count of 2^63
    or more, and a count of 64 or more leaves nothing. *)
Definition shl_int (v s : Z) : Z :=
  if (0 <=? s) && (s <? 64) then wrap64 (Z.shiftl v s) else 0.

(** The inner loop [for y := 0; y < 8; y++] of [PeekBits], [ys] rounds of
    it: either the function returns ([inl]), or the loop ends with the
    variables [n], [idx], [bitIdx] and [x] ([inr]). *)
Fixpoint PeekBits_inner (ys : nat) (buf : list byte) (numBits n idx bitIdx x : Z)
  : outcome ((Z * Z) + (Z * Z * Z * Z)) :=
  match ys with
  | O => Ok (inr (n, idx, bitIdx, x))
  | S ys' =>
      match index_at buf idx with
      | None => Panic PanicIndexOutOfRange
      | Some b =>
          let bit := if Z.land (shl_byte (Z_of_byte b) bitIdx) (Z.shiftl 1 7)
                        =? Z.shiftl 1 7 then 1 else 0 in
          let n := Z.lor n (shl_int bit (x - 1)) in
          let bitIdx := bitIdx + 1 in
          if bitIdx =? 8 then
            let bitIdx := 0 in
            let idx := idx + 1 in
            if idx =? len buf then Ok (inl (n, numBits - x + 1))
            else PeekBits_inner ys' buf numBits n idx bitIdx (x - 1)
          else PeekBits_inner ys' buf numBits n idx bitIdx (x - 1)
      end
  end.

(** The outer loop [for x := numBits; x >= 0; ].  [x] falls by eight in
    each round, so the fuel given by [PeekBits] is never used up. *)
Fixpoint PeekBits_outer (fuel : nat) (buf : list byte) (numBits n idx bitIdx x : Z)
  : outcome (Z * Z) :=
  match fuel with
  | O => Diverges
  | S fuel' =>
      if x >=? 0 then
        match PeekBits_inner 8 buf numBits n idx bitIdx x with
        | Ok (inl r) => Ok r
        | Ok (inr (n', idx', bitIdx', x')) =>
            PeekBits_outer fuel' buf numBits n' idx' bitIdx' x'
        | Err e => Err e
        | Panic p => Panic p
        | Diverges => Diverges
        end
      else Ok (n, numBits)
  end.

Definition PeekBits (br : bitReader) (numBits : Z) : outcome (Z * Z) :=
  PeekBits_outer (Z.to_nat (numBits / 8) + 2) (br_buf br) numBits
                 0 (br_index br) (br_bitIndex br) numBits.

Definition BitsAvailable (br : bitReader) : Z :=
  let bytes := len (br_buf br) - br_index br in
  8 * bytes - br_bitIndex br.

Definition ConsumeBits (br : bitReader) (numBits : Z) : bitReader :=
  mkBitReader (br_buf br)
              (br_index br + Z.quot (numBits + br_bitIndex br) 8)
              (Z.rem (numBits + br_bitIndex br) 8).

(** ** HuffmanEncode *)

Record encodeState : Type := mkEncodeState {
  es_encoded : list byte;
  es_currentByte : Z;       (* a byte *)
  es_currentBits : Z
}.

(** The loop [for bitsRemaining > 0] on one code. *)
Fixpoint encodeCode (bitsRemaining : nat) (code : Z) (st : encodeState) : encodeState :=
  match bitsRemaining with
  | O => st
  | S bitsRemaining' =>
      let currentByte :=
        if Z.land (Z.shiftr code (Z.of_nat bitsRemaining')) 1 =? 1
        then Z.lor (es_currentByte st) 1 else es_currentByte st in
      let currentBits := es_currentBits st + 1 in
      if currentBits =? 8
      then encodeCode bitsRemaining' code
             (mkEncodeState (es_encoded st ++ [byte_of_Z currentByte]) 0 0)
      else encodeCode bitsRemaining' code
             (mkEncodeState (es_encoded st) (Z.shiftl currentByte 1 mod 256) currentBits)
  end.

Definition encodeSymbol (st : encodeState) (b : byte) : encodeState :=
  let entry := huffmanCode (Z_of_byte b) in
  let code := fst entry in
  let bits := snd entry in
  encodeCode (Z.to_nat bits) code st.

(** Encodes the specified data with Huffman codes in HPACK. *)
Definition HuffmanEncode (data : list byte) : list byte :=
  let st := fold_left encodeSymbol data (mkEncodeState [] 0 0) in
  let currentBits := es_currentBits st in
  if (currentBits >? 0) && (currentBits <? 8) then
    let padding := huffmanCode 256 in
    let currentByte := Z.shiftl (es_currentByte st) (7 - currentBits) mod 256 in
    let currentByte :=
      Z.lor currentByte
            (Z_of_byte (byte_of_Z (Z.shiftr (fst padding)
                                            (snd padding - (8 - currentBits))))) in
    es_encoded st ++ [byte_of_Z currentByte]
  else es_encoded st.

(** ** HuffmanDecode *)

(** The conversion [int32(n)]. *)
Definition int32 (n : Z) : Z := (n + 2 ^ 31) mod 2 ^ 32 - 2 ^ 31.

(** The loop [for bitIdx := 0; bitIdx < 32; bitIdx += 8] over the lookup
    tables, [bitIdxs] being the values [bitIdx] still has to take: the
    leaf at which the loop breaks, if it does. *)
Fixpoint lookup_loop (bitIdxs : list Z) (table : list (option huffmanEntry)) (code : Z)
  : option huffmanEntry :=
  match bitIdxs with
  | [] => None
  | bitIdx :: bitIdxs' =>
      match nth (Z.to_nat (Z.land (Z.shiftr code (24 - bitIdx)) 255)) table None with
      | Some entry =>
          match entry_nextTable entry with
          | Some nextTable => lookup_loop bitIdxs' nextTable code
          | None => Some entry
          end
      | None => lookup_loop bitIdxs' table code
      end
  end.

(** The loop [for bitReader.BitsAvailable() >= 5].  A round that finds a
    leaf consumes its bits; the fuel given by [HuffmanDecode] is used up
    only if a leaf of the table has no bits, and then the loop of the
    source never exits. *)
Fixpoint HuffmanDecode_loop (fuel : nat) (br : bitReader) (decoded : list byte)
  : outcome (list byte) :=
  match fuel with
  | O => Diverges
  | S fuel' =>
      if BitsAvailable br >=? 5 then
        bind (PeekBits br 32) (fun '(n, bitsRead) =>
          let code := int32 n in
          match lookup_loop [0; 8; 16; 24] lookupTable code with
          | Some entry =>
              let decoded :=
                if bitsRead >=? entry_bits entry
                then decoded ++ [byte_of_Z (entry_symbol entry)]
                else decoded in
              HuffmanDecode_loop fuel' (ConsumeBits br (entry_bits entry)) decoded
          | None =>
              if bitsRead <=? 7 then Ok decoded
              else Err ErrHuffmanDecodeFailure
          end)
      else Ok decoded
  end.

(** Decodes the huffman encoded data. *)
Definition HuffmanDecode (encoded : list byte) : outcome (list byte) :=
  HuffmanDecode_loop (S (8 * List.length encoded)) (newBitReader encoded) [].

(** ** hpack.go: headers and tables *)

(** A Go string literal, as its octets. *)
Definition str (s : string) : list byte := list_byte_of_string s.

(** [a == b] on strings. *)
Fixpoint eqb_bytes (a b : list byte) : bool :=
  match a, b with
  | [], [] => true
  | x :: a', y :: b' => Byte.eqb x y && eqb_bytes a' b'
  | _, _ => false
  end.

Record Header : Type := mkHeader {
  Name : list byte;
  Value : list byte;
  Sensitive : bool
}.

(** Modelled from the spec: the table [staticTable] (its source file is
    not among the sources at hand): "a compile-time-constant ordered
    sequence of 61 (name, value) pairs defined by RFC 7541 Appendix A;
    indices 1..61; value may be empty". *)
Definition staticTable : list (list byte * list byte) :=
  Eval vm_compute in
    map (fun nv : string * string => (str (fst nv), str (snd nv)))
    [
     (":authority", EmptyString);
     (":method", "GET");
     (":method", "POST");
     (":path", "/");
     (":path", "/index.html");
     (":scheme", "http");
     (":scheme", "https");
     (":status", "200");
     (":status", "204");
     (":status", "206");
     (":status", "304");
     (":status", "400");
     (":status", "404");
     (":status", "500");
     ("accept-charset", EmptyString);
     ("accept-encoding", "gzip, deflate");
     ("accept-language", EmptyString);
     ("accept-ranges", EmptyString);
     ("accept", EmptyString);
     ("access-control-allow-origin", EmptyString);
     ("age", EmptyString);
     ("allow", EmptyString);
     ("authorization", EmptyString);
     ("cache-control", EmptyString);
     ("content-disposition", EmptyString);
     ("content-encoding", EmptyString);
     ("content-language", EmptyString);
     ("content-length", EmptyString);
     ("content-location", EmptyString);
     ("content-range", EmptyString);
     ("content-type", EmptyString);
     ("cookie", EmptyString);
     ("date", EmptyString);
     ("etag", EmptyString);
     ("expect", EmptyString);
     ("expires", EmptyString);
     ("from", EmptyString);
     ("host", EmptyString);
     ("if-match", EmptyString);
     ("if-modified-since", EmptyString);
     ("if-none-match", EmptyString);
     ("if-range", EmptyString);
     ("if-unmodified-since", EmptyString);
     ("last-modified", EmptyString);
     ("link", EmptyString);
     ("location", EmptyString);
     ("max-forwards", EmptyString);
     ("proxy-authenticate", EmptyString);
     ("proxy-authorization", EmptyString);
     ("range", EmptyString);
     ("referer", EmptyString);
     ("refresh", EmptyString);
     ("retry-after", EmptyString);
     ("server", EmptyString);
     ("set-cookie", EmptyString);
     ("strict-transport-security", EmptyString);
     ("transfer-encoding", EmptyString);
     ("user-agent", EmptyString);
     ("vary", EmptyString);
     ("via", EmptyString);
     ("www-authenticate", EmptyString)
    ]%string.

(** The first index, counted from [i], of an entry that [p] accepts. *)
Fixpoint find_index {A : Type} (p : A -> bool) (l : list A) (i : Z) : option Z :=
  match l with
  | [] => None
  | a :: l' => if p a then Some i else find_index p l' (i + 1)
  end.

(** Modelled from the spec: the map [staticTableEncoding] (declared with
    the static table): "name -> lowest-index". *)
Definition staticTableEncoding (name : list byte) : option Z :=
  find_index (fun nv => eqb_bytes (fst nv) name) staticTable 1.

(** Modelled from the spec: the map [staticTableEncodingWithValues]
    (declared with the static table): "name + separator + value -> index".
    The separator of the keys is the [":"] that [findHeaderInTable] puts
    into the key it looks up, as the encoder tests require ((:method, GET)
    is encoded as the octet 0x82). *)
Definition staticTableEncodingWithValues (key : list byte) : option Z :=
  find_index (fun nv => eqb_bytes (fst nv ++ str ":" ++ snd nv) key) staticTable 1.

Definition headerFieldIndexed : Z := 128.
Definition headerFieldLiteralIncrementalIndex : Z := 64.
Definition headerFieldDynamicSizeUpdate : Z := 32.
Definition headerFieldLiteralNeverIndexed : Z := 16.
Definition headerFieldLiteralNotIndexed : Z := 0.

Definition huffmanEncoded : Z := Z.shiftl 1 7.

(** The size of a table entry, as both [evictEntries] and
    [addNewDynamicEntry] compute it. *)
Definition entrySize (name value : list byte) : Z := 32 + len name + len value.

(** The loop of [evictEntries], which has the same text for both
    receivers.  The table is taken in reverse order, so that the last
    entry, the one the loop evicts, is at the head: the result is whether
    there is room, and what is left of the table (reversed) and of
    [dynamicTableSizeCurrent]. *)
Fixpoint evict_loop (rtable : list Header) (current additionalSize maxSize : Z)
  : bool * list Header * Z :=
  if current + additionalSize >? maxSize then
    match rtable with
    | [] => (false, [], current)
    | evictedEntry :: rtable' =>
        evict_loop rtable'
                   (current - (32 + len (Name evictedEntry) + len (Value evictedEntry)))
                   additionalSize maxSize
    end
  else (true, rtable, current).

Definition findStaticEntryInTable (name : list byte) : Z :=
  match staticTableEncoding name with
  | Some entry => entry
  | None => -1
  end.

Definition encodeLiteralString (s : list byte) (prefixLength : Z) (huffman : bool)
  : outcome (list byte) :=
  let encoded := [] in
  let value := if huffman then HuffmanEncode s else s in
  bind (encodeInteger (len value) prefixLength) (fun valueLen =>
  let valueLen := if huffman then orFirst huffmanEncoded valueLen else valueLen in
  let encoded := encoded ++ valueLen in
  let encoded := encoded ++ value in
  Ok encoded).

(** ** hpack.go: the encoder *)

Module Encoder.

Record t : Type := mk {
  dynamicTable : list Header;
  dynamicTableSizeMax : Z;
  dynamicTableSizeCurrent : Z;
  pendingDynamicTableSizeUpdate : bool
}.

Definition NewEncoder (dynamicTableSizeMax : Z) : t := mk [] dynamicTableSizeMax 0 false.

(** Finds the header in the table: the index, and whether the entry
    includes the value also; -1 if the entry was not found. *)
Definition findHeaderInTable (encoder : t) (name value : list byte) : Z * bool :=
  match (if negb (eqb_bytes value [])
         then staticTableEncodingWithValues (name ++ str ":" ++ value)
         else None) with
  | Some entry => (entry, true)
  | None =>
      match find_index (fun header => eqb_bytes (Name header) name
                                      && eqb_bytes (Value header) value)
                       (dynamicTable encoder) 0 with
      | Some x => (len staticTable + x + 1, true)
      | None =>
          match staticTableEncoding name with
          | Some entry => (entry, false)
          | None => (-1, false)
          end
      end
  end.

(** Returns true if there is enough space to accommodate additionalSize. *)
Definition evictEntries (encoder : t) (additionalSize maxSize : Z) : t * bool :=
  let '(ok, rtable, current) :=
    evict_loop (rev (dynamicTable encoder)) (dynamicTableSizeCurrent encoder)
               additionalSize maxSize in
  (mk (rev rtable) (dynamicTableSizeMax encoder) current
      (pendingDynamicTableSizeUpdate encoder), ok).

Definition SetDynamicTableMaxSize (encoder : t) (newMaxSize : Z) : t :=
  let encoder := mk (dynamicTable encoder) newMaxSize (dynamicTableSizeCurrent encoder)
                    (pendingDynamicTableSizeUpdate encoder) in
  let encoder := fst (evictEntries encoder 0 newMaxSize) in
  mk (dynamicTable encoder) (dynamicTableSizeMax encoder)
     (dynamicTableSizeCurrent encoder) true.

Definition addNewDynamicEntry (encoder : t) (name value : list byte) : t :=
  let entrySize := 32 + len name + len value in
  let (encoder, ok) := evictEntries encoder entrySize (dynamicTableSizeMax encoder) in
  if negb ok then encoder
  else
    mk (mkHeader name value false :: dynamicTable encoder)
       (dynamicTableSizeMax encoder)
       (dynamicTableSizeCurrent encoder + entrySize)
       (pendingDynamicTableSizeUpdate encoder).

Definition encodeHeaderField (encoder : t) (header : Header)
           (huffman addDynamicIndex : bool) : t * outcome (list byte) :=
  let encoded := [] in
  match (if pendingDynamicTableSizeUpdate encoder
         then bind (encodeInteger (dynamicTableSizeMax encoder) 5) (fun newSize =>
              Ok (encoded ++ orFirst headerFieldDynamicSizeUpdate newSize))
         else Ok encoded) with
  | Ok encoded =>
      let encoder :=
        if pendingDynamicTableSizeUpdate encoder
        then mk (dynamicTable encoder) (dynamicTableSizeMax encoder)
                (dynamicTableSizeCurrent encoder) false
        else encoder in
      if Sensitive header then
        let index := findStaticEntryInTable (Name header) in
        (encoder,
         bind (if negb (index =? -1)
               then bind (encodeInteger index 4) (fun indexed =>
                    Ok (encoded ++ orFirst headerFieldLiteralNeverIndexed indexed))
               else bind (encodeInteger 0 4) (fun indexed =>
                    bind (encodeLiteralString (Name header) 7 huffman) (fun lit =>
                    Ok ((encoded ++ orFirst headerFieldLiteralNeverIndexed indexed)
                          ++ lit))))
              (fun encoded =>
         bind (encodeLiteralString (Value header) 7 huffman) (fun lit =>
         Ok (encoded ++ lit))))
      else
        let (index, valueIndexed) :=
          findHeaderInTable encoder (Name header) (Value header) in
        if negb (index =? -1) && valueIndexed then
          (encoder,
           bind (encodeInteger index 7) (fun indexed =>
           Ok (encoded ++ orFirst headerFieldIndexed indexed)))
        else
          match (if index =? -1 then encodeInteger 0 6 else encodeInteger index 6) with
          | Ok indexed =>
              let (indexed, encoder) :=
                if addDynamicIndex
                then (orFirst headerFieldLiteralIncrementalIndex indexed,
                      addNewDynamicEntry encoder (Name header) (Value header))
                else (orFirst headerFieldLiteralNotIndexed indexed, encoder) in
              let encoded := encoded ++ indexed in
              (encoder,
               bind (if index =? -1
                     then bind (encodeLiteralString (Name header) 7 huffman) (fun lit =>
                          Ok (encoded ++ lit))
                     else Ok encoded) (fun encoded =>
               bind (encodeLiteralString (Value header) 7 huffman) (fun lit =>
               Ok (encoded ++ lit))))
          | Err e => (encoder, Err e)
          | Panic p => (encoder, Panic p)
          | Diverges => (encoder, Diverges)
          end
  | Err e => (encoder, Err e)
  | Panic p => (encoder, Panic p)
  | Diverges => (encoder, Diverges)
  end.

(** Encodes a header without Indexing and returns the encoded header field. *)
Definition EncodeNoDynamicIndexing (encoder : t) (header : Header) (huffman : bool)
  : t * outcome (list byte) :=
  encodeHeaderField encoder header huffman false.

(** Encodes a header with Indexing and returns the encoded header field. *)
Definition EncodeIndexed (encoder : t) (header : Header) (huffman : bool)
  : t * outcome (list byte) :=
  encodeHeaderField encoder header huffman true.

(** The loop [for _, header := range headers] of [encode]. *)
Fixpoint encode_loop (encoder : t) (headers : list Header) (huffman : bool)
         (encoded : list byte) : t * outcome (list byte) :=
  match headers with
  | [] => (encoder, Ok encoded)
  | header :: headers' =>
      match EncodeIndexed encoder header huffman with
      | (encoder, Ok enc) => encode_loop encoder headers' huffman (encoded ++ enc)
      | (encoder, Err e) => (encoder, Err e)
      | (encoder, Panic p) => (encoder, Panic p)
      | (encoder, Diverges) => (encoder, Diverges)
      end
  end.

Definition encode (encoder : t) (headers : list Header) (huffman : bool)
  : t * outcome (list byte) :=
  encode_loop encoder headers huffman [].

(** Encodes a list of headers into a header block using Huffman
    compression and with incremental indexing enabled. *)
Definition Encode (encoder : t) (headers : list Header) : t * outcome (list byte) :=
  encode encoder headers true.

End Encoder.

(** ** hpack.go: the decoder *)

Module Decoder.

Record t : Type := mk {
  dynamicTable : list Header;
  dynamicTableSizeMax : Z;
  dynamicTableSizeCurrent : Z;
  integerValueMax : Z;
  integerEncodedLengthMax : Z;
  stringLiteralLengthMax : Z
}.

Definition NewDecoder (dynamicTableSizeMax : Z) : t :=
  mk [] dynamicTableSizeMax 0
     DefaultMaxIntegerValue DefaultMaxIntegerEncodedLength DefaultMaxStringLiteralLength.

Definition DecodeInteger (decoder : t) (buf : list byte) (prefixLength : Z)
  : outcome (list byte * Z * Z) :=
  decodeInteger buf prefixLength (integerValueMax decoder) (integerEncodedLengthMax decoder).

(** [rest[:length]] and [rest[length:]], where the slice expressions do
    not panic. *)
Definition slice_at (rest : list byte) (length : Z) : option (list byte * list byte) :=
  if (length <? 0) || (len rest <? length) then None
  else Some (firstn (Z.to_nat length) rest, skipn (Z.to_nat length) rest).

Definition readPrefixedLengthString (decoder : t) (buf : list byte) (prefixLength : Z)
  : outcome (list byte * list byte) :=
  bind (DecodeInteger decoder buf prefixLength) (fun '(rest, huffman, length) =>
  if length >? stringLiteralLengthMax decoder then Err ErrStringLiteralLengthTooLong
  else if Z.land huffman huffmanEncoded =? huffmanEncoded then
    if len rest <? length then Err ErrHuffmanRanOutOfData
    else
      match slice_at rest length with
      | None => Panic PanicSliceBounds
      | Some (payload, rest') =>
          bind (HuffmanDecode payload) (fun decoded => Ok (rest', decoded))
      end
  else
    match slice_at rest length with
    | None => Panic PanicSliceBounds
    | Some (payload, rest') => Ok (rest', payload)
    end).

Definition getIndexedNameValue (decoder : t) (index : Z) : outcome (list byte * list byte) :=
  if index >? len staticTable then
    let dynamicIndex := index - len staticTable in
    if dynamicIndex >? len (dynamicTable decoder) then Err (ErrIndexNotFound index)
    else
      match index_at (dynamicTable decoder) (dynamicIndex - 1) with
      | Some header => Ok (Name header, Value header)
      | None => Panic PanicIndexOutOfRange
      end
  else
    match index_at staticTable (index - 1) with
    | Some nv => Ok (fst nv, snd nv)
    | None => Panic PanicIndexOutOfRange
    end.

(** Returns true if there is enough space to accommodate additionalSize. *)
Definition evictEntries (decoder : t) (additionalSize maxSize : Z) : t * bool :=
  let '(ok, rtable, current) :=
    evict_loop (rev (dynamicTable decoder)) (dynamicTableSizeCurrent decoder)
               additionalSize maxSize in
  (mk (rev rtable) (dynamicTableSizeMax decoder) current
      (integerValueMax decoder) (integerEncodedLengthMax decoder)
      (stringLiteralLengthMax decoder), ok).

(** Updates the decoder's dynamic table maximum size and evicts any
    headers if more space is needed to resize to newMaxSize. *)
Definition SetDynamicTableMaxSize (decoder : t) (newMaxSize : Z) : t :=
  let decoder := mk (dynamicTable decoder) newMaxSize (dynamicTableSizeCurrent decoder)
                    (integerValueMax decoder) (integerEncodedLengthMax decoder)
                    (stringLiteralLengthMax decoder) in
  fst (evictEntries decoder 0 newMaxSize).

Definition SetMaxIntegerValue (decoder : t) (value : Z) : t :=
  mk (dynamicTable decoder) (dynamicTableSizeMax decoder) (dynamicTableSizeCurrent decoder)
     value (integerEncodedLengthMax decoder) (stringLiteralLengthMax decoder).

Definition SetMaxIntegerEncodedLength (decoder : t) (length : Z) : t :=
  mk (dynamicTable decoder) (dynamicTableSizeMax decoder) (dynamicTableSizeCurrent decoder)
     (integerValueMax decoder) length (stringLiteralLengthMax decoder).

Definition SetMaxStringLiteralLength (decoder : t) (length : Z) : t :=
  mk (dynamicTable decoder) (dynamicTableSizeMax decoder) (dynamicTableSizeCurrent decoder)
     (integerValueMax decoder) (integerEncodedLengthMax decoder) length.

Definition addNewDynamicEntry (decoder : t) (name value : list byte) : t :=
  let entrySize := 32 + len name + len value in
  let (decoder, ok) := evictEntries decoder entrySize (dynamicTableSizeMax decoder) in
  if negb ok then decoder
  else
    mk (mkHeader name value false :: dynamicTable decoder)
       (dynamicTableSizeMax decoder)
       (dynamicTableSizeCurrent decoder + entrySize)
       (integerValueMax decoder) (integerEncodedLengthMax decoder)
       (stringLiteralLengthMax decoder).

Definition parseHeaderFieldIndexed (decoder : t) (encoded : list byte)
  : outcome (list byte * Header) :=
  bind (DecodeInteger decoder encoded 7) (fun '(rest, _, index) =>
  bind (getIndexedNameValue decoder index) (fun '(name, value) =>
  Ok (rest, mkHeader name value false))).

Definition parseHeaderFieldIncrementalIndex (decoder : t) (encoded : list byte)
  : t * outcome (list byte * Header) :=
  match
    bind (DecodeInteger decoder encoded 6) (fun '(rest, _, index) =>
    bind (if index =? 0
          then readPrefixedLengthString decoder rest 7
          else bind (getIndexedNameValue decoder index) (fun '(name, _) =>
               Ok (rest, name))) (fun '(rest, name) =>
    bind (readPrefixedLengthString decoder rest 7) (fun '(rest, value) =>
    Ok (rest, name, value))))
  with
  | Ok (rest, name, value) =>
      (addNewDynamicEntry decoder name value, Ok (rest, mkHeader name value false))
  | Err e => (decoder, Err e)
  | Panic p => (decoder, Panic p)
  | Diverges => (decoder, Diverges)
  end.

Definition parseDynamicSizeUpdate (decoder : t) (encoded : list byte)
  : t * outcome (list byte) :=
  match DecodeInteger decoder encoded 5 with
  | Ok (consumed, _, size) =>
      if size >? dynamicTableSizeMax decoder
      then (decoder, Err (ErrResizeTooLarge size (dynamicTableSizeCurrent decoder)))
      else (SetDynamicTableMaxSize decoder size, Ok consumed)
  | Err e => (decoder, Err e)
  | Panic p => (decoder, Panic p)
  | Diverges => (decoder, Diverges)
  end.

Definition parseHeaderFieldNotIndexed (decoder : t) (encoded : list byte)
  : outcome (list byte * Header) :=
  bind (DecodeInteger decoder encoded 4) (fun '(rest, _, index) =>
  if index =? 0 then
    bind (readPrefixedLengthString decoder rest 7) (fun '(rest, name) =>
    bind (readPrefixedLengthString decoder rest 7) (fun '(rest, value) =>
    Ok (rest, mkHeader name value false)))
  else
    bind (getIndexedNameValue decoder index) (fun '(name, _) =>
    bind (readPrefixedLengthString decoder rest 7) (fun '(rest, value) =>
    Ok (rest, mkHeader name value false)))).

(** The remaining buffer and the header; a size update yields no header. *)
Definition parseHeaderField (decoder : t) (encoded : list byte)
  : t * outcome (list byte * option Header) :=
  match encoded with
  | [] => (decoder, Panic PanicIndexOutOfRange)
  | b0 :: _ =>
      let first := Z_of_byte b0 in
      if Z.land first headerFieldIndexed =? headerFieldIndexed then
        (decoder,
         bind (parseHeaderFieldIndexed decoder encoded) (fun '(rest, header) =>
         Ok (rest, Some header)))
      else if Z.land first headerFieldLiteralIncrementalIndex
              =? headerFieldLiteralIncrementalIndex then
        let (decoder, r) := parseHeaderFieldIncrementalIndex decoder encoded in
        (decoder, bind r (fun '(rest, header) => Ok (rest, Some header)))
      else if Z.land first headerFieldDynamicSizeUpdate
              =? headerFieldDynamicSizeUpdate then
        let (decoder, r) := parseDynamicSizeUpdate decoder encoded in
        (decoder, bind r (fun rest => Ok (rest, None)))
      else if Z.land first headerFieldLiteralNeverIndexed
              =? headerFieldLiteralNeverIndexed then
        (decoder,
         bind (parseHeaderFieldNotIndexed decoder encoded) (fun '(rest, header) =>
         Ok (rest, Some (mkHeader (Name header) (Value header) true))))
      else if Z.land first headerFieldLiteralNotIndexed
              =? headerFieldLiteralNotIndexed then
        (decoder,
         bind (parseHeaderFieldNotIndexed decoder encoded) (fun '(rest, header) =>
         Ok (rest, Some header)))
      else (decoder, Panic PanicUnknownType)
  end.

(** The loop [for len(buf) > 0] of [Decode].  A field that parses takes
    at least one octet off the buffer, so the fuel given by [Decode] is
    never used up. *)
Fixpoint Decode_loop (fuel : nat) (decoder : t) (buf : list byte) (headers : list Header)
  : t * outcome (list Header) :=
  match fuel with
  | O => (decoder, Diverges)
  | S fuel' =>
      if len buf >? 0 then
        match parseHeaderField decoder buf with
        | (decoder, Ok (buf, header)) =>
            Decode_loop fuel' decoder buf
                        (match header with
                         | Some h => headers ++ [h]
                         | None => headers
                         end)
        | (decoder, Err e) => (decoder, Err e)
        | (decoder, Panic p) => (decoder, Panic p)
        | (decoder, Diverges) => (decoder, Diverges)
        end
      else (decoder, Ok headers)
  end.

(** Parses the HPACK header block and returns the list of headers, with
    the order preserved from the order in the block. *)
Definition Decode (decoder : t) (block : list byte) : t * outcome (list Header) :=
  Decode_loop (S (List.length block)) decoder block [].

End Decoder.

(* ================================================================== *)
(** * Part II: specification-level definitions                          *)
(* ================================================================== *)

(** A call returns without error (and without panic). *)
Definition is_ok {A : Type} (o : outcome A) : Prop := exists a, o = Ok a.

(** The sum over the table entries of [32 + len(name) + len(value)]. *)
Fixpoint table_size (table : list Header) : Z :=
  match table with
  | [] => 0
  | h :: table' => entrySize (Name h) (Value h) + table_size table'
  end.

(** The states an encoder can be in: created with a non-negative maximal
    size, and then subjected to insertions, resizes to a non-negative
    size, and encoding calls. *)
Inductive enc_reachable : Encoder.t -> Prop :=
| er_new (m : Z) :
    0 <= m -> enc_reachable (Encoder.NewEncoder m)
| er_add (e : Encoder.t) (name value : list byte) :
    enc_reachable e -> enc_reachable (Encoder.addNewDynamicEntry e name value)
| er_resize (e : Encoder.t) (n : Z) :
    0 <= n -> enc_reachable e -> enc_reachable (Encoder.SetDynamicTableMaxSize e n)
| er_field (e : Encoder.t) (h : Header) (huffman addDynamicIndex : bool) :
    enc_reachable e ->
    enc_reachable (fst (Encoder.encodeHeaderField e h huffman addDynamicIndex))
| er_encode (e : Encoder.t) (hs : list Header) (huffman : bool) :
    enc_reachable e -> enc_reachable (fst (Encoder.encode e hs huffman)).

(** The states a decoder can be in: created with a non-negative maximal
    size, and then subjected to insertions, resizes to a non-negative
    size, changes of its limits that keep the limit on the length of an
    encoded integer from 2 to 9, and [Decode] calls on any block,
    whatever they return. *)
Inductive dec_reachable : Decoder.t -> Prop :=
| dr_new (m : Z) :
    0 <= m -> dec_reachable (Decoder.NewDecoder m)
| dr_add (d : Decoder.t) (name value : list byte) :
    dec_reachable d -> dec_reachable (Decoder.addNewDynamicEntry d name value)
| dr_resize (d : Decoder.t) (n : Z) :
    0 <= n -> dec_reachable d -> dec_reachable (Decoder.SetDynamicTableMaxSize d n)
| dr_max_integer_value (d : Decoder.t) (value : Z) :
    dec_reachable d -> dec_reachable (Decoder.SetMaxIntegerValue d value)
| dr_max_integer_encoded_length (d : Decoder.t) (length : Z) :
    2 <= length <= 9 ->
    dec_reachable d -> dec_reachable (Decoder.SetMaxIntegerEncodedLength d length)
| dr_max_string_literal_length (d : Decoder.t) (length : Z) :
    dec_reachable d -> dec_reachable (Decoder.SetMaxStringLiteralLength d length)
| dr_decode (d : Decoder.t) (block : list byte) :
    dec_reachable d -> dec_reachable (fst (Decoder.Decode d block)).

(** The size invariant of a dynamic table. *)
Definition size_inv (table : list Header) (maxSize current : Z) : Prop :=
  current <= maxSize /\ current = table_size table.

(** What it is for an index to match a header, in the words of the
    specification of the lookup: static indices count from 1, positions
    in the dynamic table from 0. *)
Definition static_match_both (i : Z) (name value : list byte) : Prop :=
  1 <= i /\ nth_error staticTable (Z.to_nat (i - 1)) = Some (name, value).

Definition static_match_name (i : Z) (name : list byte) : Prop :=
  1 <= i /\ exists v, nth_error staticTable (Z.to_nat (i - 1)) = Some (name, v).

Definition dynamic_match_both (table : list Header) (x : Z) (name value : list byte) : Prop :=
  0 <= x /\
  exists h, nth_error table (Z.to_nat x) = Some h /\ Name h = name /\ Value h = value.

(** All the ways to cut [s] at an octet [c]; [pre] is what was passed
    over, in reverse. *)
Fixpoint splits_at (c : byte) (pre s : list byte) : list (list byte * list byte) :=
  match s with
  | [] => []
  | x :: s' =>
      (if Byte.eqb x c then [(rev pre, s')] else []) ++ splits_at c (x :: pre) s'
  end.

(** Every way to cut a key of the static table at a colon gives either
    an empty name or the entry itself. *)
Definition static_keys_ok : bool :=
  forallb (fun nv : list byte * list byte =>
             forallb (fun sp : list byte * list byte =>
                        match fst sp with
                        | [] => true
                        | _ => eqb_bytes (fst sp) (fst nv) && eqb_bytes (snd sp) (snd nv)
                        end)
                     (splits_at ":"%byte [] (fst nv ++ str ":" ++ snd nv)))
          staticTable.

Fixpoint nodupb (l : list (list byte * list byte)) : bool :=
  match l with
  | [] => true
  | a :: l' =>
      negb (existsb (fun b => eqb_bytes (fst a) (fst b) && eqb_bytes (snd a) (snd b)) l')
      && nodupb l'
  end.

(** ** Bit strings, for the Huffman codec *)

(** The value of a bit string, most significant bit first. *)
Fixpoint bval_from (acc : Z) (l : list bool) : Z :=
  match l with
  | [] => acc
  | b :: l' => bval_from (2 * acc + Z.b2z b) l'
  end.

Definition bval (l : list bool) : Z := bval_from 0 l.

(** The [n] low bits of [c], most significant first. *)
Fixpoint code_bits (n : nat) (c : Z) : list bool :=
  match n with
  | O => []
  | S n' => Z.testbit c (Z.of_nat n') :: code_bits n' c
  end.

Definition bits_of_byte (b : byte) : list bool := code_bits 8 (Z_of_byte b).

Definition bits_of_bytes (l : list byte) : list bool := flat_map bits_of_byte l.

(** The code of a symbol, as a bit string. *)
Definition symbol_bits (b : byte) : list bool :=
  code_bits (Z.to_nat (snd (huffmanCode (Z_of_byte b)))) (fst (huffmanCode (Z_of_byte b))).

(** The bit string that the Huffman code assigns to a byte string. *)
Definition enc_bits (s : list byte) : list bool := flat_map symbol_bits s.

(** All the bytes. *)
Definition all_bytes : list byte := map (fun k => byte_of_Z (Z.of_nat k)) (seq 0 256).

(** All the bit strings of a length. *)
Fixpoint all_bits (n : nat) : list (list bool) :=
  match n with
  | O => [[]]
  | S n' => map (cons true) (all_bits n') ++ map (cons false) (all_bits n')
  end.

(** The 32-bit window on a bit string: its first 32 bits, with zeros
    after the end. *)
Definition window (l : list bool) : Z :=
  bval (firstn 32 l) * 2 ^ (32 - len (firstn 32 l)).

(** What [PeekBits] makes of [n] and [x] on reading the bits [l]. *)
Fixpoint peek_acc (n x : Z) (l : list bool) : Z :=
  match l with
  | [] => n
  | b :: l' => peek_acc (Z.lor n (shl_int (Z.b2z b) (x - 1))) (x - 1) l'
  end.

(** The number of bits that the loops of [PeekBits] go through from [x]. *)
Definition peek_steps (x : Z) : nat :=
  if x <? 0 then 0%nat else (8 * (Z.to_nat (x / 8) + 1))%nat.

(** The test of [PeekBits] on the bit [bitIdx] of an octet. *)
Definition bit_test (b : byte) (bitIdx : Z) : bool :=
  Z.land (shl_byte (Z_of_byte b) bitIdx) (Z.shiftl 1 7) =? Z.shiftl 1 7.

(* ================================================================== *)
(** * Part II, continued: definitions for the proofs                    *)
(* ================================================================== *)

(** The invariant carried through the operations: the size invariant, and
    for a decoder the limit on the length of an encoded integer with
    which integers are read without leaving the range of [int]. *)
Definition enc_inv (e : Encoder.t) : Prop :=
  size_inv (Encoder.dynamicTable e) (Encoder.dynamicTableSizeMax e)
           (Encoder.dynamicTableSizeCurrent e).

Definition dec_inv (d : Decoder.t) : Prop :=
  size_inv (Decoder.dynamicTable d) (Decoder.dynamicTableSizeMax d)
           (Decoder.dynamicTableSizeCurrent d) /\
  2 <= Decoder.integerEncodedLengthMax d <= 9.

(** The limits of a decoder as [NewDecoder] sets them. *)
Definition default_limits (d : Decoder.t) : Prop :=
  Decoder.integerValueMax d = DefaultMaxIntegerValue /\
  Decoder.integerEncodedLengthMax d = DefaultMaxIntegerEncodedLength /\
  Decoder.stringLiteralLengthMax d = DefaultMaxStringLiteralLength.

(** An octet is its eight bits. *)
Definition byte_bits_ok (l : list bool) : bool :=
  if list_eq_dec Bool.bool_dec (bits_of_byte (byte_of_Z (bval l))) l then true else false.

(** The state of the encoder holds the bits [tail], not yet written. *)
Definition enc_state_ok (st : encodeState) (tail : list bool) : Prop :=
  es_currentBits st = len tail /\ (List.length tail < 8)%nat /\
  es_currentByte st = 2 * bval tail.

(** The last octet: the bits left over, then ones from the EOS code. *)
Definition padding_ok (tail : list bool) : bool :=
  let currentBits := len tail in
  let padding := huffmanCode 256 in
  let currentByte := Z.shiftl (2 * bval tail) (7 - currentBits) mod 256 in
  let currentByte :=
    Z.lor currentByte
          (Z_of_byte (byte_of_Z (Z.shiftr (fst padding) (snd padding - (8 - currentBits))))) in
  if list_eq_dec Bool.bool_dec (bits_of_byte (byte_of_Z currentByte))
                 (tail ++ repeat true (8 - List.length tail))
  then true else false.

(** The test of [PeekBits] reads the bits of an octet in their order. *)
Definition bit_test_ok (b : byte) : bool :=
  forallb (fun k => match nth_error (bits_of_byte b) k with
                    | Some v => Bool.eqb v (bit_test b (Z.of_nat k))
                    | None => false
                    end) (seq 0 8).

(** The position of a reader, in bits, and what is left of the buffer. *)
Definition rpos (br : bitReader) : Z := 8 * br_index br + br_bitIndex br.

Definition reader_ok (br : bitReader) : Prop :=
  0 <= br_index br /\ 0 <= br_bitIndex br < 8.

Definition remaining (br : bitReader) : list bool :=
  skipn (Z.to_nat (rpos br)) (bits_of_bytes (br_buf br)).

(** Is this the leaf of the symbol [sym], with a code of [L] bits? *)
Definition is_leaf (o : option huffmanEntry) (sym L : Z) : bool :=
  match o with
  | Some (mkEntry s b None) => (s =? sym) && (b =? L)
  | _ => false
  end.

(** The code of [sym] has 5 to 30 bits, and the walk through the tables
    ends at the leaf of [sym] in the octet in which the code ends, whatever
    bits follow the code in that octet. *)
Definition code_leaf_ok (sym : Z) : bool :=
  let c := fst (huffmanCode sym) in
  let L := snd (huffmanCode sym) in
  let nb := (L + 7) / 8 in
  (5 <=? L) && (L <=? 30) && (0 <=? c) && (c <? 2 ^ L) &&
  forallb (fun v =>
             is_leaf (lookup_loop (firstn (Z.to_nat nb) [0; 8; 16; 24]) lookupTable
                        (Z.shiftl (c * 2 ^ (8 * nb - L) + Z.of_nat v) (32 - 8 * nb)))
                     sym L)
          (seq 0 (Z.to_nat (2 ^ (8 * nb - L)))).

(** The walk on a window of five to seven ones and then zeros, which is
    what is left of the padding: it ends at a leaf with more bits than
    were read. *)
Definition padding_leaf_ok (k : nat) : bool :=
  match lookup_loop [0; 8; 16; 24] lookupTable (int32 (window (repeat true k))) with
  | Some entry => (Z.of_nat k <? entry_bits entry) && (entry_bits entry <=? 32)
  | None => false
  end.

(** Every leaf within [depth] levels below [table] has 5 to 30 bits. *)
Fixpoint check_table (depth : nat) (table : list (option huffmanEntry)) : bool :=
  forallb (fun slot =>
             match slot with
             | None => true
             | Some (mkEntry _ b None) => (5 <=? b) && (b <=? 30)
             | Some (mkEntry _ _ (Some t)) =>
                 match depth with
                 | O => false
                 | S depth' => check_table depth' t
                 end
             end) table.

(** The payload of a literal fits the limit of the decoder. *)
Definition lit_ok (huffman : bool) (s : list byte) : Prop :=
  len (if huffman then HuffmanEncode s else s) <= DefaultMaxStringLiteralLength.

(** The encoder and the decoder hold the same dynamic table with the same
    sizes, the table is within its maximal size, which the decoder can
    read as an integer, and the decoder has the limits of [NewDecoder]. *)
Definition synced (e : Encoder.t) (d : Decoder.t) : Prop :=
  Encoder.dynamicTable e = Decoder.dynamicTable d /\
  Encoder.dynamicTableSizeMax e = Decoder.dynamicTableSizeMax d /\
  Encoder.dynamicTableSizeCurrent e = Decoder.dynamicTableSizeCurrent d /\
  enc_inv e /\
  Encoder.dynamicTableSizeMax e <= DefaultMaxIntegerValue /\
  default_limits d.

(** A header that the encoder can send to such a decoder: the name is not
    empty and the payloads of the literals fit the limit of the decoder. *)
Definition encodable (huffman : bool) (h : Header) : Prop :=
  Name h <> [] /\ lit_ok huffman (Name h) /\ lit_ok huffman (Value h).

(* ================================================================== *)
(** * Part III: proofs                                                  *)
(* ================================================================== *)

(** ** Bytes *)

Lemma Z_of_byte_range (b : byte) : 0 <= Z_of_byte b < 256.
Proof.
  unfold Z_of_byte. pose proof (Byte.to_N_bounded b). lia.
Qed.

Lemma Z_of_byte_of_Z (z : Z) : Z_of_byte (byte_of_Z z) = z mod 256.
Proof.
  unfold byte_of_Z, Z_of_byte.
  pose proof (Z.mod_pos_bound z 256 ltac:(lia)) as Hb.
  destruct (Byte.of_N (Z.to_N (z mod 256))) as [b|] eqn:E.
  - apply Byte.to_of_N in E. rewrite E. lia.
  - apply Byte.of_N_None_iff in E. lia.
Qed.

Lemma Z_of_byte_of_Z_small (z : Z) : 0 <= z < 256 -> Z_of_byte (byte_of_Z z) = z.
Proof.
  intros H. rewrite Z_of_byte_of_Z. apply Z.mod_small; lia.
Qed.

Lemma byte_of_Z_of_byte (b : byte) : byte_of_Z (Z_of_byte b) = b.
Proof.
  unfold byte_of_Z, Z_of_byte.
  pose proof (Byte.to_N_bounded b).
  rewrite Z.mod_small by lia.
  rewrite N2Z.id, Byte.of_to_N. reflexivity.
Qed.

(** ** Bit-level facts about the first octet of an integer *)

Lemma testbit_above (x n i : Z) :
  0 <= x < 2 ^ n -> 0 <= n <= i -> Z.testbit x i = false.
Proof.
  intros Hx Hn.
  destruct (Z.eq_dec x 0) as [->|Hne]; [apply Z.bits_0|].
  apply Z.bits_above_log2; [lia|].
  apply Z.lt_le_trans with n; [|lia].
  apply Z.log2_lt_pow2; lia.
Qed.

Lemma testbit_flag_low (flag n i : Z) :
  Z.land flag (Z.ones n) = 0 -> 0 <= i < n -> Z.testbit flag i = false.
Proof.
  intros H Hi.
  assert (E : Z.testbit (Z.land flag (Z.ones n)) i = false) by (rewrite H; apply Z.bits_0).
  rewrite Z.land_spec, Z.ones_spec_low in E by lia.
  now rewrite andb_true_r in E.
Qed.

Lemma mask_is_ones (n : Z) : 0 <= n -> Z.shiftl 1 n - 1 = Z.ones n.
Proof.
  intros Hn. rewrite Z.ones_equiv, Z.shiftl_1_l. lia.
Qed.

Lemma land_mask_lor (x flag n : Z) :
  0 <= n -> 0 <= x < 2 ^ n -> Z.land flag (Z.ones n) = 0 ->
  Z.land (Z.ones n) (Z.lor x flag) = x.
Proof.
  intros Hn Hx Hf. apply Z.bits_inj'. intros i Hi.
  rewrite Z.land_spec, Z.lor_spec.
  destruct (Z.lt_ge_cases i n) as [Hlt|Hge].
  - rewrite Z.ones_spec_low by lia.
    rewrite (testbit_flag_low flag n i Hf) by lia.
    now rewrite orb_false_r.
  - rewrite Z.ones_spec_high by lia.
    now rewrite (testbit_above x n i Hx) by lia.
Qed.

Lemma ldiff_lor_mask (x flag n : Z) :
  0 <= n -> 0 <= x < 2 ^ n -> Z.land flag (Z.ones n) = 0 ->
  Z.ldiff (Z.lor x flag) (Z.ones n) = flag.
Proof.
  intros Hn Hx Hf. apply Z.bits_inj'. intros i Hi.
  rewrite Z.ldiff_spec, Z.lor_spec.
  destruct (Z.lt_ge_cases i n) as [Hlt|Hge].
  - rewrite Z.ones_spec_low by lia.
    rewrite (testbit_flag_low flag n i Hf) by lia.
    now rewrite andb_false_r.
  - rewrite Z.ones_spec_high by lia.
    rewrite (testbit_above x n i Hx) by lia.
    now rewrite andb_true_r.
Qed.

Lemma lor_flag_range (x flag n : Z) :
  0 <= n <= 8 -> 0 <= x < 2 ^ n -> 0 <= flag < 256 -> 0 <= Z.lor x flag < 256.
Proof.
  intros Hn Hx Hf.
  assert (Hx8 : 0 <= x < 2 ^ 8).
  { split; [lia|]. apply Z.lt_le_trans with (2 ^ n); [lia|].
    apply Z.pow_le_mono_r; lia. }
  split.
  - apply Z.lor_nonneg; lia.
  - destruct (Z.eq_dec (Z.lor x flag) 0) as [->|Hne]; [lia|].
    assert (Hnn : 0 <= Z.lor x flag) by (apply Z.lor_nonneg; lia).
    change 256 with (2 ^ 8). apply Z.log2_lt_pow2; [lia|].
    rewrite Z.log2_lor by lia.
    apply Z.max_lub_lt.
    + destruct (Z.eq_dec x 0) as [->|]; [simpl; lia|]. apply Z.log2_lt_pow2; lia.
    + destruct (Z.eq_dec flag 0) as [->|]; [simpl; lia|].
      apply Z.log2_lt_pow2; [lia|]. change (2 ^ 8) with 256. lia.
Qed.

(** ** The integer codec *)

Lemma wrap64_small (z : Z) : - 2 ^ 63 <= z < 2 ^ 63 -> wrap64 z = z.
Proof.
  intros H. unfold wrap64. rewrite Z.mod_small; lia.
Qed.

Lemma encodeInteger_loop_app (fuel : nat) (i : Z) (buf : list byte) :
  encodeInteger_loop fuel i buf = buf ++ encodeInteger_loop fuel i [].
Proof.
  revert i buf. induction fuel as [|fuel IH]; intros i buf; simpl.
  - reflexivity.
  - destruct (i >=? 128); [|reflexivity].
    rewrite IH. rewrite (IH _ [_]). now rewrite app_assoc.
Qed.

(** The continuation octets of [i], written by [encodeInteger_loop], are
    read back by [decodeInteger_loop]: the number has at most [k + 1]
    digits in base 128. *)
Lemma decode_encode_loop (k : nat) :
  forall (fuel : nat) (i idx m n prefix iMax lMax : Z) (suffix : list byte),
    (k < fuel)%nat ->
    0 <= i < 128 ^ (Z.of_nat k + 1) ->
    0 <= m -> m + 7 * Z.of_nat k < 63 ->
    0 <= n -> n + i * 2 ^ m <= iMax -> iMax < 2 ^ 63 ->
    (idx + Z.of_nat k + 1 <= lMax \/ lMax <= idx) ->
    decodeInteger_loop (encodeInteger_loop fuel i [] ++ suffix) idx m n prefix iMax lMax
    = Ok (suffix, prefix, n + i * 2 ^ m).
Proof.
  assert (Last : forall (i idx m n prefix iMax lMax : Z) (suffix : list byte),
             0 <= i < 128 -> 0 <= m < 63 -> 0 <= n -> n + i * 2 ^ m <= iMax ->
             iMax < 2 ^ 63 ->
             decodeInteger_loop ([byte_of_Z i] ++ suffix) idx m n prefix iMax lMax
             = Ok (suffix, prefix, n + i * 2 ^ m)).
  { intros i idx m n prefix iMax lMax suffix Hi Hm Hn Hmax HiMax.
    simpl app. cbn [decodeInteger_loop].
    assert (Hpow : 0 < 2 ^ m) by (apply Z.pow_pos_nonneg; lia).
    rewrite Z_of_byte_of_Z_small by lia.
    assert (E127 : Z.land i 127 = i).
    { change 127 with (Z.ones 7). rewrite Z.land_ones by lia.
      apply Z.mod_small. change (2 ^ 7) with 128. lia. }
    assert (E128 : (Z.land i (Z.shiftl 1 7) =? 0) = true).
    { apply Z.eqb_eq. apply Z.bits_inj'. intros j Hj.
      rewrite Z.land_spec, Z.bits_0.
      destruct (Z.eq_dec j 7) as [->|Hne].
      - rewrite (testbit_above i 7 7); [reflexivity| change (2^7) with 128; lia | lia].
      - rewrite Z.shiftl_1_l, Z.pow2_bits_false by lia. apply andb_false_r. }
    rewrite E127, E128.
    assert (Hm63 : (m <? 63) = true) by (apply Z.ltb_lt; lia).
    unfold pow2_int. rewrite Hm63.
    rewrite wrap64_small by nia.
    assert (Hgt : (n + i * 2 ^ m >? iMax) = false) by (rewrite Z.gtb_ltb; apply Z.ltb_ge; lia).
    now rewrite Hgt. }
  induction k as [|k IH]; intros fuel i idx m n prefix iMax lMax suffix
                                Hk Hi Hm Hmk Hn Hmax HiMax Hidx.
  - destruct fuel as [|fuel]; [lia|].
    change (128 ^ (Z.of_nat 0 + 1)) with 128 in Hi.
    simpl encodeInteger_loop.
    assert (Ei : (i >=? 128) = false) by (rewrite Z.geb_leb; apply Z.leb_gt; lia).
    rewrite Ei. apply Last; lia.
  - destruct fuel as [|fuel]; [lia|].
    simpl encodeInteger_loop.
    assert (Hpow : 0 < 2 ^ m) by (apply Z.pow_pos_nonneg; lia).
    destruct (i >=? 128) eqn:Ei.
    + apply Z.geb_le in Ei.
      rewrite encodeInteger_loop_app. simpl app.
      assert (Hq : Z.quot i 128 = i / 128) by (apply Z.quot_div_nonneg; lia).
      assert (Hr : Z.rem i 128 = i mod 128) by (apply Z.rem_mod_nonneg; lia).
      rewrite Hq, Hr.
      pose proof (Z.mod_pos_bound i 128 ltac:(lia)) as Hmod.
      pose proof (Z.div_mod i 128 ltac:(lia)) as Hdm.
      cbn [decodeInteger_loop].
      rewrite Z_of_byte_of_Z_small by lia.
      assert (E127 : Z.land (i mod 128 + 128) 127 = i mod 128).
      { change 127 with (Z.ones 7). rewrite Z.land_ones by lia.
        change (2 ^ 7) with 128.
        rewrite <- (Z.mod_unique (i mod 128 + 128) 128 1 (i mod 128)); lia. }
      assert (E128 : (Z.land (i mod 128 + 128) (Z.shiftl 1 7) =? 0) = false).
      { apply Z.eqb_neq. intros E.
        assert (T : Z.testbit (Z.land (i mod 128 + 128) (Z.shiftl 1 7)) 7 = false)
          by (rewrite E; apply Z.bits_0).
        rewrite Z.land_spec in T. change (Z.testbit (Z.shiftl 1 7) 7) with true in T.
        rewrite andb_true_r in T.
        assert (T' : Z.testbit (i mod 128 + 128) 7 = true).
        { apply Z.testbit_true; [lia|]. change (2 ^ 7) with 128.
          rewrite <- (Z.div_unique (i mod 128 + 128) 128 1 (i mod 128)) by lia.
          reflexivity. }
        congruence. }
      rewrite E127, E128.
      assert (Hm63 : (m <? 63) = true) by (apply Z.ltb_lt; lia).
      unfold pow2_int. rewrite Hm63.
      assert (Hdig : i mod 128 * 2 ^ m <= i * 2 ^ m) by nia.
      rewrite wrap64_small by nia.
      assert (Hidx' : (idx + 1 =? lMax) = false) by (apply Z.eqb_neq; lia).
      rewrite Hidx'.
      assert (Hi' : 0 <= i / 128 < 128 ^ (Z.of_nat k + 1)).
      { split; [apply Z.div_pos; lia|].
        apply Z.div_lt_upper_bound; [lia|].
        replace (128 * 128 ^ (Z.of_nat k + 1)) with (128 ^ (Z.of_nat (S k) + 1)); [lia|].
        rewrite Nat2Z.inj_succ. rewrite <- Z.pow_succ_r by lia. f_equal; lia. }
      assert (Hpow7 : 2 ^ (m + 7) = 2 ^ m * 128)
        by (rewrite Z.pow_add_r by lia; reflexivity).
      rewrite IH; try lia.
      f_equal. f_equal. rewrite Hpow7. nia.
    + assert (Hi128 : i < 128).
      { destruct (Z.lt_ge_cases i 128) as [|Hge]; [assumption|].
        apply Z.geb_le in Hge. congruence. }
      apply Last; lia.
Qed.

Lemma pow128 (k : Z) : 0 <= k -> 128 ^ k = 2 ^ (7 * k).
Proof.
  intros Hk. rewrite Z.pow_mul_r by lia. reflexivity.
Qed.

(** The number of base-128 digits of [i], less one: small enough for the
    fuel of [encodeInteger], and for any bound known on [i]. *)
Lemma digits_bound (i : Z) (k : nat) :
  0 <= i < 128 ^ (Z.of_nat k + 1) ->
  exists k' : nat,
    (k' <= k)%nat /\ (k' < S (Z.to_nat (Z.log2 i)))%nat /\ i < 128 ^ (Z.of_nat k' + 1).
Proof.
  intros Hi.
  exists (Z.to_nat (Z.log2 i / 7)).
  pose proof (Z.log2_nonneg i) as Hl.
  assert (Hq : 0 <= Z.log2 i / 7) by (apply Z.div_pos; lia).
  pose proof (Z.div_mod (Z.log2 i) 7 ltac:(lia)) as Hdm.
  pose proof (Z.mod_pos_bound (Z.log2 i) 7 ltac:(lia)) as Hmod.
  rewrite Z2Nat.id by lia.
  rewrite pow128 in Hi by lia. rewrite pow128 by lia.
  destruct (Z.eq_dec i 0) as [->|Hne].
  - change (Z.log2 0) with 0. change (0 / 7) with 0.
    repeat split; try lia.
  - assert (Hlog : Z.log2 i < 7 * (Z.of_nat k + 1)) by (apply Z.log2_lt_pow2; lia).
    repeat split.
    + apply Nat2Z.inj_le. rewrite Z2Nat.id by lia. lia.
    + apply Nat2Z.inj_lt. rewrite Z2Nat.id by lia.
      rewrite Nat2Z.inj_succ, Z2Nat.id by lia. lia.
    + destruct (Z.log2_spec i ltac:(lia)) as [_ Hup].
      apply Z.lt_le_trans with (2 ^ Z.succ (Z.log2 i)); [assumption|].
      apply Z.pow_le_mono_r; lia.
Qed.

(** Reading back an integer written with [encodeInteger], with flag bits
    or-ed into its first octet and any octets after it. *)
Lemma decodeInteger_encodeInteger (k : nat) (v N flag iMax lMax : Z) (suffix : list byte) :
  1 <= N <= 8 ->
  0 <= v <= iMax -> iMax < 2 ^ 63 ->
  v < 128 ^ (Z.of_nat k + 1) -> 7 * Z.of_nat k < 63 ->
  (Z.of_nat k + 2 <= lMax \/ lMax <= 1) ->
  0 <= flag < 256 -> Z.land flag (Z.ones N) = 0 ->
  exists enc,
    encodeInteger v N = Ok enc /\
    decodeInteger (orFirst flag enc ++ suffix) N iMax lMax = Ok (suffix, flag, v).
Proof.
  intros HN Hv HiMax Hvk Hk HlMax Hflag Hland.
  unfold encodeInteger, decodeInteger.
  assert (EN : (N <? 1) || (N >? 8) = false).
  { apply orb_false_iff. split; [apply Z.ltb_ge; lia|].
    rewrite Z.gtb_ltb. apply Z.ltb_ge; lia. }
  rewrite EN.
  rewrite mask_is_ones by lia.
  assert (Hones : Z.ones N = 2 ^ N - 1) by (rewrite Z.ones_equiv; lia).
  assert (HpN : 2 <= 2 ^ N <= 256).
  { split.
    - change 2 with (2 ^ 1) at 1. apply Z.pow_le_mono_r; lia.
    - change 256 with (2 ^ 8). apply Z.pow_le_mono_r; lia. }
  destruct (v <? 2 ^ N - 1) eqn:Ev.
  - apply Z.ltb_lt in Ev.
    eexists. split; [reflexivity|].
    cbn [orFirst app].
    rewrite (Z_of_byte_of_Z_small v) by lia.
    pose proof (lor_flag_range v flag N ltac:(lia) ltac:(lia) Hflag) as Hr.
    rewrite Z_of_byte_of_Z_small by lia.
    rewrite land_mask_lor, ldiff_lor_mask by lia.
    assert (E : negb (v =? Z.ones N) = true).
    { apply negb_true_iff, Z.eqb_neq. lia. }
    rewrite E. reflexivity.
  - apply Z.ltb_ge in Ev.
    eexists. split; [reflexivity|].
    rewrite encodeInteger_loop_app.
    cbn [orFirst app].
    rewrite <- Hones.
    pose proof (Z.ones_equiv N) as Ho.
    rewrite (Z_of_byte_of_Z_small (Z.ones N)) by lia.
    pose proof (lor_flag_range (Z.ones N) flag N ltac:(lia) ltac:(lia) Hflag) as Hr.
    rewrite Z_of_byte_of_Z_small by lia.
    rewrite land_mask_lor, ldiff_lor_mask by lia.
    rewrite Z.eqb_refl. cbn [negb].
    destruct (digits_bound (v - Z.ones N) k) as (k' & Hk'k & Hk'f & Hk'v).
    { assert (0 < 128 ^ (Z.of_nat k + 1)) by (apply Z.pow_pos_nonneg; lia). lia. }
    rewrite (decode_encode_loop k'); try lia.
    do 3 f_equal. change (2 ^ 0) with 1. lia.
Qed.

(** C2.  Integer round-trip: for every [v] in [0, integer_value_max] (the
    default limit, 2^32 - 1) and every prefix length [N] in [1, 8],
    [encodeInteger v N] returns octets that [decodeInteger], under the
    default limits of a decoder, reads back as [v], consuming the whole
    buffer (the remaining buffer is empty) and returning no error. *)
Theorem C2_integer_roundtrip (v N : Z) :
  0 <= v <= DefaultMaxIntegerValue ->
  1 <= N <= 8 ->
  exists enc,
    encodeInteger v N = Ok enc /\
    decodeInteger enc N DefaultMaxIntegerValue DefaultMaxIntegerEncodedLength
    = Ok ([], 0, v).
Proof.
  intros Hv HN.
  change DefaultMaxIntegerValue with (2 ^ 32 - 1) in *.
  destruct (decodeInteger_encodeInteger 4 v N 0 (2 ^ 32 - 1)
              DefaultMaxIntegerEncodedLength [])
    as (enc & Henc & Hdec); try lia.
  - left. reflexivity.
  - apply Z.land_0_l.
  - exists enc. split; [assumption|].
    rewrite app_nil_r in Hdec.
    replace (orFirst 0 enc) with enc in Hdec; [assumption|].
    destruct enc as [|b enc]; [reflexivity|].
    cbn [orFirst]. now rewrite Z.lor_0_r, byte_of_Z_of_byte.
Qed.

Lemma C2_integer_roundtrip_witness :
  exists enc,
    encodeInteger 1337 5 = Ok enc /\
    decodeInteger enc 5 DefaultMaxIntegerValue DefaultMaxIntegerEncodedLength
    = Ok ([], 0, 1337).
Proof.
  apply (C2_integer_roundtrip 1337 5); vm_compute; split; discriminate.
Defined.

(** ** Strings and searches *)

Lemma eqb_bytes_eq (a b : list byte) : eqb_bytes a b = true <-> a = b.
Proof.
  revert b. induction a as [|x a IH]; intros [|y b]; simpl; split; intros H;
    try reflexivity; try discriminate.
  - apply andb_true_iff in H. destruct H as [Hx Ha].
    apply Byte.byte_dec_bl in Hx. apply IH in Ha. now subst.
  - injection H as -> ->. apply andb_true_iff. split.
    + now apply Byte.byte_dec_lb.
    + now apply IH.
Qed.

Lemma eqb_bytes_refl (a : list byte) : eqb_bytes a a = true.
Proof. now apply eqb_bytes_eq. Qed.

Lemma eqb_bytes_neq (a b : list byte) : eqb_bytes a b = false <-> a <> b.
Proof.
  split.
  - intros H E. apply eqb_bytes_eq in E. congruence.
  - intros H. destruct (eqb_bytes a b) eqn:E; [|reflexivity].
    apply eqb_bytes_eq in E. contradiction.
Qed.

(** [find_index] returns the first position that the test accepts. *)
Lemma find_index_Some {A : Type} (p : A -> bool) (l : list A) (i j : Z) :
  find_index p l i = Some j ->
  exists (k : nat) (a : A),
    j = i + Z.of_nat k /\ nth_error l k = Some a /\ p a = true /\
    forall (k' : nat) (a' : A), (k' < k)%nat -> nth_error l k' = Some a' -> p a' = false.
Proof.
  revert i. induction l as [|x l IH]; intros i H; simpl in H; [discriminate|].
  destruct (p x) eqn:Px.
  - injection H as <-. exists 0%nat, x. repeat split; try assumption; try lia.
  - apply IH in H. destruct H as (k & a & Hj & Hn & Hp & Hmin).
    exists (S k), a. repeat split; try assumption; try lia.
    intros [|k'] a' Hk Hn'; simpl in Hn'.
    + now injection Hn' as <-.
    + apply (Hmin k'); [lia|assumption].
Qed.

Lemma find_index_None {A : Type} (p : A -> bool) (l : list A) (i : Z) :
  find_index p l i = None <-> forall a, In a l -> p a = false.
Proof.
  revert i. induction l as [|x l IH]; intros i; simpl.
  - split; [intros _ a []|reflexivity].
  - destruct (p x) eqn:Px.
    + split; [discriminate|]. intros H. rewrite (H x) in Px by now left. discriminate.
    + rewrite IH. split.
      * intros H a [<-|Ha]; [assumption|now apply H].
      * intros H a Ha. apply H. now right.
Qed.

Lemma find_index_first {A : Type} (p : A -> bool) (l : list A) (i : Z) (k : nat) (a : A) :
  nth_error l k = Some a -> p a = true ->
  (forall (k' : nat) (a' : A), (k' < k)%nat -> nth_error l k' = Some a' -> p a' = false) ->
  find_index p l i = Some (i + Z.of_nat k).
Proof.
  revert i k. induction l as [|x l IH]; intros i k Hn Hp Hmin.
  - destruct k; discriminate.
  - simpl. destruct k as [|k]; simpl in Hn.
    + injection Hn as ->. rewrite Hp. f_equal. lia.
    + rewrite (Hmin 0%nat x) by (simpl; (lia || reflexivity)).
      rewrite (IH (i + 1) k Hn Hp).
      * f_equal. lia.
      * intros k' a' Hk Hn'. apply (Hmin (S k') a'); [lia|exact Hn'].
Qed.

Lemma len_nonneg {A : Type} (l : list A) : 0 <= len l.
Proof. unfold len. lia. Qed.

Lemma len_app {A : Type} (l1 l2 : list A) : len (l1 ++ l2) = len l1 + len l2.
Proof. unfold len. rewrite length_app. lia. Qed.

Lemma len_static : len staticTable = 61.
Proof. reflexivity. Qed.

(** ** The encoder returns no error *)

Lemma encodeInteger_ok (v N : Z) :
  1 <= N <= 8 -> exists b bs, encodeInteger v N = Ok (b :: bs).
Proof.
  intros HN. unfold encodeInteger.
  assert (EN : (N <? 1) || (N >? 8) = false).
  { apply orb_false_iff. split; [apply Z.ltb_ge; lia|].
    rewrite Z.gtb_ltb. apply Z.ltb_ge; lia. }
  rewrite EN. destruct (v <? 2 ^ N - 1).
  - eexists _, _. reflexivity.
  - rewrite encodeInteger_loop_app. simpl. eexists _, _. reflexivity.
Qed.

Lemma encodeLiteralString_ok (s : list byte) (huffman : bool) :
  is_ok (encodeLiteralString s 7 huffman).
Proof.
  unfold encodeLiteralString.
  destruct (encodeInteger_ok (len (if huffman then HuffmanEncode s else s)) 7 ltac:(lia))
    as (b & bs & E).
  rewrite E. simpl. eexists. reflexivity.
Qed.

Lemma encodeHeaderField_ok (e : Encoder.t) (h : Header) (huffman addDynamicIndex : bool) :
  is_ok (snd (Encoder.encodeHeaderField e h huffman addDynamicIndex)).
Proof.
  unfold Encoder.encodeHeaderField.
  destruct (encodeInteger_ok (Encoder.dynamicTableSizeMax e) 5 ltac:(lia)) as (b5 & bs5 & E5).
  destruct (encodeLiteralString_ok (Name h) huffman) as (ln & En).
  destruct (encodeLiteralString_ok (Value h) huffman) as (lv & Ev).
  destruct (encodeInteger_ok 0 4 ltac:(lia)) as (b04 & bs04 & E04).
  destruct (encodeInteger_ok 0 6 ltac:(lia)) as (b06 & bs06 & E06).
  destruct (Encoder.pendingDynamicTableSizeUpdate e);
    [rewrite E5; cbn [bind]|];
    (destruct (Sensitive h);
     [ destruct (encodeInteger_ok (findStaticEntryInTable (Name h)) 4 ltac:(lia))
         as (b4 & bs4 & E4);
       destruct (negb (findStaticEntryInTable (Name h) =? -1));
       rewrite ?E4, ?E04; cbn [bind snd]; rewrite ?En; cbn [bind]; rewrite Ev;
       cbn [bind]; eexists; reflexivity
     | match goal with
       | |- context [Encoder.findHeaderInTable ?enc ?n ?v] =>
           destruct (Encoder.findHeaderInTable enc n v) as [index valueIndexed]
       end;
       destruct (encodeInteger_ok index 7 ltac:(lia)) as (b7 & bs7 & E7);
       destruct (encodeInteger_ok index 6 ltac:(lia)) as (b6 & bs6 & E6);
       destruct (negb (index =? -1) && valueIndexed);
       [ rewrite E7; cbn [bind snd]; eexists; reflexivity
       | destruct (index =? -1); rewrite ?E6, ?E06;
         destruct addDynamicIndex; cbn [bind snd]; rewrite ?En; cbn [bind];
         rewrite Ev; cbn [bind]; eexists; reflexivity ] ]).
Qed.

Lemma encode_loop_ok (hs : list Header) :
  forall (e : Encoder.t) (huffman : bool) (encoded : list byte),
    is_ok (snd (Encoder.encode_loop e hs huffman encoded)).
Proof.
  induction hs as [|h hs IH]; intros e huffman encoded; simpl.
  - eexists. reflexivity.
  - unfold Encoder.EncodeIndexed.
    destruct (encodeHeaderField_ok e h huffman true) as (enc & E).
    destruct (Encoder.encodeHeaderField e h huffman true) as [e' r].
    simpl in E. subst r. apply IH.
Qed.

(** C10.  The encoder never fails: for every encoder state, every header
    (any name, value and sensitive flag) and every setting of the huffman
    flag, [EncodeIndexed] and [EncodeNoDynamicIndexing] return octets and
    a nil error, and so does [Encode] (and [encode]) on every list of
    headers. *)
Theorem C10_encoder_never_fails :
  forall (e : Encoder.t) (h : Header) (hs : list Header) (huffman : bool),
    is_ok (snd (Encoder.EncodeIndexed e h huffman)) /\
    is_ok (snd (Encoder.EncodeNoDynamicIndexing e h huffman)) /\
    is_ok (snd (Encoder.Encode e hs)) /\
    is_ok (snd (Encoder.encode e hs huffman)).
Proof.
  intros e h hs huffman. repeat split.
  - apply encodeHeaderField_ok.
  - apply encodeHeaderField_ok.
  - apply encode_loop_ok.
  - apply encode_loop_ok.
Qed.

(** ** The size of the dynamic table *)

Lemma entrySize_pos (name value : list byte) : 32 <= entrySize name value.
Proof.
  unfold entrySize. pose proof (len_nonneg name). pose proof (len_nonneg value). lia.
Qed.

Lemma table_size_nonneg (table : list Header) : 0 <= table_size table.
Proof.
  induction table as [|h table IH]; simpl; [lia|].
  pose proof (entrySize_pos (Name h) (Value h)). lia.
Qed.

Lemma table_size_app (t1 t2 : list Header) :
  table_size (t1 ++ t2) = table_size t1 + table_size t2.
Proof.
  induction t1 as [|h t1 IH]; simpl; [reflexivity|]. rewrite IH. lia.
Qed.

Lemma table_size_rev (table : list Header) : table_size (rev table) = table_size table.
Proof.
  induction table as [|h table IH]; simpl; [reflexivity|].
  rewrite table_size_app, IH. simpl. lia.
Qed.

Lemma table_size_length (table : list Header) : 32 * len table <= table_size table.
Proof.
  unfold len. induction table as [|h table IH]; simpl List.length; simpl table_size; [lia|].
  pose proof (entrySize_pos (Name h) (Value h)). lia.
Qed.

(** What the eviction loop leaves: the tracked size is still the sum over
    the entries; if there is room, the additional size fits; if there is
    none, the table is empty. *)
Lemma evict_loop_spec (rtable : list Header) :
  forall (current additionalSize maxSize : Z),
    current = table_size rtable ->
    match evict_loop rtable current additionalSize maxSize with
    | (ok, rtable', current') =>
        current' = table_size rtable' /\
        current' <= current /\
        (ok = true -> current' + additionalSize <= maxSize) /\
        (ok = false -> rtable' = [] /\ maxSize < additionalSize)
    end.
Proof.
  induction rtable as [|h rtable IH]; intros current additionalSize maxSize Hc.
  - simpl. destruct (current + additionalSize >? maxSize) eqn:E.
    + apply Z.gtb_lt in E. simpl in Hc. subst current.
      repeat split; try lia; try discriminate.
    + rewrite Z.gtb_ltb in E. apply Z.ltb_ge in E.
      repeat split; try assumption; try lia; try discriminate.
  - cbn [evict_loop]. destruct (current + additionalSize >? maxSize) eqn:E.
    + simpl in Hc. unfold entrySize in Hc.
      specialize (IH (current - (32 + len (Name h) + len (Value h)))
                     additionalSize maxSize ltac:(lia)).
      destruct (evict_loop rtable _ additionalSize maxSize) as [[ok rtable'] current'].
      destruct IH as (H1 & H2 & H3 & H4).
      pose proof (len_nonneg (Name h)). pose proof (len_nonneg (Value h)).
      split; [assumption|]. split; [lia|]. split; assumption.
    + rewrite Z.gtb_ltb in E. apply Z.ltb_ge in E.
      repeat split; try assumption; try lia; try discriminate.
Qed.

(** Projections of the records, computed on a constructed record. *)
Ltac proj_simpl :=
  cbn [Encoder.dynamicTable Encoder.dynamicTableSizeMax Encoder.dynamicTableSizeCurrent
       Encoder.pendingDynamicTableSizeUpdate
       Decoder.dynamicTable Decoder.dynamicTableSizeMax Decoder.dynamicTableSizeCurrent
       Decoder.integerValueMax Decoder.integerEncodedLengthMax
       Decoder.stringLiteralLengthMax
       Name Value Sensitive table_size fst snd] in *.


Lemma enc_evictEntries_spec (e : Encoder.t) (additionalSize maxSize : Z) :
  Encoder.dynamicTableSizeCurrent e = table_size (Encoder.dynamicTable e) ->
  let (e', ok) := Encoder.evictEntries e additionalSize maxSize in
  Encoder.dynamicTableSizeCurrent e' = table_size (Encoder.dynamicTable e') /\
  Encoder.dynamicTableSizeMax e' = Encoder.dynamicTableSizeMax e /\
  Encoder.pendingDynamicTableSizeUpdate e' = Encoder.pendingDynamicTableSizeUpdate e /\
  (ok = true -> Encoder.dynamicTableSizeCurrent e' + additionalSize <= maxSize) /\
  (ok = false -> Encoder.dynamicTable e' = [] /\ maxSize < additionalSize).
Proof.
  intros Hc. unfold Encoder.evictEntries.
  pose proof (evict_loop_spec (rev (Encoder.dynamicTable e))
                (Encoder.dynamicTableSizeCurrent e) additionalSize maxSize) as H.
  rewrite table_size_rev in H. specialize (H Hc).
  destruct (evict_loop _ _ additionalSize maxSize) as [[ok rtable'] current'].
  destruct H as (H1 & H2 & H3 & H4). proj_simpl.
  rewrite table_size_rev.
  split; [assumption|]. do 2 (split; [reflexivity|]). split; [assumption|].
  intros Hok. destruct (H4 Hok) as [-> Hlt]. split; [reflexivity|assumption].
Qed.

Lemma dec_evictEntries_spec (d : Decoder.t) (additionalSize maxSize : Z) :
  Decoder.dynamicTableSizeCurrent d = table_size (Decoder.dynamicTable d) ->
  let (d', ok) := Decoder.evictEntries d additionalSize maxSize in
  Decoder.dynamicTableSizeCurrent d' = table_size (Decoder.dynamicTable d') /\
  Decoder.dynamicTableSizeMax d' = Decoder.dynamicTableSizeMax d /\
  Decoder.integerValueMax d' = Decoder.integerValueMax d /\
  Decoder.integerEncodedLengthMax d' = Decoder.integerEncodedLengthMax d /\
  Decoder.stringLiteralLengthMax d' = Decoder.stringLiteralLengthMax d /\
  (ok = true -> Decoder.dynamicTableSizeCurrent d' + additionalSize <= maxSize) /\
  (ok = false -> Decoder.dynamicTable d' = [] /\ maxSize < additionalSize).
Proof.
  intros Hc. unfold Decoder.evictEntries.
  pose proof (evict_loop_spec (rev (Decoder.dynamicTable d))
                (Decoder.dynamicTableSizeCurrent d) additionalSize maxSize) as H.
  rewrite table_size_rev in H. specialize (H Hc).
  destruct (evict_loop _ _ additionalSize maxSize) as [[ok rtable'] current'].
  destruct H as (H1 & H2 & H3 & H4). proj_simpl.
  rewrite table_size_rev.
  split; [assumption|]. do 4 (split; [reflexivity|]). split; [assumption|].
  intros Hok. destruct (H4 Hok) as [-> Hlt]. split; [reflexivity|assumption].
Qed.


Lemma enc_add_inv (e : Encoder.t) (name value : list byte) :
  enc_inv e -> enc_inv (Encoder.addNewDynamicEntry e name value).
Proof.
  intros [Hle Hc]. unfold enc_inv, size_inv, Encoder.addNewDynamicEntry.
  pose proof (enc_evictEntries_spec e (32 + len name + len value)
                (Encoder.dynamicTableSizeMax e) Hc) as H.
  destruct (Encoder.evictEntries e _ _) as [e' ok].
  destruct H as (H1 & H2 & H3 & H4 & H5).
  pose proof (table_size_nonneg (Encoder.dynamicTable e)).
  destruct ok; cbn [negb].
  - proj_simpl. unfold entrySize. specialize (H4 eq_refl). split; lia.
  - destruct (H5 eq_refl) as [Ht _]. rewrite H1, Ht, H2. proj_simpl. split; lia.
Qed.

Lemma dec_add_inv (d : Decoder.t) (name value : list byte) :
  dec_inv d -> dec_inv (Decoder.addNewDynamicEntry d name value).
Proof.
  intros [[Hle Hc] Hl]. unfold dec_inv, size_inv, Decoder.addNewDynamicEntry.
  pose proof (dec_evictEntries_spec d (32 + len name + len value)
                (Decoder.dynamicTableSizeMax d) Hc) as H.
  destruct (Decoder.evictEntries d _ _) as [d' ok].
  destruct H as (H1 & H2 & H3 & H4 & H5 & H6 & H7).
  pose proof (table_size_nonneg (Decoder.dynamicTable d)).
  destruct ok; cbn [negb].
  - proj_simpl. unfold entrySize. specialize (H6 eq_refl). repeat split; lia.
  - destruct (H7 eq_refl) as [Ht _]. rewrite H1, Ht, H2, H4. proj_simpl. repeat split; lia.
Qed.

Lemma enc_resize_inv (e : Encoder.t) (n : Z) :
  0 <= n -> enc_inv e -> enc_inv (Encoder.SetDynamicTableMaxSize e n).
Proof.
  intros Hn [Hle Hc]. unfold enc_inv, size_inv, Encoder.SetDynamicTableMaxSize.
  pose proof (enc_evictEntries_spec
                (Encoder.mk (Encoder.dynamicTable e) n (Encoder.dynamicTableSizeCurrent e)
                            (Encoder.pendingDynamicTableSizeUpdate e)) 0 n Hc) as H.
  destruct (Encoder.evictEntries _ 0 n) as [e' ok].
  destruct H as (H1 & H2 & H3 & H4 & H5). proj_simpl.
  split; [|assumption]. rewrite H2.
  destruct ok.
  - specialize (H4 eq_refl). lia.
  - destruct (H5 eq_refl) as [Ht _]. rewrite H1, Ht. proj_simpl. lia.
Qed.

Lemma dec_resize_inv (d : Decoder.t) (n : Z) :
  0 <= n -> dec_inv d -> dec_inv (Decoder.SetDynamicTableMaxSize d n).
Proof.
  intros Hn [[Hle Hc] Hl]. unfold dec_inv, size_inv, Decoder.SetDynamicTableMaxSize.
  pose proof (dec_evictEntries_spec
                (Decoder.mk (Decoder.dynamicTable d) n (Decoder.dynamicTableSizeCurrent d)
                            (Decoder.integerValueMax d) (Decoder.integerEncodedLengthMax d)
                            (Decoder.stringLiteralLengthMax d)) 0 n Hc) as H.
  destruct (Decoder.evictEntries _ 0 n) as [d' ok].
  destruct H as (H1 & H2 & H3 & H4 & H5 & H6 & H7). proj_simpl.
  rewrite H2, H4. repeat split; try assumption; try lia.
  destruct ok.
  - specialize (H6 eq_refl). lia.
  - destruct (H7 eq_refl) as [Ht _]. rewrite H1, Ht. proj_simpl. lia.
Qed.

(** An entry larger than the whole table empties it. *)
Lemma enc_add_oversized (e : Encoder.t) (name value : list byte) :
  enc_inv e -> entrySize name value > Encoder.dynamicTableSizeMax e ->
  Encoder.dynamicTable (Encoder.addNewDynamicEntry e name value) = [] /\
  Encoder.dynamicTableSizeCurrent (Encoder.addNewDynamicEntry e name value) = 0.
Proof.
  intros [Hle Hc] Hbig. unfold Encoder.addNewDynamicEntry.
  pose proof (enc_evictEntries_spec e (32 + len name + len value)
                (Encoder.dynamicTableSizeMax e) Hc) as H.
  destruct (Encoder.evictEntries e _ _) as [e' ok].
  destruct H as (H1 & H2 & H3 & H4 & H5).
  pose proof (table_size_nonneg (Encoder.dynamicTable e')).
  unfold entrySize in Hbig.
  destruct ok; cbn [negb].
  - specialize (H4 eq_refl). lia.
  - destruct (H5 eq_refl) as [Ht _]. rewrite H1, Ht. split; reflexivity.
Qed.

Lemma dec_add_oversized (d : Decoder.t) (name value : list byte) :
  dec_inv d -> entrySize name value > Decoder.dynamicTableSizeMax d ->
  Decoder.dynamicTable (Decoder.addNewDynamicEntry d name value) = [] /\
  Decoder.dynamicTableSizeCurrent (Decoder.addNewDynamicEntry d name value) = 0.
Proof.
  intros [[Hle Hc] _] Hbig. unfold Decoder.addNewDynamicEntry.
  pose proof (dec_evictEntries_spec d (32 + len name + len value)
                (Decoder.dynamicTableSizeMax d) Hc) as H.
  destruct (Decoder.evictEntries d _ _) as [d' ok].
  destruct H as (H1 & H2 & H3 & H4 & H5 & H6 & H7).
  pose proof (table_size_nonneg (Decoder.dynamicTable d')).
  unfold entrySize in Hbig.
  destruct ok; cbn [negb].
  - specialize (H6 eq_refl). lia.
  - destruct (H7 eq_refl) as [Ht _]. rewrite H1, Ht. split; reflexivity.
Qed.

(** ** Integers read under a sane length limit are not negative *)

Lemma land_127_range (b : Z) : 0 <= b -> 0 <= Z.land b 127 <= 127.
Proof.
  intros Hb.
  assert (E : Z.land b 127 = b mod 128) by (apply (Z.land_ones b 7); lia).
  rewrite E. pose proof (Z.mod_pos_bound b 128 ltac:(lia)). lia.
Qed.

Lemma decodeInteger_loop_nonneg (rest : list byte) :
  forall (idx m n prefix iMax lMax : Z) (r : list byte) (p v : Z),
    2 <= lMax <= 9 -> 1 <= idx < lMax -> m = 7 * (idx - 1) ->
    0 <= n < 2 ^ (m + 8) ->
    decodeInteger_loop rest idx m n prefix iMax lMax = Ok (r, p, v) ->
    0 <= v.
Proof.
  induction rest as [|b rest IH]; intros idx m n prefix iMax lMax r p v Hl Hidx Hm Hn H.
  - discriminate.
  - cbn [decodeInteger_loop] in H.
    pose proof (land_127_range (Z_of_byte b) (proj1 (Z_of_byte_range b))) as Hd.
    assert (Hm63 : (m <? 63) = true) by (apply Z.ltb_lt; lia).
    unfold pow2_int in H. rewrite Hm63 in H.
    assert (Hpow : 0 < 2 ^ m) by (apply Z.pow_pos_nonneg; lia).
    assert (Hp8 : 2 ^ (m + 8) = 2 ^ m * 256)
      by (rewrite Z.pow_add_r by lia; reflexivity).
    assert (Hp15 : 2 ^ (m + 7 + 8) = 2 ^ m * 32768)
      by (rewrite <- Z.add_assoc, Z.pow_add_r by lia; reflexivity).
    assert (Hm49 : 2 ^ m <= 2 ^ 49) by (apply Z.pow_le_mono_r; lia).
    assert (Hw : wrap64 (n + Z.land (Z_of_byte b) 127 * 2 ^ m)
                 = n + Z.land (Z_of_byte b) 127 * 2 ^ m).
    { apply wrap64_small. nia. }
    rewrite Hw in H.
    destruct (Z.land (Z_of_byte b) (Z.shiftl 1 7) =? 0).
    + destruct (_ >? iMax); [discriminate|].
      injection H as _ _ <-. nia.
    + destruct (idx + 1 =? lMax) eqn:E; [discriminate|].
      apply Z.eqb_neq in E.
      apply (IH _ _ _ _ _ _ _ _ _ Hl) in H; try assumption; try lia.
      rewrite Hp15. nia.
Qed.

Lemma decodeInteger_nonneg (buf : list byte) (N iMax lMax : Z) (r : list byte) (p v : Z) :
  2 <= lMax <= 9 ->
  decodeInteger buf N iMax lMax = Ok (r, p, v) -> 0 <= v.
Proof.
  intros Hl H. unfold decodeInteger in H.
  destruct ((N <? 1) || (N >? 8)) eqn:EN; [discriminate|].
  apply orb_false_iff in EN. destruct EN as [E1 E8].
  apply Z.ltb_ge in E1. rewrite Z.gtb_ltb in E8. apply Z.ltb_ge in E8.
  destruct buf as [|b0 rest]; [discriminate|].
  rewrite mask_is_ones in H by lia.
  assert (Hn : 0 <= Z.land (Z.ones N) (Z_of_byte b0) < 2 ^ (0 + 8)).
  { rewrite Z.land_comm, Z.land_ones by lia.
    pose proof (Z.mod_pos_bound (Z_of_byte b0) (2 ^ N) ltac:(apply Z.pow_pos_nonneg; lia)).
    assert (2 ^ N <= 2 ^ 8) by (apply Z.pow_le_mono_r; lia).
    change (2 ^ (0 + 8)) with (2 ^ 8). lia. }
  destruct (negb _).
  - injection H as _ _ <-. lia.
  - eapply decodeInteger_loop_nonneg in H; try eassumption; lia.
Qed.

(** ** The invariant through [Decode] and [encode] *)

Lemma dec_parseHeaderField_inv (d : Decoder.t) (buf : list byte) :
  dec_inv d -> dec_inv (fst (Decoder.parseHeaderField d buf)).
Proof.
  intros Hinv. unfold Decoder.parseHeaderField.
  destruct buf as [|b0 buf']; [exact Hinv|].
  destruct (_ =? headerFieldIndexed); [exact Hinv|].
  destruct (_ =? headerFieldLiteralIncrementalIndex).
  { unfold Decoder.parseHeaderFieldIncrementalIndex.
    destruct (bind _ _) as [[[rest name] value]| | |]; cbn [fst]; try exact Hinv.
    now apply dec_add_inv. }
  destruct (_ =? headerFieldDynamicSizeUpdate).
  { unfold Decoder.parseDynamicSizeUpdate.
    destruct (Decoder.DecodeInteger d (b0 :: buf') 5) as [[[consumed p] size]| | |] eqn:E;
      cbn [fst]; try exact Hinv.
    destruct (size >? Decoder.dynamicTableSizeMax d); cbn [fst]; [exact Hinv|].
    apply dec_resize_inv; [|exact Hinv].
    unfold Decoder.DecodeInteger in E.
    eapply decodeInteger_nonneg; [|exact E]. apply Hinv. }
  destruct (_ =? headerFieldLiteralNeverIndexed); [exact Hinv|].
  destruct (_ =? headerFieldLiteralNotIndexed); exact Hinv.
Qed.

Lemma dec_Decode_loop_inv (fuel : nat) :
  forall (d : Decoder.t) (buf : list byte) (headers : list Header),
    dec_inv d -> dec_inv (fst (Decoder.Decode_loop fuel d buf headers)).
Proof.
  induction fuel as [|fuel IH]; intros d buf headers Hinv; simpl; [exact Hinv|].
  destruct (len buf >? 0); [|exact Hinv].
  pose proof (dec_parseHeaderField_inv d buf Hinv) as H.
  destruct (Decoder.parseHeaderField d buf) as [d' [[buf' header]| | |]];
    cbn [fst] in *; try exact H.
  now apply IH.
Qed.

Lemma enc_encodeHeaderField_inv (e : Encoder.t) (h : Header) (huffman add : bool) :
  enc_inv e -> enc_inv (fst (Encoder.encodeHeaderField e h huffman add)).
Proof.
  intros Hinv. unfold Encoder.encodeHeaderField.
  assert (Hinv0 : enc_inv (Encoder.mk (Encoder.dynamicTable e)
                                      (Encoder.dynamicTableSizeMax e)
                                      (Encoder.dynamicTableSizeCurrent e) false))
    by exact Hinv.
  destruct (Encoder.pendingDynamicTableSizeUpdate e);
    [destruct (encodeInteger (Encoder.dynamicTableSizeMax e) 5) as [newSize| | |];
     cbn [bind fst]; try exact Hinv|];
    (destruct (Sensitive h); [assumption|];
     match goal with
     | |- context [Encoder.findHeaderInTable ?a ?b ?c] =>
         destruct (Encoder.findHeaderInTable a b c) as [index valueIndexed]
     end;
     destruct (negb (index =? -1) && valueIndexed); [assumption|];
     destruct (index =? -1);
     (match goal with
      | |- context [encodeInteger ?v 6] =>
          destruct (encodeInteger v 6) as [indexed| | |]
      end; cbn [fst]; try assumption;
      destruct add; cbn [fst]; [apply enc_add_inv|]; assumption)).
Qed.

Lemma enc_encode_loop_inv (hs : list Header) :
  forall (e : Encoder.t) (huffman : bool) (encoded : list byte),
    enc_inv e -> enc_inv (fst (Encoder.encode_loop e hs huffman encoded)).
Proof.
  induction hs as [|h hs IH]; intros e huffman encoded Hinv; simpl; [exact Hinv|].
  unfold Encoder.EncodeIndexed.
  pose proof (enc_encodeHeaderField_inv e h huffman true Hinv) as H.
  destruct (Encoder.encodeHeaderField e h huffman true) as [e' [enc| | |]];
    cbn [fst] in *; try exact H.
  now apply IH.
Qed.

Lemma enc_reachable_inv (e : Encoder.t) : enc_reachable e -> enc_inv e.
Proof.
  induction 1 as [m Hm|e name value _ IH|e n Hn _ IH|e h huffman add _ IH|e hs huffman _ IH].
  - split; [exact Hm|reflexivity].
  - now apply enc_add_inv.
  - now apply enc_resize_inv.
  - now apply enc_encodeHeaderField_inv.
  - now apply enc_encode_loop_inv.
Qed.

Lemma dec_reachable_inv (d : Decoder.t) : dec_reachable d -> dec_inv d.
Proof.
  induction 1 as [m Hm|d name value _ IH|d n Hn _ IH|d value _ IH|d length Hl _ IH
                 |d length _ IH|d block _ IH].
  - split; [split; [exact Hm|reflexivity]|].
    cbn. unfold DefaultMaxIntegerEncodedLength. lia.
  - now apply dec_add_inv.
  - now apply dec_resize_inv.
  - exact IH.
  - split; [exact (proj1 IH)|exact Hl].
  - exact IH.
  - now apply dec_Decode_loop_inv.
Qed.

(** C3 (as the code has it).  Dynamic-table size invariant: in every
    state that an encoder or a decoder created with a non-negative maximal
    size reaches through insertions ([addNewDynamicEntry]), resizes
    ([SetDynamicTableMaxSize]) to a non-negative size, changes of the
    limits of the decoder that keep the limit on the length of an encoded
    integer from 2 to 9 (it is 6 in a new decoder), [Decode] calls on any
    block and encoding calls, the tracked current size is at most the
    maximal size and equals the sum over the table entries of
    32 + len(name) + len(value); and inserting an entry whose own size
    exceeds the maximal size leaves the table empty with current size 0.
    The sizes are of type [int] and no function tests their sign. *)
Theorem C3_dynamic_table_size_invariant :
  (forall e : Encoder.t,
      enc_reachable e ->
      size_inv (Encoder.dynamicTable e) (Encoder.dynamicTableSizeMax e)
               (Encoder.dynamicTableSizeCurrent e)) /\
  (forall d : Decoder.t,
      dec_reachable d ->
      size_inv (Decoder.dynamicTable d) (Decoder.dynamicTableSizeMax d)
               (Decoder.dynamicTableSizeCurrent d)) /\
  (forall (e : Encoder.t) (name value : list byte),
      enc_reachable e ->
      entrySize name value > Encoder.dynamicTableSizeMax e ->
      Encoder.dynamicTable (Encoder.addNewDynamicEntry e name value) = [] /\
      Encoder.dynamicTableSizeCurrent (Encoder.addNewDynamicEntry e name value) = 0) /\
  (forall (d : Decoder.t) (name value : list byte),
      dec_reachable d ->
      entrySize name value > Decoder.dynamicTableSizeMax d ->
      Decoder.dynamicTable (Decoder.addNewDynamicEntry d name value) = [] /\
      Decoder.dynamicTableSizeCurrent (Decoder.addNewDynamicEntry d name value) = 0).
Proof.
  repeat split.
  - now apply enc_reachable_inv.
  - now apply enc_reachable_inv.
  - apply (dec_reachable_inv d); assumption.
  - apply (dec_reachable_inv d); assumption.
  - apply enc_add_oversized; [now apply enc_reachable_inv|assumption].
  - apply enc_add_oversized; [now apply enc_reachable_inv|assumption].
  - apply dec_add_oversized; [now apply dec_reachable_inv|assumption].
  - apply dec_add_oversized; [now apply dec_reachable_inv|assumption].
Qed.

(** The decoder of TestDynamicTableEntryBiggerThanTable, an encoder after
    a resize and an encoded block, and a decoder after a change of its
    limits and a block with a size update. *)
Lemma C3_dynamic_table_size_invariant_witness :
  size_inv
    (Encoder.dynamicTable
       (fst (Encoder.Encode (Encoder.SetDynamicTableMaxSize (Encoder.NewEncoder 68) 63)
               [mkHeader (str "b") (str "c") false])))
    (Encoder.dynamicTableSizeMax
       (fst (Encoder.Encode (Encoder.SetDynamicTableMaxSize (Encoder.NewEncoder 68) 63)
               [mkHeader (str "b") (str "c") false])))
    (Encoder.dynamicTableSizeCurrent
       (fst (Encoder.Encode (Encoder.SetDynamicTableMaxSize (Encoder.NewEncoder 68) 63)
               [mkHeader (str "b") (str "c") false]))) /\
  size_inv
    (Decoder.dynamicTable
       (fst (Decoder.Decode
               (Decoder.SetMaxIntegerEncodedLength (Decoder.NewDecoder 256) 9)
               [byte_of_Z 63; byte_of_Z 69])))
    (Decoder.dynamicTableSizeMax
       (fst (Decoder.Decode
               (Decoder.SetMaxIntegerEncodedLength (Decoder.NewDecoder 256) 9)
               [byte_of_Z 63; byte_of_Z 69])))
    (Decoder.dynamicTableSizeCurrent
       (fst (Decoder.Decode
               (Decoder.SetMaxIntegerEncodedLength (Decoder.NewDecoder 256) 9)
               [byte_of_Z 63; byte_of_Z 69]))) /\
  Decoder.dynamicTable
    (Decoder.addNewDynamicEntry
       (Decoder.addNewDynamicEntry (Decoder.NewDecoder 44) (str "a") (str "b"))
       (str "aafadslkjasfdkljasfkdjlajklsfdfajklsfdjkladsfjklasjklfdf")
       (str "adfsljasfdkjlsdalkfajklsdfjkalsfdjalsdfjalksdfjaldskfjlsjk")) = [].
Proof.
  destruct C3_dynamic_table_size_invariant as (He & Hs & _ & Hd).
  split; [|split].
  - apply He. apply er_encode. apply er_resize; [lia|]. apply er_new. lia.
  - apply Hs. apply dr_decode. apply dr_max_integer_encoded_length; [lia|].
    apply dr_new. lia.
  - apply Hd.
    + apply dr_add. apply dr_new. lia.
    + vm_compute. reflexivity.
Defined.

(** The claim fails without these conditions.  A resize to a negative
    size empties the table and leaves the maximal size below the current
    size 0, for the decoder and for the encoder.  With the limit on the
    length of an encoded integer at 10 (or at 1, which the loop of
    [decodeInteger] never meets), the integer of the size update
    3f ff ff ff ff ff ff ff ff 7f leaves the range of [int] and comes out
    negative: [Decode] returns no error and the maximal size is negative. *)
Lemma C3_counterexample :
  (Decoder.dynamicTableSizeMax
     (Decoder.SetDynamicTableMaxSize (Decoder.NewDecoder 4096) (-1)) = -1 /\
   Decoder.dynamicTableSizeCurrent
     (Decoder.SetDynamicTableMaxSize (Decoder.NewDecoder 4096) (-1)) = 0) /\
  (Encoder.dynamicTableSizeMax
     (Encoder.SetDynamicTableMaxSize
        (Encoder.addNewDynamicEntry (Encoder.NewEncoder 4096) (str "a") (str "b")) (-1))
   = -1 /\
   Encoder.dynamicTableSizeCurrent
     (Encoder.SetDynamicTableMaxSize
        (Encoder.addNewDynamicEntry (Encoder.NewEncoder 4096) (str "a") (str "b")) (-1))
   = 0) /\
  (snd (Decoder.Decode (Decoder.SetMaxIntegerEncodedLength (Decoder.NewDecoder 4096) 10)
          (byte_of_Z 63 :: repeat (byte_of_Z 255) 8 ++ [byte_of_Z 127]))
   = Ok [] /\
   Decoder.dynamicTableSizeMax
     (fst (Decoder.Decode (Decoder.SetMaxIntegerEncodedLength (Decoder.NewDecoder 4096) 10)
             (byte_of_Z 63 :: repeat (byte_of_Z 255) 8 ++ [byte_of_Z 127])))
   = -9223372036854775778 /\
   Decoder.dynamicTableSizeCurrent
     (fst (Decoder.Decode (Decoder.SetMaxIntegerEncodedLength (Decoder.NewDecoder 4096) 10)
             (byte_of_Z 63 :: repeat (byte_of_Z 255) 8 ++ [byte_of_Z 127])))
   = 0) /\
  (snd (Decoder.Decode (Decoder.SetMaxIntegerEncodedLength (Decoder.NewDecoder 4096) 1)
          (byte_of_Z 63 :: repeat (byte_of_Z 255) 8 ++ [byte_of_Z 127]))
   = Ok [] /\
   Decoder.dynamicTableSizeMax
     (fst (Decoder.Decode (Decoder.SetMaxIntegerEncodedLength (Decoder.NewDecoder 4096) 1)
             (byte_of_Z 63 :: repeat (byte_of_Z 255) 8 ++ [byte_of_Z 127])))
   = -9223372036854775778 /\
   Decoder.dynamicTableSizeCurrent
     (fst (Decoder.Decode (Decoder.SetMaxIntegerEncodedLength (Decoder.NewDecoder 4096) 1)
             (byte_of_Z 63 :: repeat (byte_of_Z 255) 8 ++ [byte_of_Z 127])))
   = 0) /\
  ~ (forall d : Decoder.t,
        size_inv (Decoder.dynamicTable d) (Decoder.dynamicTableSizeMax d)
                 (Decoder.dynamicTableSizeCurrent d) ->
        forall n : Z,
          size_inv (Decoder.dynamicTable (Decoder.SetDynamicTableMaxSize d n))
                   (Decoder.dynamicTableSizeMax (Decoder.SetDynamicTableMaxSize d n))
                   (Decoder.dynamicTableSizeCurrent (Decoder.SetDynamicTableMaxSize d n))).
Proof.
  split; [split; vm_compute; reflexivity|].
  split; [split; vm_compute; reflexivity|].
  split; [repeat split; vm_compute; reflexivity|].
  split; [repeat split; vm_compute; reflexivity|].
  intros H.
  specialize (H (Decoder.NewDecoder 4096) ltac:(split; vm_compute; [discriminate|reflexivity])
                (-1)).
  destruct H as [Hle _]. vm_compute in Hle. apply Hle. reflexivity.
Qed.

(** ** The first octet of a representation *)

Lemma Z_range_forallb (P : Z -> bool) (n : nat) :
  forallb (fun k => P (Z.of_nat k)) (seq 0 n) = true ->
  forall x, 0 <= x < Z.of_nat n -> P x = true.
Proof.
  intros H x Hx. rewrite forallb_forall in H.
  specialize (H (Z.to_nat x)). rewrite Z2Nat.id in H by lia.
  apply H. apply in_seq. lia.
Qed.

Lemma first_indexed (x : Z) :
  0 <= x < 128 ->
  (Z.land (Z.lor x headerFieldIndexed) headerFieldIndexed =? headerFieldIndexed) = true.
Proof.
  apply (Z_range_forallb
           (fun x => Z.land (Z.lor x headerFieldIndexed) headerFieldIndexed
                     =? headerFieldIndexed) 128).
  vm_compute. reflexivity.
Qed.

Lemma first_incremental (x : Z) :
  0 <= x < 64 ->
  (Z.land (Z.lor x headerFieldLiteralIncrementalIndex) headerFieldIndexed
   =? headerFieldIndexed) = false /\
  (Z.land (Z.lor x headerFieldLiteralIncrementalIndex) headerFieldLiteralIncrementalIndex
   =? headerFieldLiteralIncrementalIndex) = true.
Proof.
  intros Hx.
  cut ((fun x => negb (Z.land (Z.lor x headerFieldLiteralIncrementalIndex)
                              headerFieldIndexed =? headerFieldIndexed)
                 && (Z.land (Z.lor x headerFieldLiteralIncrementalIndex)
                            headerFieldLiteralIncrementalIndex
                     =? headerFieldLiteralIncrementalIndex)) x = true).
  { cbv beta. rewrite !andb_true_iff, !negb_true_iff. tauto. }
  revert x Hx. apply (Z_range_forallb _ 64). vm_compute. reflexivity.
Qed.

Lemma first_size_update (x : Z) :
  0 <= x < 32 ->
  (Z.land (Z.lor x headerFieldDynamicSizeUpdate) headerFieldIndexed
   =? headerFieldIndexed) = false /\
  (Z.land (Z.lor x headerFieldDynamicSizeUpdate) headerFieldLiteralIncrementalIndex
   =? headerFieldLiteralIncrementalIndex) = false /\
  (Z.land (Z.lor x headerFieldDynamicSizeUpdate) headerFieldDynamicSizeUpdate
   =? headerFieldDynamicSizeUpdate) = true.
Proof.
  intros Hx.
  cut ((fun x =>
          negb (Z.land (Z.lor x headerFieldDynamicSizeUpdate) headerFieldIndexed
                =? headerFieldIndexed)
          && (negb (Z.land (Z.lor x headerFieldDynamicSizeUpdate)
                           headerFieldLiteralIncrementalIndex
                    =? headerFieldLiteralIncrementalIndex)
              && (Z.land (Z.lor x headerFieldDynamicSizeUpdate)
                         headerFieldDynamicSizeUpdate
                  =? headerFieldDynamicSizeUpdate))) x = true).
  { cbv beta. rewrite !andb_true_iff, !negb_true_iff. tauto. }
  revert x Hx. apply (Z_range_forallb _ 32). vm_compute. reflexivity.
Qed.

Lemma first_literal (x flag : Z) :
  0 <= x < 16 ->
  flag = headerFieldLiteralNeverIndexed \/ flag = headerFieldLiteralNotIndexed ->
  (Z.land (Z.lor x flag) headerFieldIndexed =? headerFieldIndexed) = false /\
  (Z.land (Z.lor x flag) headerFieldLiteralIncrementalIndex
   =? headerFieldLiteralIncrementalIndex) = false /\
  (Z.land (Z.lor x flag) headerFieldDynamicSizeUpdate
   =? headerFieldDynamicSizeUpdate) = false /\
  (Z.land (Z.lor x flag) headerFieldLiteralNeverIndexed
   =? headerFieldLiteralNeverIndexed) = (flag =? headerFieldLiteralNeverIndexed) /\
  (Z.land (Z.lor x flag) headerFieldLiteralNotIndexed
   =? headerFieldLiteralNotIndexed) = true.
Proof.
  intros Hx Hflag.
  cut ((fun x =>
          negb (Z.land (Z.lor x flag) headerFieldIndexed =? headerFieldIndexed)
          && (negb (Z.land (Z.lor x flag) headerFieldLiteralIncrementalIndex
                    =? headerFieldLiteralIncrementalIndex)
          && (negb (Z.land (Z.lor x flag) headerFieldDynamicSizeUpdate
                    =? headerFieldDynamicSizeUpdate)
          && (Bool.eqb (Z.land (Z.lor x flag) headerFieldLiteralNeverIndexed
                        =? headerFieldLiteralNeverIndexed)
                       (flag =? headerFieldLiteralNeverIndexed)
          && (Z.land (Z.lor x flag) headerFieldLiteralNotIndexed
              =? headerFieldLiteralNotIndexed))))) x = true).
  { cbv beta. rewrite !andb_true_iff, !negb_true_iff, Bool.eqb_true_iff. tauto. }
  revert x Hx. apply (Z_range_forallb _ 16).
  destruct Hflag as [-> | ->]; vm_compute; reflexivity.
Qed.

(** The first octet written by [encodeInteger] fits in the prefix. *)
Lemma encodeInteger_first (v N : Z) :
  1 <= N <= 8 -> 0 <= v ->
  exists (b : byte) (bs : list byte),
    encodeInteger v N = Ok (b :: bs) /\ 0 <= Z_of_byte b < 2 ^ N.
Proof.
  intros HN Hv. unfold encodeInteger.
  assert (EN : (N <? 1) || (N >? 8) = false).
  { apply orb_false_iff. split; [apply Z.ltb_ge; lia|].
    rewrite Z.gtb_ltb. apply Z.ltb_ge; lia. }
  rewrite EN.
  assert (HpN : 2 <= 2 ^ N <= 256).
  { split.
    - change 2 with (2 ^ 1) at 1. apply Z.pow_le_mono_r; lia.
    - change 256 with (2 ^ 8). apply Z.pow_le_mono_r; lia. }
  destruct (v <? 2 ^ N - 1) eqn:Ev.
  - apply Z.ltb_lt in Ev. eexists _, _. split; [reflexivity|].
    rewrite Z_of_byte_of_Z_small; lia.
  - rewrite encodeInteger_loop_app. cbn [app]. eexists _, _. split; [reflexivity|].
    rewrite Z_of_byte_of_Z_small; lia.
Qed.

Lemma pow2_le (N M : Z) : 0 <= N <= M -> 2 ^ N <= 2 ^ M.
Proof. intros H. apply Z.pow_le_mono_r; lia. Qed.

(** ** C7: index 0 *)

(** C7 (code defect).  An indexed representation with index 0 (the octet
    0x80) makes [Decode] panic, in every decoder state: the index passes
    the only test of [getIndexedNameValue] and is used for
    [staticTable[index-1]].  The claim asks for an InvalidIndex error
    value. *)
Theorem C7_index_zero_panics :
  forall d : Decoder.t,
    Decoder.Decode d [byte_of_Z 128] = (d, Panic PanicIndexOutOfRange).
Proof.
  intros d. reflexivity.
Qed.

(** What the claim says of the other indices does hold: an index beyond
    the joint table is an error value, and an index within it resolves
    to the entry. *)
Lemma getIndexedNameValue_in_range (d : Decoder.t) (index : Z) :
  (len staticTable + len (Decoder.dynamicTable d) < index ->
   Decoder.getIndexedNameValue d index = Err (ErrIndexNotFound index)) /\
  (1 <= index <= len staticTable ->
   exists nv, nth_error staticTable (Z.to_nat (index - 1)) = Some nv /\
              Decoder.getIndexedNameValue d index = Ok (fst nv, snd nv)) /\
  (len staticTable < index <= len staticTable + len (Decoder.dynamicTable d) ->
   exists h, nth_error (Decoder.dynamicTable d) (Z.to_nat (index - len staticTable - 1))
             = Some h /\
             Decoder.getIndexedNameValue d index = Ok (Name h, Value h)).
Proof.
  unfold Decoder.getIndexedNameValue, index_at.
  pose proof (len_nonneg (Decoder.dynamicTable d)) as Hd.
  rewrite len_static. repeat split.
  - intros H.
    assert (E : (index >? 61) = true) by (rewrite Z.gtb_ltb; apply Z.ltb_lt; lia).
    rewrite E.
    assert (E' : (index - 61 >? len (Decoder.dynamicTable d)) = true)
      by (rewrite Z.gtb_ltb; apply Z.ltb_lt; lia).
    now rewrite E'.
  - intros H.
    assert (E : (index >? 61) = false) by (rewrite Z.gtb_ltb; apply Z.ltb_ge; lia).
    rewrite E.
    assert (E' : (index - 1 <? 0) = false) by (apply Z.ltb_ge; lia).
    rewrite E'.
    destruct (nth_error staticTable (Z.to_nat (index - 1))) as [nv|] eqn:En.
    + exists nv. split; reflexivity.
    + apply nth_error_None in En. change (List.length staticTable) with 61%nat in En. lia.
  - intros H.
    assert (E : (index >? 61) = true) by (rewrite Z.gtb_ltb; apply Z.ltb_lt; lia).
    rewrite E.
    assert (E' : (index - 61 >? len (Decoder.dynamicTable d)) = false)
      by (rewrite Z.gtb_ltb; apply Z.ltb_ge; lia).
    rewrite E'.
    assert (E'' : (index - 61 - 1 <? 0) = false) by (apply Z.ltb_ge; lia).
    rewrite E''.
    destruct (nth_error (Decoder.dynamicTable d) (Z.to_nat (index - 61 - 1)))
      as [h|] eqn:En.
    + exists h. split; reflexivity.
    + apply nth_error_None in En. unfold len in H. lia.
Qed.

(** ** Reading what the encoder wrote, one piece at a time *)

Lemma DecodeInteger_encoded (d : Decoder.t) (v N flag : Z) (suffix : list byte) :
  default_limits d ->
  1 <= N <= 8 -> 0 <= v <= 2 ^ 32 - 1 ->
  0 <= flag < 256 -> Z.land flag (Z.ones N) = 0 ->
  exists (b : byte) (bs : list byte),
    encodeInteger v N = Ok (b :: bs) /\
    0 <= Z_of_byte b < 2 ^ N /\
    Z_of_byte (byte_of_Z (Z.lor (Z_of_byte b) flag)) = Z.lor (Z_of_byte b) flag /\
    Decoder.DecodeInteger d (orFirst flag (b :: bs) ++ suffix) N = Ok (suffix, flag, v).
Proof.
  intros (HiMax & HlMax & _) HN Hv Hflag Hland.
  destruct (encodeInteger_first v N HN ltac:(lia)) as (b & bs & Henc & Hb).
  exists b, bs. split; [assumption|]. split; [assumption|]. split.
  - apply Z_of_byte_of_Z_small. apply (lor_flag_range _ _ N); lia.
  - unfold Decoder.DecodeInteger. rewrite HiMax, HlMax.
    destruct (decodeInteger_encodeInteger 4 v N flag DefaultMaxIntegerValue
                DefaultMaxIntegerEncodedLength suffix) as (enc & Henc' & Hdec);
      try assumption;
      try (change DefaultMaxIntegerValue with (2 ^ 32 - 1); lia).
    + left. reflexivity.
    + rewrite Henc in Henc'. injection Henc' as <-. exact Hdec.
Qed.

Lemma dec_resize_max (d : Decoder.t) (n : Z) :
  Decoder.dynamicTableSizeMax (Decoder.SetDynamicTableMaxSize d n) = n /\
  Decoder.integerValueMax (Decoder.SetDynamicTableMaxSize d n) = Decoder.integerValueMax d /\
  Decoder.integerEncodedLengthMax (Decoder.SetDynamicTableMaxSize d n)
  = Decoder.integerEncodedLengthMax d /\
  Decoder.stringLiteralLengthMax (Decoder.SetDynamicTableMaxSize d n)
  = Decoder.stringLiteralLengthMax d.
Proof.
  unfold Decoder.SetDynamicTableMaxSize, Decoder.evictEntries.
  destruct (evict_loop _ _ 0 n) as [[ok rtable] current]. cbn. repeat split.
Qed.

(** ** C4: the cap on a size update *)

(** C4 (as the code has it).  When the decoder parses a dynamic-table
    size update whose integer decodes to [size], it fails exactly when
    [size] is greater than the decoder's current [dynamicTableSizeMax]:
    the value passed to the constructor only until a size update or
    [SetDynamicTableMaxSize] replaces it.  Otherwise it succeeds, sets the
    maximal size to [size] and evicts: the current size is then at most
    [size] (for a table whose tracked size is the sum over its entries). *)
Theorem C4_size_update_cap (d : Decoder.t) (buf consumed : list byte) (p size : Z) :
  Decoder.DecodeInteger d buf 5 = Ok (consumed, p, size) ->
  (size > Decoder.dynamicTableSizeMax d ->
   Decoder.parseDynamicSizeUpdate d buf
   = (d, Err (ErrResizeTooLarge size (Decoder.dynamicTableSizeCurrent d)))) /\
  (size <= Decoder.dynamicTableSizeMax d ->
   Decoder.parseDynamicSizeUpdate d buf
   = (Decoder.SetDynamicTableMaxSize d size, Ok consumed) /\
   Decoder.dynamicTableSizeMax (Decoder.SetDynamicTableMaxSize d size) = size /\
   (0 <= size ->
    Decoder.dynamicTableSizeCurrent d = table_size (Decoder.dynamicTable d) ->
    Decoder.dynamicTableSizeCurrent (Decoder.SetDynamicTableMaxSize d size) <= size)).
Proof.
  intros Hdec. unfold Decoder.parseDynamicSizeUpdate. rewrite Hdec. split.
  - intros Hgt.
    assert (E : (size >? Decoder.dynamicTableSizeMax d) = true)
      by (rewrite Z.gtb_ltb; apply Z.ltb_lt; lia).
    now rewrite E.
  - intros Hle.
    assert (E : (size >? Decoder.dynamicTableSizeMax d) = false)
      by (rewrite Z.gtb_ltb; apply Z.ltb_ge; lia).
    rewrite E. split; [reflexivity|]. split; [apply dec_resize_max|].
    intros Hsize Hc.
    assert (Hinv : dec_inv (Decoder.mk (Decoder.dynamicTable d)
                              (Decoder.dynamicTableSizeCurrent d)
                              (Decoder.dynamicTableSizeCurrent d)
                              (Decoder.integerValueMax d) 6
                              (Decoder.stringLiteralLengthMax d))).
    { split; [split; [cbn; lia|exact Hc]|cbn; lia]. }
    apply (dec_resize_inv _ size Hsize) in Hinv.
    destruct Hinv as [[Hle' _] _].
    unfold Decoder.SetDynamicTableMaxSize, Decoder.evictEntries in *.
    cbn [Decoder.dynamicTable Decoder.dynamicTableSizeCurrent
         Decoder.dynamicTableSizeMax] in *.
    destruct (evict_loop _ _ 0 size) as [[ok rtable] current]. cbn in *. exact Hle'.
Qed.

Lemma C4_size_update_cap_witness :
  Decoder.parseDynamicSizeUpdate (Decoder.NewDecoder 256) [byte_of_Z 63; byte_of_Z 69]
  = (Decoder.SetDynamicTableMaxSize (Decoder.NewDecoder 256) 100, Ok []).
Proof.
  apply (C4_size_update_cap (Decoder.NewDecoder 256) [byte_of_Z 63; byte_of_Z 69] [] 32 100).
  - reflexivity.
  - vm_compute. discriminate.
Defined.

(** The claim, with the value passed to the constructor as the cap, fails:
    a decoder created with 256 accepts the size update 0, and then
    refuses the size update 100 (the octets 0x3f 0x45), although 100 is
    at most 256. *)
Lemma C4_counterexample :
  Decoder.dynamicTableSizeMax (Decoder.NewDecoder 256) = 256 /\
  snd (Decoder.Decode (Decoder.NewDecoder 256) [byte_of_Z 32]) = Ok [] /\
  snd (Decoder.Decode (fst (Decoder.Decode (Decoder.NewDecoder 256) [byte_of_Z 32]))
                      [byte_of_Z 63; byte_of_Z 69])
  = Err (ErrResizeTooLarge 100 0).
Proof.
  repeat split.
Qed.

(** ** C6: truncated input *)

Lemma decodeInteger_loop_truncated (conts : list byte) :
  forall (idx m n prefix iMax lMax : Z),
    Forall (fun b => Z.land (Z_of_byte b) 128 <> 0) conts ->
    idx + len conts < lMax \/ lMax <= idx ->
    decodeInteger_loop conts idx m n prefix iMax lMax = Panic PanicRanOutOfData.
Proof.
  induction conts as [|b conts IH]; intros idx m n prefix iMax lMax Hall Hidx.
  - reflexivity.
  - cbn [decodeInteger_loop]. inversion Hall as [|? ? Hb Hall']; subst.
    change (Z.shiftl 1 7) with 128.
    assert (E : (Z.land (Z_of_byte b) 128 =? 0) = false) by now apply Z.eqb_neq.
    rewrite E.
    assert (Hlen : len (b :: conts) = 1 + len conts)
      by (unfold len; cbn [List.length]; lia).
    pose proof (len_nonneg conts).
    assert (E' : (idx + 1 =? lMax) = false) by (apply Z.eqb_neq; lia).
    rewrite E'. apply IH; [assumption|lia].
Qed.

(** C6 (as the code has it).  [decodeInteger] does not return an error
    for a truncated integer, it panics: on an empty buffer, and when the
    prefix is all ones and every octet after it, to the end of the
    buffer, has its high bit set (the buffer being shorter than the limit
    on the encoded length, which otherwise gives
    ErrIntegerEncodedLengthTooLong first).  A string literal with the
    Huffman flag whose declared length exceeds the octets that remain
    returns an error value. *)
Theorem C6_truncation (d : Decoder.t) (b0 : byte) (conts : list byte) (N iMax lMax : Z)
        (buf rest : list byte) (p length : Z) :
  1 <= N <= 8 ->
  Z.land (Z.shiftl 1 N - 1) (Z_of_byte b0) = Z.shiftl 1 N - 1 ->
  Forall (fun b => Z.land (Z_of_byte b) 128 <> 0) conts ->
  1 + len conts < lMax \/ lMax <= 1 ->
  Decoder.DecodeInteger d buf 7 = Ok (rest, p, length) ->
  length <= Decoder.stringLiteralLengthMax d ->
  Z.land p huffmanEncoded = huffmanEncoded ->
  len rest < length ->
  decodeInteger [] N iMax lMax = Panic PanicIndexOutOfRange /\
  decodeInteger (b0 :: conts) N iMax lMax = Panic PanicRanOutOfData /\
  Decoder.readPrefixedLengthString d buf 7 = Err ErrHuffmanRanOutOfData.
Proof.
  intros HN Hmask Hall Hlen Hdec Hmax Hflag Hshort.
  assert (EN : (N <? 1) || (N >? 8) = false).
  { apply orb_false_iff. split; [apply Z.ltb_ge; lia|].
    rewrite Z.gtb_ltb. apply Z.ltb_ge; lia. }
  repeat split.
  - unfold decodeInteger. now rewrite EN.
  - unfold decodeInteger. rewrite EN, Hmask, Z.eqb_refl. cbn [negb].
    now apply decodeInteger_loop_truncated.
  - unfold Decoder.readPrefixedLengthString. rewrite Hdec. cbn [bind].
    assert (E1 : (length >? Decoder.stringLiteralLengthMax d) = false)
      by (rewrite Z.gtb_ltb; apply Z.ltb_ge; lia).
    rewrite E1, Hflag, Z.eqb_refl.
    assert (E2 : (len rest <? length) = true) by (apply Z.ltb_lt; lia).
    now rewrite E2.
Qed.

Lemma C6_truncation_witness :
  decodeInteger [] 5 DefaultMaxIntegerValue DefaultMaxIntegerEncodedLength
  = Panic PanicIndexOutOfRange /\
  decodeInteger [byte_of_Z 31; byte_of_Z 154] 5
                DefaultMaxIntegerValue DefaultMaxIntegerEncodedLength
  = Panic PanicRanOutOfData /\
  Decoder.readPrefixedLengthString (Decoder.NewDecoder 256)
                                   [byte_of_Z 134; byte_of_Z 168; byte_of_Z 235] 7
  = Err ErrHuffmanRanOutOfData.
Proof.
  apply (C6_truncation (Decoder.NewDecoder 256) (byte_of_Z 31) [byte_of_Z 154] 5
                       DefaultMaxIntegerValue DefaultMaxIntegerEncodedLength
                       [byte_of_Z 134; byte_of_Z 168; byte_of_Z 235]
                       [byte_of_Z 168; byte_of_Z 235] 128 6).
  - lia.
  - reflexivity.
  - repeat constructor; vm_compute; discriminate.
  - left. vm_compute. reflexivity.
  - reflexivity.
  - vm_compute. discriminate.
  - reflexivity.
  - vm_compute. reflexivity.
Defined.

(** The claim fails: the integer 0x1f with the 5-bit prefix announces
    further octets, and at the end of the buffer [decodeInteger] panics
    instead of returning an error. *)
Lemma C6_counterexample :
  decodeInteger [byte_of_Z 31] 5 DefaultMaxIntegerValue DefaultMaxIntegerEncodedLength
  = Panic PanicRanOutOfData /\
  snd (Decoder.Decode (Decoder.NewDecoder 256) [byte_of_Z 31])
  = Panic PanicRanOutOfData.
Proof.
  split; reflexivity.
Qed.

(** ** [Decode] never runs out of fuel *)

Lemma decodeInteger_loop_shrinks (rest : list byte) :
  forall (idx m n prefix iMax lMax : Z) (r : list byte) (p v : Z),
    decodeInteger_loop rest idx m n prefix iMax lMax = Ok (r, p, v) ->
    (List.length r < List.length rest)%nat.
Proof.
  induction rest as [|b rest IH]; intros idx m n prefix iMax lMax r p v H.
  - discriminate.
  - cbn [decodeInteger_loop] in H. cbn [List.length].
    destruct (Z.land (Z_of_byte b) (Z.shiftl 1 7) =? 0).
    + destruct (_ >? iMax); [discriminate|]. injection H as <- _ _. lia.
    + destruct (idx + 1 =? lMax); [discriminate|].
      apply IH in H. lia.
Qed.

Lemma decodeInteger_shrinks (buf : list byte) (N iMax lMax : Z)
      (r : list byte) (p v : Z) :
  decodeInteger buf N iMax lMax = Ok (r, p, v) ->
  (List.length r < List.length buf)%nat.
Proof.
  unfold decodeInteger. destruct ((N <? 1) || (N >? 8)); [discriminate|].
  destruct buf as [|b0 rest]; [discriminate|].
  destruct (negb _); intros H.
  - injection H as <- _ _. cbn [List.length]. lia.
  - apply decodeInteger_loop_shrinks in H. cbn [List.length]. lia.
Qed.

Lemma slice_at_Some (rest : list byte) (length : Z) (payload rest' : list byte) :
  Decoder.slice_at rest length = Some (payload, rest') ->
  0 <= length <= len rest /\
  payload = firstn (Z.to_nat length) rest /\
  rest' = skipn (Z.to_nat length) rest /\
  rest = payload ++ rest'.
Proof.
  unfold Decoder.slice_at.
  destruct ((length <? 0) || (len rest <? length)) eqn:E; [discriminate|].
  apply orb_false_iff in E. destruct E as [E1 E2].
  apply Z.ltb_ge in E1. apply Z.ltb_ge in E2.
  intros H. injection H as <- <-.
  repeat split; try lia. symmetry. apply firstn_skipn.
Qed.

Lemma readPrefixedLengthString_shrinks (d : Decoder.t) (buf : list byte) (N : Z)
      (r s : list byte) :
  Decoder.readPrefixedLengthString d buf N = Ok (r, s) ->
  (List.length r < List.length buf)%nat.
Proof.
  unfold Decoder.readPrefixedLengthString, Decoder.DecodeInteger.
  destruct (decodeInteger buf N _ _) as [[[rest huffman] length]| | |] eqn:E;
    cbn [bind]; try discriminate.
  apply decodeInteger_shrinks in E.
  assert (Hs : forall payload rest',
             Decoder.slice_at rest length = Some (payload, rest') ->
             (List.length rest' <= List.length rest)%nat).
  { intros payload rest' H. apply slice_at_Some in H.
    destruct H as (_ & _ & -> & _). rewrite length_skipn. lia. }
  destruct (length >? _); [discriminate|].
  destruct (Z.land huffman huffmanEncoded =? huffmanEncoded).
  - destruct (len rest <? length); [discriminate|].
    destruct (Decoder.slice_at rest length) as [[payload rest']|] eqn:Es; [|discriminate].
    destruct (HuffmanDecode payload); cbn [bind]; try discriminate.
    intros H. injection H as <- _. specialize (Hs _ _ eq_refl). lia.
  - destruct (Decoder.slice_at rest length) as [[payload rest']|] eqn:Es; [|discriminate].
    intros H. injection H as <- _. specialize (Hs _ _ eq_refl). lia.
Qed.

Lemma parseHeaderFieldNotIndexed_shrinks (d : Decoder.t) (buf r : list byte) (h : Header) :
  Decoder.parseHeaderFieldNotIndexed d buf = Ok (r, h) ->
  (List.length r < List.length buf)%nat.
Proof.
  unfold Decoder.parseHeaderFieldNotIndexed, Decoder.DecodeInteger.
  destruct (decodeInteger buf 4 _ _) as [[[rest p] index]| | |] eqn:E;
    cbn [bind]; try discriminate.
  apply decodeInteger_shrinks in E.
  destruct (index =? 0).
  - destruct (Decoder.readPrefixedLengthString d rest 7) as [[rest1 name]| | |] eqn:E1;
      cbn [bind]; try discriminate.
    apply readPrefixedLengthString_shrinks in E1.
    destruct (Decoder.readPrefixedLengthString d rest1 7) as [[rest2 value]| | |] eqn:E2;
      cbn [bind]; try discriminate.
    apply readPrefixedLengthString_shrinks in E2.
    intros H. injection H as <- _. lia.
  - destruct (Decoder.getIndexedNameValue d index) as [[name value0]| | |];
      cbn [bind]; try discriminate.
    destruct (Decoder.readPrefixedLengthString d rest 7) as [[rest2 value]| | |] eqn:E2;
      cbn [bind]; try discriminate.
    apply readPrefixedLengthString_shrinks in E2.
    intros H. injection H as <- _. lia.
Qed.

Lemma parseHeaderField_shrinks (d d' : Decoder.t) (buf r : list byte) (oh : option Header) :
  Decoder.parseHeaderField d buf = (d', Ok (r, oh)) ->
  (List.length r < List.length buf)%nat.
Proof.
  unfold Decoder.parseHeaderField.
  destruct buf as [|b0 buf']; [discriminate|].
  set (buf := b0 :: buf').
  destruct (_ =? headerFieldIndexed).
  { unfold Decoder.parseHeaderFieldIndexed, Decoder.DecodeInteger.
    destruct (decodeInteger buf 7 _ _) as [[[rest p] index]| | |] eqn:E;
      cbn [bind]; try discriminate.
    apply decodeInteger_shrinks in E.
    destruct (Decoder.getIndexedNameValue d index) as [[name value]| | |];
      cbn [bind]; try discriminate.
    intros H. injection H as _ <- _. exact E. }
  destruct (_ =? headerFieldLiteralIncrementalIndex).
  { unfold Decoder.parseHeaderFieldIncrementalIndex, Decoder.DecodeInteger.
    destruct (decodeInteger buf 6 _ _) as [[[rest p] index]| | |] eqn:E;
      cbn [bind]; try discriminate.
    apply decodeInteger_shrinks in E.
    assert (Hn : forall rest1 name,
               (if index =? 0 then Decoder.readPrefixedLengthString d rest 7
                else bind (Decoder.getIndexedNameValue d index)
                          (fun '(name, _) => Ok (rest, name))) = Ok (rest1, name) ->
               (List.length rest1 <= List.length rest)%nat).
    { intros rest1 name. destruct (index =? 0).
      - intros H. apply readPrefixedLengthString_shrinks in H. lia.
      - destruct (Decoder.getIndexedNameValue d index) as [[nm vl]| | |];
          cbn [bind]; try discriminate.
        intros H. injection H as <- _. lia. }
    destruct (if index =? 0 then _ else _) as [[rest1 name]| | |];
      cbn [bind]; try discriminate.
    specialize (Hn _ _ eq_refl).
    destruct (Decoder.readPrefixedLengthString d rest1 7) as [[rest2 value]| | |] eqn:E2;
      cbn [bind]; try discriminate.
    apply readPrefixedLengthString_shrinks in E2.
    intros H. injection H as _ <- _. lia. }
  destruct (_ =? headerFieldDynamicSizeUpdate).
  { unfold Decoder.parseDynamicSizeUpdate, Decoder.DecodeInteger.
    destruct (decodeInteger buf 5 _ _) as [[[rest p] size]| | |] eqn:E;
      cbn [bind]; try discriminate.
    apply decodeInteger_shrinks in E.
    destruct (size >? _); cbn [bind]; try discriminate.
    intros H. injection H as _ <- _. exact E. }
  destruct (_ =? headerFieldLiteralNeverIndexed).
  { destruct (Decoder.parseHeaderFieldNotIndexed d buf) as [[rest h]| | |] eqn:E;
      cbn [bind]; try discriminate.
    apply parseHeaderFieldNotIndexed_shrinks in E.
    intros H. injection H as _ <- _. exact E. }
  destruct (_ =? headerFieldLiteralNotIndexed); [|discriminate].
  destruct (Decoder.parseHeaderFieldNotIndexed d buf) as [[rest h]| | |] eqn:E;
    cbn [bind]; try discriminate.
  apply parseHeaderFieldNotIndexed_shrinks in E.
  intros H. injection H as _ <- _. exact E.
Qed.

(** More fuel than the buffer has octets is as good as any more. *)
Lemma Decode_loop_enough (fuel : nat) :
  forall (fuel' : nat) (d : Decoder.t) (buf : list byte) (headers : list Header),
    (List.length buf < fuel)%nat -> (fuel <= fuel')%nat ->
    Decoder.Decode_loop fuel' d buf headers = Decoder.Decode_loop fuel d buf headers.
Proof.
  induction fuel as [|fuel IH]; intros fuel' d buf headers Hlen Hle; [lia|].
  destruct fuel' as [|fuel']; [lia|].
  cbn [Decoder.Decode_loop].
  destruct (len buf >? 0); [|reflexivity].
  destruct (Decoder.parseHeaderField d buf) as [d' [[buf' oh]| | |]] eqn:E;
    try reflexivity.
  apply parseHeaderField_shrinks in E.
  apply IH; lia.
Qed.

Lemma Decode_loop_S (fuel : nat) (d : Decoder.t) (buf : list byte) (headers : list Header) :
  Decoder.Decode_loop (S fuel) d buf headers
  = if len buf >? 0 then
      match Decoder.parseHeaderField d buf with
      | (decoder, Ok (buf, header)) =>
          Decoder.Decode_loop fuel decoder buf
            (match header with Some h => headers ++ [h] | None => headers end)
      | (decoder, Err e) => (decoder, Err e)
      | (decoder, Panic p) => (decoder, Panic p)
      | (decoder, Diverges) => (decoder, Diverges)
      end
    else (d, Ok headers).
Proof. reflexivity. Qed.

(** The two equations of the loop of [Decode], without fuel. *)
Lemma Decode_loop_nil (d : Decoder.t) (headers : list Header) (fuel : nat) :
  Decoder.Decode_loop (S fuel) d [] headers = (d, Ok headers).
Proof. reflexivity. Qed.

Lemma Decode_loop_field (d d' : Decoder.t) (buf buf' : list byte) (oh : option Header)
      (headers : list Header) :
  Decoder.parseHeaderField d buf = (d', Ok (buf', oh)) ->
  Decoder.Decode_loop (S (List.length buf)) d buf headers
  = Decoder.Decode_loop (S (List.length buf')) d' buf'
      (match oh with Some h => headers ++ [h] | None => headers end).
Proof.
  intros H. pose proof (parseHeaderField_shrinks _ _ _ _ _ H) as Hs.
  rewrite (Decode_loop_S (List.length buf)).
  assert (E : (len buf >? 0) = true).
  { rewrite Z.gtb_ltb. apply Z.ltb_lt. unfold len. lia. }
  rewrite E, H.
  apply Decode_loop_enough; lia.
Qed.

(** [Decode] returns: it does not loop for ever, whatever the block, as
    long as [HuffmanDecode] returns. *)
Lemma Decode_loop_returns (fuel : nat) :
  forall (d : Decoder.t) (buf : list byte) (headers : list Header),
    (List.length buf < fuel)%nat ->
    snd (Decoder.Decode_loop fuel d buf headers) = Diverges ->
    exists d' buf', snd (Decoder.parseHeaderField d' buf') = Diverges.
Proof.
  induction fuel as [|fuel IH]; intros d buf headers Hlen H; [lia|].
  cbn [Decoder.Decode_loop] in H.
  destruct (len buf >? 0); [|discriminate].
  destruct (Decoder.parseHeaderField d buf) as [d' [[buf' oh]| | |]] eqn:E;
    try discriminate.
  - pose proof (parseHeaderField_shrinks _ _ _ _ _ E).
    apply IH in H; [assumption|lia].
  - exists d, buf. now rewrite E.
Qed.

(** ** Parsing a size update and an indexed field *)

Lemma parse_size_update (d : Decoder.t) (n : Z) (suffix : list byte) :
  default_limits d -> 0 <= n <= 2 ^ 32 - 1 -> n <= Decoder.dynamicTableSizeMax d ->
  exists (b : byte) (bs : list byte),
    encodeInteger n 5 = Ok (b :: bs) /\
    Decoder.parseHeaderField d (orFirst headerFieldDynamicSizeUpdate (b :: bs) ++ suffix)
    = (Decoder.SetDynamicTableMaxSize d n, Ok (suffix, None)).
Proof.
  intros Hlim Hn Hmax.
  destruct (DecodeInteger_encoded d n 5 headerFieldDynamicSizeUpdate suffix Hlim
              ltac:(lia) Hn ltac:(unfold headerFieldDynamicSizeUpdate; lia) eq_refl)
    as (b & bs & Henc & Hb & Hbyte & Hdec).
  exists b, bs. split; [assumption|].
  cbn [orFirst app] in *.
  unfold Decoder.parseHeaderField. rewrite Hbyte.
  change (2 ^ 5) with 32 in Hb.
  destruct (first_size_update (Z_of_byte b) Hb) as (E1 & E2 & E3).
  rewrite E1, E2, E3.
  unfold Decoder.parseDynamicSizeUpdate. rewrite Hdec.
  assert (E : (n >? Decoder.dynamicTableSizeMax d) = false)
    by (rewrite Z.gtb_ltb; apply Z.ltb_ge; lia).
  rewrite E. reflexivity.
Qed.

Lemma parse_indexed (d : Decoder.t) (i : Z) (suffix name value : list byte) :
  default_limits d -> 0 <= i <= 2 ^ 32 - 1 ->
  Decoder.getIndexedNameValue d i = Ok (name, value) ->
  exists (b : byte) (bs : list byte),
    encodeInteger i 7 = Ok (b :: bs) /\
    Decoder.parseHeaderField d (orFirst headerFieldIndexed (b :: bs) ++ suffix)
    = (d, Ok (suffix, Some (mkHeader name value false))).
Proof.
  intros Hlim Hi Hget.
  destruct (DecodeInteger_encoded d i 7 headerFieldIndexed suffix Hlim
              ltac:(lia) Hi ltac:(unfold headerFieldIndexed; lia) eq_refl)
    as (b & bs & Henc & Hb & Hbyte & Hdec).
  exists b, bs. split; [assumption|].
  cbn [orFirst app] in *.
  unfold Decoder.parseHeaderField. rewrite Hbyte.
  change (2 ^ 7) with 128 in Hb.
  rewrite (first_indexed (Z_of_byte b) Hb).
  unfold Decoder.parseHeaderFieldIndexed. rewrite Hdec. cbn [bind].
  rewrite Hget. reflexivity.
Qed.

(** ** C5: the place of a size update in a block *)

(** C5 (as the code has it).  [Decode] has no notion of the place of a
    representation in the block, and accepts a dynamic-table size update
    after a header field: for every decoder with the limits of
    [NewDecoder], a block made of an indexed header field (any index of
    the joint table) followed by a size update to any size up to the
    current maximal size decodes without error to that one header, and
    the update is applied. *)
Theorem C5_size_update_after_field (d : Decoder.t) (i n : Z) :
  default_limits d ->
  1 <= i <= len staticTable + len (Decoder.dynamicTable d) -> i <= 2 ^ 32 - 1 ->
  0 <= n <= Decoder.dynamicTableSizeMax d -> n <= 2 ^ 32 - 1 ->
  exists (field update name value : list byte),
    encodeInteger i 7 = Ok field /\
    encodeInteger n 5 = Ok update /\
    Decoder.getIndexedNameValue d i = Ok (name, value) /\
    Decoder.Decode d (orFirst headerFieldIndexed field
                        ++ orFirst headerFieldDynamicSizeUpdate update)
    = (Decoder.SetDynamicTableMaxSize d n, Ok [mkHeader name value false]).
Proof.
  intros Hlim Hi Hi32 Hn Hn32.
  assert (Hget : exists name value, Decoder.getIndexedNameValue d i = Ok (name, value)).
  { destruct (getIndexedNameValue_in_range d i) as (_ & Hs & Hd).
    destruct (Z_le_gt_dec i (len staticTable)) as [Hle|Hgt].
    - destruct Hs as (nv & _ & E); [lia|]. eauto.
    - destruct Hd as (h & _ & E); [lia|]. eauto. }
  destruct Hget as (name & value & Hget).
  destruct (parse_size_update d n [] Hlim ltac:(lia) ltac:(lia))
    as (bu & bsu & Hencu & Hparseu).
  destruct (parse_indexed d i (orFirst headerFieldDynamicSizeUpdate (bu :: bsu) ++ [])
                          name value Hlim ltac:(lia) Hget)
    as (bf & bsf & Hencf & Hparsef).
  exists (bf :: bsf), (bu :: bsu), name, value.
  repeat (split; [assumption|]).
  rewrite app_nil_r in Hparsef.
  unfold Decoder.Decode.
  rewrite (Decode_loop_field _ _ _ _ _ _ Hparsef).
  rewrite <- (app_nil_r (orFirst headerFieldDynamicSizeUpdate (bu :: bsu))).
  rewrite (Decode_loop_field _ _ _ _ _ _ Hparseu).
  reflexivity.
Qed.

Lemma C5_size_update_after_field_witness :
  exists (field update name value : list byte),
    encodeInteger 2 7 = Ok field /\
    encodeInteger 0 5 = Ok update /\
    Decoder.getIndexedNameValue (Decoder.NewDecoder 256) 2 = Ok (name, value) /\
    Decoder.Decode (Decoder.NewDecoder 256)
                   (orFirst headerFieldIndexed field
                      ++ orFirst headerFieldDynamicSizeUpdate update)
    = (Decoder.SetDynamicTableMaxSize (Decoder.NewDecoder 256) 0,
       Ok [mkHeader name value false]).
Proof.
  apply (C5_size_update_after_field (Decoder.NewDecoder 256) 2 0).
  - repeat split.
  - vm_compute. split; discriminate.
  - lia.
  - vm_compute. split; discriminate.
  - lia.
Defined.

(** The claim fails: the block 0x82 0x20 has the size update 0 after the
    indexed field (:method, GET); [Decode] returns the header and no
    error, and the maximal size of the table is then 0. *)
Lemma C5_counterexample :
  Decoder.Decode (Decoder.NewDecoder 256) [byte_of_Z 130; byte_of_Z 32]
  = (Decoder.SetDynamicTableMaxSize (Decoder.NewDecoder 256) 0,
     Ok [mkHeader (str ":method") (str "GET") false]) /\
  Decoder.dynamicTableSizeMax
    (fst (Decoder.Decode (Decoder.NewDecoder 256) [byte_of_Z 130; byte_of_Z 32])) = 0.
Proof.
  split; reflexivity.
Qed.

(** ** The static maps *)

Lemma splits_at_complete (c : byte) (a b : list byte) :
  forall pre, In (rev pre ++ a, b) (splits_at c pre (a ++ c :: b)).
Proof.
  induction a as [|x a IH]; intros pre.
  - cbn [app splits_at]. rewrite (@Byte.byte_dec_lb c c eq_refl).
    rewrite app_nil_r. now left.
  - cbn [app splits_at]. apply in_or_app. right.
    specialize (IH (x :: pre)). cbn [rev] in IH. now rewrite <- app_assoc in IH.
Qed.

Lemma static_keys_ok_true : static_keys_ok = true.
Proof. vm_compute. reflexivity. Qed.

(** A header with a non-empty name has the key of a static entry only if
    it is that entry. *)
Lemma static_key_inj (nv : list byte * list byte) (name value : list byte) :
  In nv staticTable -> name <> [] ->
  name ++ str ":" ++ value = fst nv ++ str ":" ++ snd nv ->
  nv = (name, value).
Proof.
  intros Hin Hname Hkey.
  pose proof static_keys_ok_true as Hok. unfold static_keys_ok in Hok.
  rewrite forallb_forall in Hok. specialize (Hok nv Hin).
  rewrite forallb_forall in Hok. specialize (Hok (name, value)).
  rewrite <- Hkey in Hok.
  pose proof (splits_at_complete ":"%byte name value []) as Hsp.
  cbn [rev app] in Hsp. specialize (Hok Hsp). cbn [fst snd] in Hok.
  destruct name as [|x name]; [contradiction|].
  apply andb_true_iff in Hok. destruct Hok as [H1 H2].
  apply eqb_bytes_eq in H1. apply eqb_bytes_eq in H2.
  destruct nv as [n v]. cbn [fst snd] in *. now subst.
Qed.

Lemma nodupb_NoDup (l : list (list byte * list byte)) : nodupb l = true -> NoDup l.
Proof.
  induction l as [|a l IH]; intros H; [constructor|].
  cbn [nodupb] in H. apply andb_true_iff in H. destruct H as [H1 H2].
  constructor; [|now apply IH].
  intros Hin. apply negb_true_iff in H1.
  assert (E : existsb (fun b => eqb_bytes (fst a) (fst b) && eqb_bytes (snd a) (snd b)) l
              = true).
  { apply existsb_exists. exists a. split; [assumption|].
    now rewrite !eqb_bytes_refl. }
  congruence.
Qed.

Lemma staticTable_NoDup : NoDup staticTable.
Proof. apply nodupb_NoDup. vm_compute. reflexivity. Qed.

Lemma static_nth_In (k : nat) (nv : list byte * list byte) :
  nth_error staticTable k = Some nv -> In nv staticTable /\ (k < 61)%nat.
Proof.
  intros H. split; [eapply nth_error_In; eassumption|].
  change 61%nat with (List.length staticTable). apply nth_error_Some. congruence.
Qed.

(** The map with values: an index it holds for the key of a header with
    a non-empty name is the index of that very entry; and it holds the
    index of every entry. *)
Lemma staticWithValues_Some (name value : list byte) (i : Z) :
  name <> [] ->
  staticTableEncodingWithValues (name ++ str ":" ++ value) = Some i ->
  static_match_both i name value /\ i <= 61.
Proof.
  intros Hname H. unfold staticTableEncodingWithValues in H.
  apply find_index_Some in H. destruct H as (k & a & -> & Hn & Hp & _).
  apply eqb_bytes_eq in Hp. symmetry in Hp.
  destruct (static_nth_In k a Hn) as [Hin Hk].
  apply (static_key_inj a name value Hin Hname) in Hp. subst a.
  unfold static_match_both.
  replace (Z.to_nat (1 + Z.of_nat k - 1)) with k by lia.
  repeat split; try assumption; lia.
Qed.

Lemma staticWithValues_complete (name value : list byte) (i : Z) :
  name <> [] ->
  static_match_both i name value ->
  staticTableEncodingWithValues (name ++ str ":" ++ value) = Some i.
Proof.
  intros Hname [Hi Hn]. unfold staticTableEncodingWithValues.
  rewrite (find_index_first _ _ 1 (Z.to_nat (i - 1)) (name, value));
    [f_equal; lia|assumption|apply eqb_bytes_refl|].
  intros k' a' Hk' Hn'. apply eqb_bytes_neq. intros Hkey.
  destruct (static_nth_In k' a' Hn') as [Hin _]. symmetry in Hkey.
  apply (static_key_inj a' name value Hin Hname) in Hkey. subst a'.
  pose proof (proj1 (NoDup_nth_error staticTable) staticTable_NoDup k'
                    (Z.to_nat (i - 1))) as Hnd.
  assert (k' = Z.to_nat (i - 1)); [|lia].
  apply Hnd; [apply nth_error_Some; congruence|congruence].
Qed.

Lemma staticWithValues_None (name value : list byte) :
  staticTableEncodingWithValues (name ++ str ":" ++ value) = None ->
  forall i, ~ static_match_both i name value.
Proof.
  intros H i [Hi Hn]. unfold staticTableEncodingWithValues in H.
  rewrite find_index_None in H.
  specialize (H (name, value) (nth_error_In _ _ Hn)). cbn [fst snd] in H.
  rewrite eqb_bytes_refl in H. discriminate.
Qed.

(** The map of the names: the lowest index of the name. *)
Lemma staticEncoding_Some (name : list byte) (i : Z) :
  staticTableEncoding name = Some i <->
  static_match_name i name /\ forall i', i' < i -> ~ static_match_name i' name.
Proof.
  unfold staticTableEncoding. split.
  - intros H. apply find_index_Some in H. destruct H as (k & a & -> & Hn & Hp & Hmin).
    apply eqb_bytes_eq in Hp. destruct a as [n v]. cbn [fst] in Hp. subst n.
    split.
    + split; [lia|]. exists v. now replace (Z.to_nat (1 + Z.of_nat k - 1)) with k by lia.
    + intros i' Hlt [Hi' [v' Hn']].
      specialize (Hmin (Z.to_nat (i' - 1)) (name, v') ltac:(lia) Hn').
      cbn [fst] in Hmin. rewrite eqb_bytes_refl in Hmin. discriminate.
  - intros [[Hi [v Hn]] Hmin].
    rewrite (find_index_first _ _ 1 (Z.to_nat (i - 1)) (name, v));
      [f_equal; lia|assumption|apply eqb_bytes_refl|].
    intros k' [n' v'] Hk' Hn'. cbn [fst]. apply eqb_bytes_neq. intros ->.
    apply (Hmin (1 + Z.of_nat k')); [lia|].
    split; [lia|]. exists v'. now replace (Z.to_nat (1 + Z.of_nat k' - 1)) with k' by lia.
Qed.

Lemma staticEncoding_None (name : list byte) :
  staticTableEncoding name = None <-> forall i, ~ static_match_name i name.
Proof.
  unfold staticTableEncoding. rewrite find_index_None. split.
  - intros H i [Hi [v Hn]]. specialize (H (name, v) (nth_error_In _ _ Hn)).
    cbn [fst] in H. rewrite eqb_bytes_refl in H. discriminate.
  - intros H [n v] Hin. cbn [fst]. apply eqb_bytes_neq. intros ->.
    apply In_nth_error in Hin. destruct Hin as [k Hk].
    apply (H (1 + Z.of_nat k)). split; [lia|]. exists v.
    now replace (Z.to_nat (1 + Z.of_nat k - 1)) with k by lia.
Qed.

Lemma staticEncoding_range (name : list byte) (i : Z) :
  staticTableEncoding name = Some i -> 1 <= i <= 61.
Proof.
  intros H. apply staticEncoding_Some in H. destruct H as [[Hi [v Hn]] _].
  destruct (static_nth_In _ _ Hn). lia.
Qed.

(** The search of the dynamic table. *)
Lemma find_dynamic_Some (table : list Header) (name value : list byte) (x : Z) :
  find_index (fun header => eqb_bytes (Name header) name && eqb_bytes (Value header) value)
             table 0 = Some x <->
  dynamic_match_both table x name value /\
  forall x', 0 <= x' < x -> ~ dynamic_match_both table x' name value.
Proof.
  split.
  - intros H. apply find_index_Some in H. destruct H as (k & h & -> & Hn & Hp & Hmin).
    apply andb_true_iff in Hp. destruct Hp as [H1 H2].
    apply eqb_bytes_eq in H1. apply eqb_bytes_eq in H2.
    split.
    + split; [lia|]. exists h. now replace (Z.to_nat (0 + Z.of_nat k)) with k by lia.
    + intros x' Hx' [_ (h' & Hn' & <- & <-)].
      specialize (Hmin (Z.to_nat x') h' ltac:(lia) Hn').
      rewrite !eqb_bytes_refl in Hmin. discriminate.
  - intros [[Hx (h & Hn & Hname & Hvalue)] Hmin].
    rewrite (find_index_first _ _ 0 (Z.to_nat x) h); [f_equal; lia|assumption| |].
    + subst. now rewrite !eqb_bytes_refl.
    + intros k' h' Hk' Hn'.
      destruct (eqb_bytes (Name h') name && eqb_bytes (Value h') value) eqn:E;
        [|reflexivity].
      apply andb_true_iff in E. destruct E as [H1 H2].
      apply eqb_bytes_eq in H1. apply eqb_bytes_eq in H2.
      exfalso. apply (Hmin (Z.of_nat k')); [lia|].
      split; [lia|]. exists h'. now rewrite Nat2Z.id.
Qed.

Lemma find_dynamic_None (table : list Header) (name value : list byte) :
  find_index (fun header => eqb_bytes (Name header) name && eqb_bytes (Value header) value)
             table 0 = None <->
  forall x, ~ dynamic_match_both table x name value.
Proof.
  rewrite find_index_None. split.
  - intros H x [_ (h & Hn & <- & <-)].
    specialize (H h (nth_error_In _ _ Hn)). rewrite !eqb_bytes_refl in H. discriminate.
  - intros H h Hin.
    destruct (eqb_bytes (Name h) name && eqb_bytes (Value h) value) eqn:E; [|reflexivity].
    apply andb_true_iff in E. destruct E as [H1 H2].
    apply eqb_bytes_eq in H1. apply eqb_bytes_eq in H2.
    apply In_nth_error in Hin. destruct Hin as [k Hk].
    exfalso. apply (H (Z.of_nat k)). split; [lia|]. exists h. now rewrite Nat2Z.id.
Qed.

(** ** C8: the lookup of the encoder *)

(** C8 (as the code has it).  For every encoder state and every header
    with a non-empty name: if the value is not empty and a static entry
    matches both name and value, [findHeaderInTable] returns its index
    (there is only one) with [true], before any dynamic entry; otherwise,
    when a dynamic entry matches both name and value, it returns the
    joint index 61 + x + 1 of the first such entry (position x), with
    [true]; otherwise, when a static entry matches the name, it returns
    the smallest such static index with [false]; otherwise -1.  A header
    with an empty value never gets the full match of a static entry, and
    the dynamic table is never searched for the name alone. *)
Theorem C8_findHeaderInTable (e : Encoder.t) (name value : list byte) :
  name <> [] ->
  (forall i,
      value <> [] -> static_match_both i name value ->
      Encoder.findHeaderInTable e name value = (i, true)) /\
  (forall x,
      value = [] \/ (forall i, ~ static_match_both i name value) ->
      dynamic_match_both (Encoder.dynamicTable e) x name value ->
      (forall x', 0 <= x' < x ->
                  ~ dynamic_match_both (Encoder.dynamicTable e) x' name value) ->
      Encoder.findHeaderInTable e name value = (len staticTable + x + 1, true)) /\
  (forall i,
      value = [] \/ (forall i, ~ static_match_both i name value) ->
      (forall x, ~ dynamic_match_both (Encoder.dynamicTable e) x name value) ->
      static_match_name i name ->
      (forall i', i' < i -> ~ static_match_name i' name) ->
      Encoder.findHeaderInTable e name value = (i, false)) /\
  (value = [] \/ (forall i, ~ static_match_both i name value) ->
   (forall x, ~ dynamic_match_both (Encoder.dynamicTable e) x name value) ->
   (forall i, ~ static_match_name i name) ->
   Encoder.findHeaderInTable e name value = (-1, false)).
Proof.
  intros Hname.
  assert (Hno : value = [] \/ (forall i, ~ static_match_both i name value) ->
                (if negb (eqb_bytes value [])
                 then staticTableEncodingWithValues (name ++ str ":" ++ value)
                 else None) = None).
  { intros [-> | Hns]; [reflexivity|].
    destruct (negb (eqb_bytes value [])); [|reflexivity].
    destruct (staticTableEncodingWithValues _) as [i|] eqn:E; [|reflexivity].
    apply (staticWithValues_Some name value i Hname) in E.
    destruct E as [E _]. exfalso. exact (Hns i E). }
  unfold Encoder.findHeaderInTable. repeat split.
  - intros i Hvalue Hm.
    apply eqb_bytes_neq in Hvalue. rewrite Hvalue. cbn [negb].
    now rewrite (staticWithValues_complete name value i Hname Hm).
  - intros x Hns Hd Hmin. rewrite (Hno Hns).
    now rewrite (proj2 (find_dynamic_Some _ name value x) (conj Hd Hmin)).
  - intros i Hns Hnd Hs Hmin. rewrite (Hno Hns).
    rewrite (proj2 (find_dynamic_None _ name value) Hnd).
    now rewrite (proj2 (staticEncoding_Some name i) (conj Hs Hmin)).
  - intros Hns Hnd Hnone. rewrite (Hno Hns).
    rewrite (proj2 (find_dynamic_None _ name value) Hnd).
    now rewrite (proj2 (staticEncoding_None name) Hnone).
Qed.

Lemma C8_findHeaderInTable_witness :
  Encoder.findHeaderInTable (Encoder.NewEncoder 256) (str ":method") (str "GET")
  = (2, true).
Proof.
  refine (proj1 (C8_findHeaderInTable (Encoder.NewEncoder 256) (str ":method") (str "GET")
                                      _) 2 _ _).
  - vm_compute. discriminate.
  - vm_compute. discriminate.
  - split; [lia|]. reflexivity.
Defined.

(** The claim fails in two ways.  The static entry 1 is (:authority, ""),
    and matches the header (:authority, "") in name and value; the lookup
    reports a match of the name only.  And with ("custom-key", "v1") in
    the dynamic table, at the joint index 62, the lookup of
    ("custom-key", "v2") reports no match at all. *)
Lemma C8_counterexample :
  (nth_error staticTable 0 = Some (str ":authority", []) /\
   Encoder.findHeaderInTable (Encoder.NewEncoder 256) (str ":authority") [] = (1, false)) /\
  (Encoder.dynamicTable
     (Encoder.addNewDynamicEntry (Encoder.NewEncoder 256) (str "custom-key") (str "v1"))
   = [mkHeader (str "custom-key") (str "v1") false] /\
   Encoder.findHeaderInTable
     (Encoder.addNewDynamicEntry (Encoder.NewEncoder 256) (str "custom-key") (str "v1"))
     (str "custom-key") (str "v2") = (-1, false)).
Proof.
  repeat split.
Qed.

(** ** Bit strings *)

Lemma all_bytes_complete (b : byte) : In b all_bytes.
Proof.
  unfold all_bytes. apply in_map_iff.
  exists (Z.to_nat (Z_of_byte b)). pose proof (Z_of_byte_range b).
  split.
  - rewrite Z2Nat.id by lia. apply byte_of_Z_of_byte.
  - apply in_seq. lia.
Qed.

Lemma forall_bytes (P : byte -> bool) :
  forallb P all_bytes = true -> forall b, P b = true.
Proof.
  intros H b. rewrite forallb_forall in H. apply H, all_bytes_complete.
Qed.

Lemma all_bits_complete (l : list bool) : In l (all_bits (List.length l)).
Proof.
  induction l as [|b l IH]; [now left|].
  cbn [List.length all_bits]. apply in_or_app.
  destruct b; [left|right]; now apply in_map.
Qed.

Lemma forall_bits (P : list bool -> bool) (n : nat) :
  forallb P (all_bits n) = true -> forall l, List.length l = n -> P l = true.
Proof.
  intros H l <-. rewrite forallb_forall in H. apply H, all_bits_complete.
Qed.

Lemma code_bits_length (n : nat) (c : Z) : List.length (code_bits n c) = n.
Proof. induction n as [|n IH]; cbn; [reflexivity|]. now rewrite IH. Qed.

Lemma bits_of_byte_length (b : byte) : List.length (bits_of_byte b) = 8%nat.
Proof. apply code_bits_length. Qed.

Lemma bits_of_bytes_length (l : list byte) :
  List.length (bits_of_bytes l) = (8 * List.length l)%nat.
Proof.
  induction l as [|b l IH]; [reflexivity|].
  cbn [bits_of_bytes flat_map]. rewrite length_app, bits_of_byte_length.
  fold (bits_of_bytes l). rewrite IH. cbn [List.length]. lia.
Qed.

Lemma bits_of_bytes_app (l1 l2 : list byte) :
  bits_of_bytes (l1 ++ l2) = bits_of_bytes l1 ++ bits_of_bytes l2.
Proof. apply flat_map_app. Qed.

Lemma bval_from_app (l1 l2 : list bool) (acc : Z) :
  bval_from acc (l1 ++ l2) = bval_from (bval_from acc l1) l2.
Proof.
  revert acc. induction l1 as [|b l1 IH]; intros acc; [reflexivity|].
  cbn [app bval_from]. apply IH.
Qed.

Lemma bval_from_shift (l : list bool) (acc : Z) :
  bval_from acc l = acc * 2 ^ len l + bval l.
Proof.
  unfold bval. revert acc. induction l as [|b l IH]; intros acc.
  - cbn. lia.
  - cbn [bval_from]. rewrite (IH (2 * acc + Z.b2z b)), (IH (2 * 0 + Z.b2z b)).
    replace (len (b :: l)) with (len l + 1) by (unfold len; cbn [List.length]; lia).
    rewrite Z.pow_add_r by (pose proof (len_nonneg l); lia).
    lia.
Qed.

Lemma bval_app (l1 l2 : list bool) :
  bval (l1 ++ l2) = bval l1 * 2 ^ len l2 + bval l2.
Proof.
  unfold bval at 1. rewrite bval_from_app. apply bval_from_shift.
Qed.

Lemma bval_range (l : list bool) : 0 <= bval l < 2 ^ len l.
Proof.
  induction l as [|b l IH] using rev_ind.
  - cbn. lia.
  - rewrite bval_app, len_app.
    change (len [b]) with 1. change (bval [b]) with (2 * 0 + Z.b2z b).
    rewrite Z.pow_add_r by (pose proof (len_nonneg l); lia).
    destruct b; cbn [Z.b2z]; lia.
Qed.

Lemma bval_code_bits (n : nat) (c : Z) :
  0 <= c -> bval (code_bits n c) = c mod 2 ^ Z.of_nat n.
Proof.
  intros Hc. induction n as [|n IH].
  - cbn. now rewrite Z.mod_1_r.
  - cbn [code_bits].
    change (Z.testbit c (Z.of_nat n) :: code_bits n c)
      with ([Z.testbit c (Z.of_nat n)] ++ code_bits n c).
    rewrite bval_app, IH. unfold len. rewrite code_bits_length.
    change (bval [Z.testbit c (Z.of_nat n)]) with (2 * 0 + Z.b2z (Z.testbit c (Z.of_nat n))).
    rewrite Z.testbit_spec' by lia.
    rewrite Nat2Z.inj_succ, Z.pow_succ_r by lia.
    pose proof (Z.pow_pos_nonneg 2 (Z.of_nat n) ltac:(lia) ltac:(lia)) as Hp.
    rewrite (Z.mul_comm 2 (2 ^ Z.of_nat n)).
    rewrite Z.rem_mul_r by lia. lia.
Qed.

Lemma bits_of_byte_value (b : byte) : bval (bits_of_byte b) = Z_of_byte b.
Proof.
  unfold bits_of_byte. pose proof (Z_of_byte_range b).
  rewrite bval_code_bits by lia. apply Z.mod_small. cbn. lia.
Qed.

Lemma bits_of_byte_of_bval (l : list bool) :
  List.length l = 8%nat -> bits_of_byte (byte_of_Z (bval l)) = l.
Proof.
  intros H.
  assert (E : byte_bits_ok l = true).
  { apply (forall_bits byte_bits_ok 8); [vm_compute; reflexivity|assumption]. }
  unfold byte_bits_ok in E. destruct (list_eq_dec _ _ _); [assumption|discriminate].
Qed.

(** ** [HuffmanEncode] writes the code bits and pads with ones *)

Lemma lor_even_1 (v : Z) : Z.lor (2 * v) 1 = 2 * v + 1.
Proof.
  assert (E : Z.land (2 * v) (Z.ones 1) = 0).
  { rewrite Z.land_ones by lia. change (2 ^ 1) with 2.
    rewrite Z.mul_comm. apply Z.mod_mul. lia. }
  change (Z.ones 1) with 1 in E.
  rewrite <- (Z.lxor_lor _ _ E). symmetry. now apply Z.add_nocarry_lxor.
Qed.

Lemma land_shiftr_1 (c n : Z) :
  0 <= n -> Z.land (Z.shiftr c n) 1 = Z.b2z (Z.testbit c n).
Proof.
  intros Hn. change 1 with (Z.ones 1). rewrite Z.land_ones by lia.
  change (2 ^ 1) with 2. rewrite <- Z.bit0_mod, Z.shiftr_spec by lia.
  reflexivity.
Qed.

Lemma encodeCode_bits (n : nat) (c : Z) :
  forall (st : encodeState) (tail : list bool),
    enc_state_ok st tail ->
    exists tail',
      enc_state_ok (encodeCode n c st) tail' /\
      bits_of_bytes (es_encoded (encodeCode n c st)) ++ tail'
      = (bits_of_bytes (es_encoded st) ++ tail) ++ code_bits n c.
Proof.
  induction n as [|n IH]; intros st tail Hst.
  - exists tail. split; [exact Hst|]. cbn [encodeCode code_bits]. now rewrite app_nil_r.
  - destruct Hst as (Hbits & Hlen & Hbyte).
    cbn [encodeCode code_bits].
    set (beta := Z.testbit c (Z.of_nat n)).
    assert (Hcb : (if Z.land (Z.shiftr c (Z.of_nat n)) 1 =? 1
                   then Z.lor (es_currentByte st) 1 else es_currentByte st)
                  = bval (tail ++ [beta])).
    { rewrite land_shiftr_1 by lia. fold beta. rewrite Hbyte, bval_app.
      change (len [beta]) with 1. change (2 ^ 1) with 2.
      change (bval [beta]) with (2 * 0 + Z.b2z beta).
      clearbody beta.
      destruct beta;
        [change (Z.b2z true =? 1) with true|change (Z.b2z false =? 1) with false];
        cbv iota; cbn [Z.b2z]; [rewrite lor_even_1|]; lia. }
    rewrite Hcb.
    assert (Hlen' : List.length (tail ++ [beta]) = S (List.length tail))
      by (rewrite length_app; cbn; lia).
    destruct (es_currentBits st + 1 =? 8) eqn:E8.
    + apply Z.eqb_eq in E8. rewrite Hbits in E8. unfold len in E8.
      destruct (IH (mkEncodeState (es_encoded st ++ [byte_of_Z (bval (tail ++ [beta]))]) 0 0)
                   []) as (tail' & Hok & Heq).
      { repeat split; cbn; lia. }
      exists tail'. split; [exact Hok|]. rewrite Heq.
      cbn [es_encoded]. rewrite bits_of_bytes_app. cbn [bits_of_bytes flat_map].
      rewrite bits_of_byte_of_bval by lia.
      rewrite !app_nil_r, <- !app_assoc. reflexivity.
    + apply Z.eqb_neq in E8. rewrite Hbits in E8. unfold len in E8.
      destruct (IH (mkEncodeState (es_encoded st)
                      (Z.shiftl (bval (tail ++ [beta])) 1 mod 256)
                      (es_currentBits st + 1))
                   (tail ++ [beta])) as (tail' & Hok & Heq).
      { repeat split; cbn [es_currentBits es_currentByte].
        - rewrite Hbits. unfold len. lia.
        - lia.
        - rewrite Z.shiftl_mul_pow2 by lia. change (2 ^ 1) with 2.
          pose proof (bval_range (tail ++ [beta])) as Hr.
          assert (2 ^ len (tail ++ [beta]) <= 2 ^ 7)
            by (apply Z.pow_le_mono_r; unfold len; lia).
          rewrite Z.mod_small; lia. }
      exists tail'. split; [exact Hok|]. rewrite Heq.
      cbn [es_encoded]. rewrite <- !app_assoc. reflexivity.
Qed.

Lemma encodeSymbols_bits (data : list byte) :
  forall (st : encodeState) (tail : list bool),
    enc_state_ok st tail ->
    exists tail',
      enc_state_ok (fold_left encodeSymbol data st) tail' /\
      bits_of_bytes (es_encoded (fold_left encodeSymbol data st)) ++ tail'
      = (bits_of_bytes (es_encoded st) ++ tail) ++ enc_bits data.
Proof.
  induction data as [|b data IH]; intros st tail Hst.
  - exists tail. split; [exact Hst|]. cbn. now rewrite app_nil_r.
  - cbn [fold_left].
    destruct (encodeCode_bits (Z.to_nat (snd (huffmanCode (Z_of_byte b))))
                              (fst (huffmanCode (Z_of_byte b))) st tail Hst)
      as (tail1 & Hok1 & Heq1).
    destruct (IH (encodeSymbol st b) tail1 Hok1) as (tail' & Hok & Heq).
    exists tail'. split; [exact Hok|]. rewrite Heq.
    unfold encodeSymbol at 1. rewrite Heq1.
    cbn [enc_bits flat_map]. unfold symbol_bits. now rewrite <- !app_assoc.
Qed.

Lemma padding_ok_true (tail : list bool) :
  (0 < List.length tail < 8)%nat -> padding_ok tail = true.
Proof.
  intros H.
  assert (Hk : In (List.length tail) [1; 2; 3; 4; 5; 6; 7]%nat) by (cbn; lia).
  cbn [In] in Hk.
  destruct Hk as [Hk|[Hk|[Hk|[Hk|[Hk|[Hk|[Hk|[]]]]]]]];
    (symmetry in Hk; revert Hk; apply forall_bits; vm_compute; reflexivity).
Qed.

(** The octets of [HuffmanEncode], as bits: the codes of the symbols one
    after the other, and then at most seven bits of padding, all ones. *)
Lemma HuffmanEncode_bits (data : list byte) :
  exists k : nat,
    (k < 8)%nat /\ bits_of_bytes (HuffmanEncode data) = enc_bits data ++ repeat true k.
Proof.
  destruct (encodeSymbols_bits data (mkEncodeState [] 0 0) [])
    as (tail & (Hbits & Hlen & Hbyte) & Heq).
  { repeat split; cbn; lia. }
  cbn [es_encoded bits_of_bytes flat_map app] in Heq.
  unfold HuffmanEncode.
  set (st := fold_left encodeSymbol data (mkEncodeState [] 0 0)) in *.
  destruct ((es_currentBits st >? 0) && (es_currentBits st <? 8)) eqn:E.
  - apply andb_true_iff in E. destruct E as [E0 E8].
    rewrite Z.gtb_ltb in E0. apply Z.ltb_lt in E0. apply Z.ltb_lt in E8.
    rewrite Hbits in E0, E8. unfold len in E0, E8.
    exists (8 - List.length tail)%nat. split; [lia|].
    rewrite bits_of_bytes_app. cbn [bits_of_bytes flat_map]. rewrite app_nil_r.
    pose proof (padding_ok_true tail ltac:(lia)) as Hp.
    unfold padding_ok in Hp. rewrite Hbits, Hbyte.
    destruct (list_eq_dec _ _ _) as [Hpad|]; [|discriminate].
    rewrite Hpad, app_assoc, Heq. reflexivity.
  - exists 0%nat. split; [lia|].
    assert (Ht : tail = []).
    { apply andb_false_iff in E. rewrite Z.gtb_ltb in E.
      rewrite Hbits in E. unfold len in E.
      destruct tail as [|b tail]; [reflexivity|]. cbn [List.length] in *.
      destruct E as [E|E]; apply Z.ltb_ge in E; lia. }
    subst tail. rewrite app_nil_r in Heq. cbn [repeat]. now rewrite app_nil_r.
Qed.

(** ** [PeekBits] reads the window *)

Lemma skipn_nth_error {A : Type} (l : list A) :
  forall (k : nat) (x : A), nth_error l k = Some x -> skipn k l = x :: skipn (S k) l.
Proof.
  induction l as [|a l IH]; intros [|k] x H; try discriminate.
  - cbn in H. injection H as ->. reflexivity.
  - cbn in H. cbn [skipn]. now apply IH.
Qed.

Lemma nth_error_bits_of_bytes (buf : list byte) :
  forall (i k : nat) (b : byte),
    nth_error buf i = Some b -> (k < 8)%nat ->
    nth_error (bits_of_bytes buf) (8 * i + k) = nth_error (bits_of_byte b) k.
Proof.
  induction buf as [|a buf IH]; intros [|i] k b H Hk; try discriminate.
  - cbn in H. injection H as ->. cbn [bits_of_bytes flat_map].
    rewrite Nat.mul_0_r, Nat.add_0_l.
    apply nth_error_app1. now rewrite bits_of_byte_length.
  - cbn in H. cbn [bits_of_bytes flat_map].
    rewrite nth_error_app2 by (rewrite bits_of_byte_length; lia).
    rewrite bits_of_byte_length.
    replace (8 * S i + k - 8)%nat with (8 * i + k)%nat by lia.
    now apply IH.
Qed.

Lemma bit_test_nth (b : byte) (k : nat) :
  (k < 8)%nat -> nth_error (bits_of_byte b) k = Some (bit_test b (Z.of_nat k)).
Proof.
  intros Hk.
  assert (E : bit_test_ok b = true).
  { apply forall_bytes. vm_compute. reflexivity. }
  unfold bit_test_ok in E. rewrite forallb_forall in E.
  specialize (E k ltac:(apply in_seq; lia)).
  destruct (nth_error (bits_of_byte b) k) as [v|]; [|discriminate].
  apply Bool.eqb_prop in E. now subst.
Qed.

Lemma peek_acc_app (l1 l2 : list bool) :
  forall n x, peek_acc n x (l1 ++ l2) = peek_acc (peek_acc n x l1) (x - len l1) l2.
Proof.
  induction l1 as [|b l1 IH]; intros n x.
  - cbn. now rewrite Z.sub_0_r.
  - cbn [app peek_acc]. rewrite IH. f_equal.
    unfold len. cbn [List.length]. lia.
Qed.

(** One bit of the inner loop, and the rest by induction: from the
    position [8 * idx + bitIdx] within the buffer, [ys] rounds either
    reach the end of the buffer and return, or leave the loop [ys] bits
    further. *)
Lemma PeekBits_inner_spec (buf : list byte) (numBits : Z) (ys : nat) :
  forall (n idx bitIdx x : Z),
    0 <= idx -> 0 <= bitIdx < 8 ->
    8 * idx + bitIdx < 8 * len buf ->
    let R := skipn (Z.to_nat (8 * idx + bitIdx)) (bits_of_bytes buf) in
    if (List.length R <=? ys)%nat
    then PeekBits_inner ys buf numBits n idx bitIdx x
         = Ok (inl (peek_acc n x R, numBits - x + len R))
    else exists idx' bitIdx',
        0 <= idx' /\ 0 <= bitIdx' < 8 /\
        8 * idx' + bitIdx' = 8 * idx + bitIdx + Z.of_nat ys /\
        PeekBits_inner ys buf numBits n idx bitIdx x
        = Ok (inr (peek_acc n x (firstn ys R), idx', bitIdx', x - Z.of_nat ys)).
Proof.
  induction ys as [|ys IH]; intros n idx bitIdx x Hidx Hbit Hpos R;
    assert (HRdef : R = skipn (Z.to_nat (8 * idx + bitIdx)) (bits_of_bytes buf))
      by reflexivity;
    clearbody R.
  - assert (HR : List.length R = (8 * List.length buf - Z.to_nat (8 * idx + bitIdx))%nat).
    { rewrite HRdef. now rewrite length_skipn, bits_of_bytes_length. }
    unfold len in Hpos.
    destruct (Nat.leb_spec (List.length R) 0) as [Hle|Hgt]; [lia|].
    exists idx, bitIdx. cbn [firstn peek_acc PeekBits_inner].
    repeat split; try lia. now rewrite Z.sub_0_r.
  - assert (HB : List.length (bits_of_bytes buf) = (8 * List.length buf)%nat)
      by apply bits_of_bytes_length.
    assert (HR : List.length R = (8 * List.length buf - Z.to_nat (8 * idx + bitIdx))%nat).
    { rewrite HRdef. now rewrite length_skipn, HB. }
    unfold len in Hpos.
    assert (Hget : exists b, nth_error buf (Z.to_nat idx) = Some b).
    { destruct (nth_error buf (Z.to_nat idx)) as [b|] eqn:E; [eauto|].
      apply nth_error_None in E. lia. }
    destruct Hget as [b Hb].
    assert (Hbit_b : nth_error (bits_of_bytes buf) (Z.to_nat (8 * idx + bitIdx))
                     = Some (bit_test b bitIdx)).
    { replace (Z.to_nat (8 * idx + bitIdx)) with (8 * Z.to_nat idx + Z.to_nat bitIdx)%nat
        by lia.
      rewrite (nth_error_bits_of_bytes buf _ _ b Hb) by lia.
      rewrite bit_test_nth by lia. now rewrite Z2Nat.id by lia. }
    assert (HRcons : R = bit_test b bitIdx
                         :: skipn (Z.to_nat (8 * idx + bitIdx + 1)) (bits_of_bytes buf)).
    { rewrite HRdef, (skipn_nth_error _ _ _ Hbit_b). f_equal. f_equal. lia. }
    clear HRdef.
    set (R1 := skipn (Z.to_nat (8 * idx + bitIdx + 1)) (bits_of_bytes buf)) in *.
    cbn [PeekBits_inner]. unfold index_at.
    assert (E0 : (idx <? 0) = false) by (apply Z.ltb_ge; lia).
    rewrite E0, Hb. fold (bit_test b bitIdx).
    set (n1 := Z.lor n (shl_int (if bit_test b bitIdx then 1 else 0) (x - 1))).
    assert (Hn1 : n1 = Z.lor n (shl_int (Z.b2z (bit_test b bitIdx)) (x - 1))).
    { unfold n1. now destruct (bit_test b bitIdx). }
    destruct (bitIdx + 1 =? 8) eqn:E8.
    + apply Z.eqb_eq in E8.
      destruct (idx + 1 =? len buf) eqn:Eend.
      * apply Z.eqb_eq in Eend. unfold len in Eend.
        assert (HR1 : List.length R = 1%nat) by lia.
        rewrite HRcons in HR1 |- *. cbn [List.length] in HR1.
        destruct R1 as [|? ?]; [|cbn [List.length] in HR1; lia].
        cbn [List.length Nat.leb peek_acc]. rewrite <- Hn1.
        unfold len. cbn [List.length]. reflexivity.
      * apply Z.eqb_neq in Eend. unfold len in Eend.
        specialize (IH n1 (idx + 1) 0 (x - 1) ltac:(lia) ltac:(lia)
                       ltac:(unfold len; lia)).
        replace (8 * (idx + 1) + 0) with (8 * idx + bitIdx + 1) in IH by lia.
        cbv zeta in IH. fold R1 in IH. rewrite HRcons.
        cbn [List.length Nat.leb firstn peek_acc].
        destruct (List.length R1 <=? ys)%nat.
        -- rewrite IH, <- Hn1. do 3 f_equal.
           unfold len. cbn [List.length]. lia.
        -- destruct IH as (idx' & bitIdx' & Hi' & Hb' & Hp' & IH).
           exists idx', bitIdx'. rewrite IH, <- Hn1.
           repeat split; try lia. do 3 f_equal. lia.
    + apply Z.eqb_neq in E8.
      specialize (IH n1 idx (bitIdx + 1) (x - 1) ltac:(lia) ltac:(lia)
                     ltac:(unfold len; lia)).
      replace (8 * idx + (bitIdx + 1)) with (8 * idx + bitIdx + 1) in IH by lia.
      cbv zeta in IH. fold R1 in IH. rewrite HRcons.
      cbn [List.length Nat.leb firstn peek_acc].
      destruct (List.length R1 <=? ys)%nat.
      * rewrite IH, <- Hn1. do 3 f_equal.
        unfold len. cbn [List.length]. lia.
      * destruct IH as (idx' & bitIdx' & Hi' & Hb' & Hp' & IH).
        exists idx', bitIdx'. rewrite IH, <- Hn1.
        repeat split; try lia. do 3 f_equal. lia.
Qed.

Lemma peek_steps_succ (x : Z) : 0 <= x -> peek_steps x = (8 + peek_steps (x - 8))%nat.
Proof.
  intros Hx. unfold peek_steps.
  assert (E : (x <? 0) = false) by (apply Z.ltb_ge; lia). rewrite E.
  destruct (x - 8 <? 0) eqn:E8.
  - apply Z.ltb_lt in E8. rewrite Z.div_small by lia. reflexivity.
  - apply Z.ltb_ge in E8.
    replace x with ((x - 8) + 1 * 8) at 1 by lia.
    rewrite Z.div_add by lia.
    assert (0 <= (x - 8) / 8) by (apply Z.div_pos; lia).
    rewrite Z2Nat.inj_add by lia. change (Z.to_nat 1) with 1%nat. lia.
Qed.

Lemma peek_acc_split (l : list bool) (k : nat) (n x : Z) :
  peek_acc n x l = peek_acc (peek_acc n x (firstn k l)) (x - len (firstn k l)) (skipn k l).
Proof. now rewrite <- peek_acc_app, firstn_skipn. Qed.

Lemma firstn_plus {A : Type} (a b : nat) :
  forall l : list A, firstn (a + b) l = firstn a l ++ firstn b (skipn a l).
Proof.
  induction a as [|a IH]; intros l; [reflexivity|].
  destruct l as [|x l]; cbn [Nat.add firstn skipn app].
  - now rewrite firstn_nil.
  - now rewrite IH.
Qed.

Lemma PeekBits_outer_spec (buf : list byte) (numBits : Z) (fuel : nat) :
  forall (n idx bitIdx x : Z),
    0 <= idx -> 0 <= bitIdx < 8 ->
    8 * idx + bitIdx < 8 * len buf ->
    (1 <= fuel)%nat -> (0 <= x -> x / 8 + 2 <= Z.of_nat fuel) ->
    let R := skipn (Z.to_nat (8 * idx + bitIdx)) (bits_of_bytes buf) in
    PeekBits_outer fuel buf numBits n idx bitIdx x
    = if (List.length R <=? peek_steps x)%nat
      then Ok (peek_acc n x R, numBits - x + len R)
      else Ok (peek_acc n x (firstn (peek_steps x) R), numBits).
Proof.
  induction fuel as [|fuel IH]; intros n idx bitIdx x Hidx Hbit Hpos Hf1 Hfx R; [lia|].
  assert (HR : List.length R = (8 * List.length buf - Z.to_nat (8 * idx + bitIdx))%nat).
  { unfold R. now rewrite length_skipn, bits_of_bytes_length. }
  unfold len in Hpos.
  cbn [PeekBits_outer].
  destruct (x >=? 0) eqn:Ex.
  - apply Z.geb_le in Ex.
    pose proof (PeekBits_inner_spec buf numBits 8 n idx bitIdx x Hidx Hbit
                  ltac:(unfold len; lia)) as Hin.
    cbv zeta in Hin. fold R in Hin.
    rewrite (peek_steps_succ x Ex).
    destruct (Nat.leb_spec (List.length R) 8) as [Hle|Hgt].
    + rewrite Hin.
      destruct (Nat.leb_spec (List.length R) (8 + peek_steps (x - 8))) as [_|]; [|lia].
      reflexivity.
    + destruct Hin as (idx' & bitIdx' & Hi' & Hb' & Hp' & Hin). rewrite Hin.
      assert (Hdiv : 0 <= x / 8) by (apply Z.div_pos; lia).
      rewrite (IH _ idx' bitIdx' (x - 8) Hi' Hb'); try (unfold len; lia).
      * rewrite Hp'.
        replace (Z.to_nat (8 * idx + bitIdx + Z.of_nat 8))
          with (8 + Z.to_nat (8 * idx + bitIdx))%nat by lia.
        rewrite <- skipn_skipn. fold R.
        rewrite length_skipn.
        change (Z.of_nat 8) with 8.
        assert (Hsplit : R = firstn 8 R ++ skipn 8 R) by (symmetry; apply firstn_skipn).
        assert (Hl8 : len (firstn 8 R) = 8).
        { unfold len. rewrite length_firstn. lia. }
        destruct (Nat.leb_spec (List.length R - 8) (peek_steps (x - 8)));
          destruct (Nat.leb_spec (List.length R) (8 + peek_steps (x - 8))); try lia.
        -- rewrite (peek_acc_split R 8 n x), Hl8. do 2 f_equal.
           unfold len. rewrite length_skipn. lia.
        -- rewrite firstn_plus, peek_acc_app, Hl8. reflexivity.
      * intros Hx8.
        replace x with ((x - 8) + 1 * 8) in Hfx by lia.
        rewrite Z.div_add in Hfx by lia. lia.
  - rewrite Z.geb_leb in Ex. apply Z.leb_gt in Ex.
    unfold peek_steps. assert (E : (x <? 0) = true) by (apply Z.ltb_lt; lia).
    rewrite E.
    destruct (Nat.leb_spec (List.length R) 0); [lia|]. reflexivity.
Qed.

Lemma lor_shift_bit (a k : Z) (b : bool) :
  0 <= k ->
  Z.lor (a * 2 ^ (k + 1)) (Z.b2z b * 2 ^ k) = (2 * a + Z.b2z b) * 2 ^ k.
Proof.
  intros Hk.
  replace (a * 2 ^ (k + 1)) with ((2 * a) * 2 ^ k)
    by (rewrite Z.pow_add_r by lia; change (2 ^ 1) with 2; lia).
  rewrite <- !Z.shiftl_mul_pow2 by lia.
  rewrite <- Z.shiftl_lor. f_equal.
  destruct b; cbn [Z.b2z]; [apply lor_even_1|rewrite Z.lor_0_r; lia].
Qed.

Lemma window_short (l : list bool) :
  (List.length l <= 32)%nat -> window l = bval l * 2 ^ (32 - len l).
Proof.
  intros H. unfold window. now rewrite firstn_all2.
Qed.

Lemma window_range (l : list bool) : 0 <= window l < 2 ^ 32.
Proof.
  unfold window. set (w := firstn 32 l).
  assert (Hw : 0 <= len w <= 32).
  { unfold len, w. rewrite length_firstn. lia. }
  pose proof (bval_range w) as Hr.
  assert (Hp : 0 < 2 ^ (32 - len w)) by (apply Z.pow_pos_nonneg; lia).
  assert (E : 2 ^ 32 = 2 ^ len w * 2 ^ (32 - len w)).
  { rewrite <- Z.pow_add_r by lia. f_equal. lia. }
  rewrite E. nia.
Qed.

(** The accumulator of [PeekBits] is the window on the bits it has read. *)
Lemma peek_acc_window (l : list bool) :
  forall (seen : list bool) (n x : Z),
    x = 32 - len seen -> n = window seen ->
    peek_acc n x l = window (seen ++ l).
Proof.
  induction l as [|b l IH]; intros seen n x Hx Hn.
  - cbn. now rewrite app_nil_r.
  - cbn [peek_acc].
    replace (seen ++ b :: l) with ((seen ++ [b]) ++ l) by (now rewrite <- app_assoc).
    apply IH.
    + rewrite len_app. change (len [b]) with 1. lia.
    + subst n x. unfold shl_int.
      destruct (Z_lt_le_dec (len seen) 32) as [Hlt|Hge].
      * assert (E : (0 <=? 32 - len seen - 1) && (32 - len seen - 1 <? 64) = true).
        { pose proof (len_nonneg seen).
          apply andb_true_iff. split; [apply Z.leb_le|apply Z.ltb_lt]; lia. }
        rewrite E.
        pose proof (len_nonneg seen) as Hs.
        rewrite Z.shiftl_mul_pow2 by lia.
        assert (Hpw : 0 < 2 ^ (32 - len seen - 1) <= 2 ^ 31).
        { split; [apply Z.pow_pos_nonneg; lia|apply Z.pow_le_mono_r; lia]. }
        rewrite wrap64_small by (destruct b; cbn [Z.b2z]; lia).
        rewrite window_short by (unfold len in Hlt; lia).
        rewrite window_short
          by (rewrite length_app; cbn [List.length]; unfold len in Hlt; lia).
        replace (32 - len seen) with ((32 - len seen - 1) + 1) at 1 by lia.
        rewrite lor_shift_bit by lia.
        rewrite bval_app, len_app. change (len [b]) with 1. change (2 ^ 1) with 2.
        change (bval [b]) with (2 * 0 + Z.b2z b).
        f_equal; [lia|f_equal; lia].
      * assert (E : (0 <=? 32 - len seen - 1) && (32 - len seen - 1 <? 64) = false).
        { apply andb_false_iff. left. apply Z.leb_gt. lia. }
        rewrite E, Z.lor_0_r. unfold window.
        rewrite firstn_app.
        replace (32 - List.length seen)%nat with 0%nat by (unfold len in Hge; lia).
        cbn [firstn]. now rewrite app_nil_r.
Qed.

Lemma window_firstn (l : list bool) (k : nat) :
  (32 <= k)%nat -> window (firstn k l) = window l.
Proof.
  intros Hk. unfold window. rewrite firstn_firstn.
  now replace (Nat.min 32 k) with 32%nat by lia.
Qed.

(** [PeekBits(32)] within the buffer: the window on the remaining bits,
    and how many bits were read, which is all of them if they are at most
    40, and 32 otherwise. *)
Lemma PeekBits_spec (br : bitReader) :
  reader_ok br -> rpos br < 8 * len (br_buf br) ->
  PeekBits br 32
  = Ok (window (remaining br),
        if (List.length (remaining br) <=? 40)%nat then len (remaining br) else 32).
Proof.
  intros [Hidx Hbit] Hpos. unfold PeekBits.
  change (Z.to_nat (32 / 8) + 2)%nat with 6%nat.
  rewrite PeekBits_outer_spec; try assumption; try lia.
  - fold (rpos br). fold (remaining br).
    change (peek_steps 32) with 40%nat.
    destruct (List.length (remaining br) <=? 40)%nat.
    + rewrite (peek_acc_window _ [] 0 32 eq_refl eq_refl).
      cbn [app]. repeat f_equal; lia.
    + rewrite (peek_acc_window _ [] 0 32 eq_refl eq_refl).
      cbn [app]. now rewrite window_firstn by lia.
  - intros _. cbn. lia.
Qed.

Lemma BitsAvailable_spec (br : bitReader) :
  BitsAvailable br = 8 * len (br_buf br) - rpos br.
Proof. unfold BitsAvailable, rpos. lia. Qed.

Lemma remaining_length (br : bitReader) :
  reader_ok br -> rpos br <= 8 * len (br_buf br) ->
  len (remaining br) = 8 * len (br_buf br) - rpos br.
Proof.
  intros [Hidx Hbit] Hpos. unfold remaining, len in *.
  rewrite length_skipn, bits_of_bytes_length. unfold rpos in *. lia.
Qed.

Lemma ConsumeBits_spec (br : bitReader) (numBits : Z) :
  reader_ok br -> 0 <= numBits ->
  reader_ok (ConsumeBits br numBits) /\
  rpos (ConsumeBits br numBits) = rpos br + numBits /\
  br_buf (ConsumeBits br numBits) = br_buf br.
Proof.
  intros [Hidx Hbit] Hn. unfold ConsumeBits, reader_ok, rpos.
  cbn [br_index br_bitIndex br_buf].
  rewrite Z.quot_div_nonneg, Z.rem_mod_nonneg by lia.
  pose proof (Z.div_mod (numBits + br_bitIndex br) 8 ltac:(lia)).
  pose proof (Z.mod_pos_bound (numBits + br_bitIndex br) 8 ltac:(lia)).
  assert (0 <= (numBits + br_bitIndex br) / 8) by (apply Z.div_pos; lia).
  repeat split; lia.
Qed.

Lemma remaining_consume (br : bitReader) (numBits : Z) (l1 l2 : list bool) :
  reader_ok br -> remaining br = l1 ++ l2 -> numBits = len l1 ->
  remaining (ConsumeBits br numBits) = l2.
Proof.
  intros Hok Hrem ->.
  destruct (ConsumeBits_spec br (len l1) Hok (len_nonneg l1)) as (_ & Hpos & Hbuf).
  unfold remaining in *. rewrite Hpos, Hbuf.
  destruct Hok as [Hidx Hbit].
  replace (Z.to_nat (rpos br + len l1)) with (List.length l1 + Z.to_nat (rpos br))%nat
    by (unfold rpos, len; lia).
  rewrite <- skipn_skipn, Hrem.
  rewrite skipn_app, skipn_all, Nat.sub_diag. reflexivity.
Qed.

(** ** The walk of [HuffmanDecode] through the lookup tables *)

(** The walk looks at the code through the octets it indexes with only. *)
Lemma lookup_loop_ext (bitIdxs : list Z) (x y : Z) :
  (forall b, In b bitIdxs ->
             Z.land (Z.shiftr x (24 - b)) 255 = Z.land (Z.shiftr y (24 - b)) 255) ->
  forall table, lookup_loop bitIdxs table x = lookup_loop bitIdxs table y.
Proof.
  induction bitIdxs as [|b bitIdxs IH]; intros H table; [reflexivity|].
  cbn [lookup_loop]. rewrite (H b) by now left.
  assert (H' : forall b', In b' bitIdxs ->
               Z.land (Z.shiftr x (24 - b')) 255 = Z.land (Z.shiftr y (24 - b')) 255)
    by (intros b' Hb'; apply H; now right).
  destruct (nth _ table None) as [entry|]; [|now apply IH].
  destruct (entry_nextTable entry); [now apply IH|reflexivity].
Qed.

(** A leaf found in the first rounds is the leaf found by the whole loop. *)
Lemma lookup_loop_prefix (idxs1 idxs2 : list Z) (x : Z) (e : huffmanEntry) :
  forall table,
    lookup_loop idxs1 table x = Some e ->
    lookup_loop (idxs1 ++ idxs2) table x = Some e.
Proof.
  induction idxs1 as [|b idxs1 IH]; intros table H; [discriminate|].
  cbn [lookup_loop app] in *.
  destruct (nth _ table None) as [entry|]; [|now apply IH].
  destruct (entry_nextTable entry); [now apply IH|assumption].
Qed.

(** The bits of [int32(n)] below 32 are those of [n]. *)
Lemma int32_testbit (n i : Z) :
  0 <= i < 32 -> Z.testbit (int32 n) i = Z.testbit n i.
Proof.
  intros Hi. unfold int32.
  rewrite <- (Z.mod_pow2_bits_low (_ - _) 32 i) by lia.
  rewrite <- (Z.mod_pow2_bits_low n 32 i) by lia.
  f_equal.
  rewrite Zminus_mod_idemp_l.
  replace (n + 2 ^ 31 - 2 ^ 31) with n by lia. reflexivity.
Qed.

(** An octet of [int32(n)] is the octet of [n] with the bits below [k]
    cleared, when it lies above them. *)
Lemma int32_octet (n k s : Z) :
  0 <= k <= s -> s + 8 <= 32 ->
  Z.land (Z.shiftr (int32 n) s) 255
  = Z.land (Z.shiftr (Z.shiftl (Z.shiftr n k) k) s) 255.
Proof.
  intros Hk Hs. apply Z.bits_inj'. intros i Hi.
  rewrite !Z.land_spec.
  destruct (Z_lt_le_dec i 8) as [Hlt|Hge].
  - rewrite !Z.shiftr_spec by lia.
    rewrite int32_testbit by lia.
    rewrite Z.shiftl_spec by lia.
    rewrite Z.shiftr_spec by lia.
    do 2 f_equal. lia.
  - change 255 with (Z.ones 8). rewrite Z.ones_spec_high by lia.
    now rewrite !Bool.andb_false_r.
Qed.

Lemma all_codes_leaf_ok (sym : Z) : 0 <= sym < 256 -> code_leaf_ok sym = true.
Proof.
  apply (Z_range_forallb code_leaf_ok 256). vm_compute. reflexivity.
Qed.

Lemma huffmanCode_length (sym : Z) :
  0 <= sym < 256 -> 5 <= snd (huffmanCode sym) <= 30.
Proof.
  intros H. pose proof (all_codes_leaf_ok sym H) as E. unfold code_leaf_ok in E.
  rewrite !Bool.andb_true_iff in E. lia.
Qed.

Lemma huffmanCode_range (sym : Z) :
  0 <= sym < 256 -> 0 <= fst (huffmanCode sym) < 2 ^ snd (huffmanCode sym).
Proof.
  intros H. pose proof (all_codes_leaf_ok sym H) as E. unfold code_leaf_ok in E.
  rewrite !Bool.andb_true_iff in E. lia.
Qed.

(** A window that starts with the code of a symbol leads the walk to the
    leaf of that symbol. *)
Lemma lookup_symbol (sym W : Z) :
  0 <= sym < 256 -> 0 <= W < 2 ^ 32 ->
  W / 2 ^ (32 - snd (huffmanCode sym)) = fst (huffmanCode sym) ->
  is_leaf (lookup_loop [0; 8; 16; 24] lookupTable (int32 W))
          sym (snd (huffmanCode sym)) = true.
Proof.
  intros Hsym HW Hc.
  pose proof (all_codes_leaf_ok sym Hsym) as E. unfold code_leaf_ok in E.
  set (c := fst (huffmanCode sym)) in *.
  set (L := snd (huffmanCode sym)) in *.
  set (nb := (L + 7) / 8) in *.
  rewrite !Bool.andb_true_iff in E.
  destruct E as [[[[HL1 HL2] Hc1] Hc2] Hall].
  apply Z.leb_le in HL1, HL2.
  set (k := 32 - 8 * nb) in *. set (d := 8 * nb - L) in *.
  assert (Hnbd : 1 <= nb <= 4 /\ 0 <= d < 8).
  { subst d nb. pose proof (Z.div_mod (L + 7) 8 ltac:(lia)).
    pose proof (Z.mod_pos_bound (L + 7) 8 ltac:(lia)). lia. }
  destruct Hnbd as [Hnb Hd].
  assert (Hk : 0 <= k) by (subst k; lia).
  set (P := Z.shiftr W k).
  assert (HP : P / 2 ^ d = c).
  { subst P. rewrite Z.shiftr_div_pow2 by lia.
    rewrite Z.div_div by (try apply Z.pow_pos_nonneg; lia).
    rewrite <- Z.pow_add_r by lia.
    replace (k + d) with (32 - L) by (subst k d; lia). exact Hc. }
  assert (Hv : 0 <= P - c * 2 ^ d < 2 ^ d).
  { pose proof (Z.div_mod P (2 ^ d) ltac:(apply Z.pow_nonzero; lia)).
    pose proof (Z.mod_pos_bound P (2 ^ d) ltac:(apply Z.pow_pos_nonneg; lia)).
    rewrite HP in *. lia. }
  rewrite forallb_forall in Hall.
  specialize (Hall (Z.to_nat (P - c * 2 ^ d))).
  rewrite Z2Nat.id in Hall by lia.
  replace (c * 2 ^ d + (P - c * 2 ^ d)) with P in Hall by lia.
  assert (Hin : In (Z.to_nat (P - c * 2 ^ d)) (seq 0 (Z.to_nat (2 ^ d))))
    by (apply in_seq; lia).
  specialize (Hall Hin). clear Hin.
  rewrite <- (lookup_loop_ext _ (int32 W)) in Hall.
  - destruct (lookup_loop (firstn (Z.to_nat nb) [0; 8; 16; 24]) lookupTable (int32 W))
      as [e|] eqn:El; [|discriminate].
    rewrite <- (firstn_skipn (Z.to_nat nb) [0; 8; 16; 24]).
    rewrite (lookup_loop_prefix _ _ _ e _ El). exact Hall.
  - intros b Hb. subst P.
    assert (Hbb : 0 <= b <= 8 * (nb - 1)).
    { assert (Hcases : nb = 1 \/ nb = 2 \/ nb = 3 \/ nb = 4) by lia.
      clear - Hb Hcases.
      destruct Hcases as [E|[E|[E|E]]]; rewrite E in *; simpl in Hb; intuition lia. }
    apply int32_octet; subst k; lia.
Qed.

(** ** [HuffmanDecode] on the output of [HuffmanEncode] *)

(** The window on a bit string starts with the first bits of the string. *)
Lemma window_prefix (l1 l2 : list bool) :
  (List.length l1 <= 32)%nat ->
  window (l1 ++ l2) / 2 ^ (32 - len l1) = bval l1.
Proof.
  intros H1. unfold window.
  rewrite firstn_app, (firstn_all2 l1) by lia.
  set (R := firstn (32 - List.length l1) l2).
  assert (HR : 0 <= len R <= 32 - len l1).
  { unfold len, R. rewrite length_firstn. lia. }
  rewrite len_app, bval_app.
  pose proof (bval_range R) as HbR.
  pose proof (len_nonneg l1) as Hl1.
  set (e := 32 - (len l1 + len R)).
  assert (He : 0 <= e) by (unfold e; lia).
  replace (32 - len l1) with (len R + e) by (unfold e; lia).
  rewrite Z.pow_add_r by lia.
  symmetry. apply (Z.div_unique _ _ _ (bval R * 2 ^ e)).
  - left. split; [apply Z.mul_nonneg_nonneg; [lia|apply Z.pow_nonneg; lia]|].
    apply Z.mul_lt_mono_pos_r; [apply Z.pow_pos_nonneg; lia|lia].
  - ring.
Qed.

Lemma symbol_bits_length (a : byte) :
  len (symbol_bits a) = snd (huffmanCode (Z_of_byte a)).
Proof.
  unfold symbol_bits, len. rewrite code_bits_length.
  pose proof (huffmanCode_length (Z_of_byte a) (Z_of_byte_range a)). lia.
Qed.

Lemma symbol_bits_value (a : byte) :
  bval (symbol_bits a) = fst (huffmanCode (Z_of_byte a)).
Proof.
  unfold symbol_bits.
  pose proof (huffmanCode_length (Z_of_byte a) (Z_of_byte_range a)).
  pose proof (huffmanCode_range (Z_of_byte a) (Z_of_byte_range a)).
  rewrite bval_code_bits by lia.
  rewrite Z2Nat.id by lia. apply Z.mod_small. lia.
Qed.

Lemma padding_leaf (k : nat) :
  (5 <= k < 8)%nat -> padding_leaf_ok k = true.
Proof.
  intros H.
  assert (Hc : k = 5%nat \/ k = 6%nat \/ k = 7%nat) by lia.
  destruct Hc as [->|[->| ->]]; vm_compute; reflexivity.
Qed.

(** One round of the loop on the code of a symbol [a] followed by more
    bits consumes the code and appends [a]. *)
Lemma HuffmanDecode_loop_symbol (fuel : nat) (br : bitReader) (decoded : list byte)
      (a : byte) (rest : list bool) :
  reader_ok br -> remaining br = symbol_bits a ++ rest ->
  HuffmanDecode_loop (S fuel) br decoded
  = HuffmanDecode_loop fuel (ConsumeBits br (len (symbol_bits a))) (decoded ++ [a]).
Proof.
  intros Hok Hrem.
  pose proof (huffmanCode_length (Z_of_byte a) (Z_of_byte_range a)) as HL.
  pose proof (symbol_bits_length a) as Hlen.
  assert (Hpos : rpos br < 8 * len (br_buf br)).
  { destruct (Z_lt_le_dec (rpos br) (8 * len (br_buf br))) as [|Hge]; [assumption|].
    exfalso. unfold remaining in Hrem.
    rewrite skipn_all2 in Hrem.
    - apply (f_equal (@List.length bool)) in Hrem. rewrite length_app in Hrem.
      unfold len in Hlen. cbn in Hrem. lia.
    - rewrite bits_of_bytes_length. unfold len in Hge. lia. }
  pose proof (remaining_length br Hok ltac:(lia)) as Hrl.
  assert (Hge : len (symbol_bits a) <= len (remaining br))
    by (rewrite Hrem, len_app; pose proof (len_nonneg rest); lia).
  cbn [HuffmanDecode_loop].
  rewrite BitsAvailable_spec.
  replace (8 * len (br_buf br) - rpos br >=? 5) with true
    by (symmetry; rewrite Z.geb_leb; apply Z.leb_le; lia).
  rewrite (PeekBits_spec br Hok Hpos). cbn [bind].
  pose proof (lookup_symbol (Z_of_byte a) (window (remaining br))
                (Z_of_byte_range a) (window_range _)) as Hleaf.
  rewrite Hrem in Hleaf at 1.
  rewrite <- Hlen in Hleaf at 1.
  rewrite window_prefix in Hleaf by (unfold len in Hlen; lia).
  specialize (Hleaf (symbol_bits_value a)).
  destruct (lookup_loop [0; 8; 16; 24] lookupTable (int32 (window (remaining br))))
    as [[s b [t|]]|]; try discriminate.
  cbn [is_leaf] in Hleaf. apply andb_true_iff in Hleaf.
  destruct Hleaf as [Hs Hb]. apply Z.eqb_eq in Hs, Hb. subst s b.
  cbn [entry_bits entry_symbol].
  rewrite byte_of_Z_of_byte, Hlen.
  replace (_ >=? snd (huffmanCode (Z_of_byte a))) with true; [reflexivity|].
  symmetry. rewrite Z.geb_leb. apply Z.leb_le.
  destruct (List.length (remaining br) <=? 40)%nat; lia.
Qed.

(** The loop on what is left of the padding returns what was decoded. *)
Lemma HuffmanDecode_loop_padding (fuel : nat) (br : bitReader) (decoded : list byte)
      (k : nat) :
  reader_ok br -> rpos br <= 8 * len (br_buf br) ->
  remaining br = repeat true k -> (k < 8)%nat ->
  HuffmanDecode_loop (S (S fuel)) br decoded = Ok decoded.
Proof.
  intros Hok Hle Hrem Hk.
  pose proof (remaining_length br Hok Hle) as Hrl.
  rewrite Hrem in Hrl. unfold len in Hrl at 1. rewrite repeat_length in Hrl.
  cbn [HuffmanDecode_loop]. rewrite BitsAvailable_spec.
  destruct (8 * len (br_buf br) - rpos br >=? 5) eqn:E; [|reflexivity].
  rewrite Z.geb_leb in E. apply Z.leb_le in E.
  rewrite (PeekBits_spec br Hok ltac:(lia)). cbn [bind].
  pose proof (padding_leaf k ltac:(lia)) as Hp. unfold padding_leaf_ok in Hp.
  rewrite Hrem.
  destruct (lookup_loop [0; 8; 16; 24] lookupTable (int32 (window (repeat true k))))
    as [entry|]; [|discriminate].
  apply andb_true_iff in Hp. destruct Hp as [Hp1 Hp2].
  apply Z.ltb_lt in Hp1. apply Z.leb_le in Hp2.
  rewrite repeat_length.
  replace (k <=? 40)%nat with true by (symmetry; apply Nat.leb_le; lia).
  replace (len (repeat true k)) with (Z.of_nat k)
    by (unfold len; now rewrite repeat_length).
  replace (Z.of_nat k >=? entry_bits entry) with false
    by (symmetry; rewrite Z.geb_leb; apply Z.leb_gt; lia).
  destruct (ConsumeBits_spec br (entry_bits entry) Hok ltac:(lia)) as (_ & Hpos & Hbuf).
  cbn [HuffmanDecode_loop]. rewrite BitsAvailable_spec, Hpos, Hbuf.
  replace (8 * len (br_buf br) - (rpos br + entry_bits entry) >=? 5) with false;
    [reflexivity|].
  symmetry. rewrite Z.geb_leb. apply Z.leb_gt. lia.
Qed.

(** The loop on the codes of [s] followed by padding appends [s]. *)
Lemma HuffmanDecode_loop_enc (s : list byte) :
  forall (fuel : nat) (br : bitReader) (decoded : list byte) (k : nat),
    reader_ok br -> rpos br <= 8 * len (br_buf br) ->
    remaining br = enc_bits s ++ repeat true k -> (k < 8)%nat ->
    (List.length (remaining br) < fuel)%nat ->
    HuffmanDecode_loop fuel br decoded = Ok (decoded ++ s).
Proof.
  induction s as [|a s IH]; intros fuel br decoded k Hok Hle Hrem Hk Hfuel.
  - cbn [enc_bits flat_map app] in Hrem. rewrite app_nil_r.
    pose proof (remaining_length br Hok Hle) as Hrl.
    rewrite Hrem in Hfuel, Hrl. unfold len in Hrl at 1.
    rewrite repeat_length in Hfuel, Hrl.
    destruct fuel as [|[|fuel]]; [lia| |].
    + cbn [HuffmanDecode_loop]. rewrite BitsAvailable_spec.
      replace (_ >=? 5) with false; [reflexivity|].
      symmetry. rewrite Z.geb_leb. apply Z.leb_gt. lia.
    + now apply (HuffmanDecode_loop_padding fuel br decoded k).
  - cbn [enc_bits flat_map] in Hrem. fold (enc_bits s) in Hrem.
    rewrite <- app_assoc in Hrem.
    pose proof (huffmanCode_length (Z_of_byte a) (Z_of_byte_range a)) as HL.
    pose proof (symbol_bits_length a) as Hlen.
    pose proof (remaining_length br Hok Hle) as Hrl.
    assert (Hlr : len (remaining br) = len (symbol_bits a) + len (enc_bits s ++ repeat true k))
      by (now rewrite Hrem, len_app).
    pose proof (len_nonneg (enc_bits s ++ repeat true k)) as Hnn.
    destruct fuel as [|fuel]; [lia|].
    rewrite (HuffmanDecode_loop_symbol fuel br decoded a _ Hok Hrem).
    destruct (ConsumeBits_spec br (len (symbol_bits a)) Hok ltac:(lia))
      as (Hok' & Hpos' & Hbuf').
    pose proof (remaining_consume br (len (symbol_bits a)) _ _ Hok Hrem eq_refl) as Hrem'.
    rewrite (IH fuel _ (decoded ++ [a]) k Hok'); try assumption.
    + now rewrite <- app_assoc.
    + rewrite Hpos', Hbuf'. lia.
    + rewrite Hrem'. unfold len in *. lia.
Qed.

(** Decoding what [HuffmanEncode] made of a byte string gives the byte
    string back, without error. *)
Theorem HuffmanDecode_HuffmanEncode (s : list byte) :
  HuffmanDecode (HuffmanEncode s) = Ok s.
Proof.
  destruct (HuffmanEncode_bits s) as (k & Hk & Hbits).
  unfold HuffmanDecode.
  apply (HuffmanDecode_loop_enc s _ _ [] k).
  - unfold reader_ok, newBitReader. cbn. lia.
  - unfold rpos, newBitReader. cbn [br_index br_bitIndex br_buf].
    pose proof (len_nonneg (HuffmanEncode s)). lia.
  - unfold remaining, rpos, newBitReader. cbn [br_index br_bitIndex br_buf].
    cbn [Z.mul Z.add Z.to_nat skipn]. exact Hbits.
  - exact Hk.
  - unfold remaining, rpos, newBitReader. cbn [br_index br_bitIndex br_buf].
    cbn [Z.mul Z.add Z.to_nat skipn]. rewrite bits_of_bytes_length. lia.
Qed.

(** ** [HuffmanDecode] on any octets *)

Lemma check_lookupTable : check_table 4 lookupTable = true.
Proof. vm_compute. reflexivity. Qed.

(** The leaf at which the walk ends, if any, has 5 to 30 bits. *)
Lemma lookup_loop_bits (bitIdxs : list Z) (code : Z) (e : huffmanEntry) :
  forall (depth : nat) (table : list (option huffmanEntry)),
    check_table depth table = true ->
    lookup_loop bitIdxs table code = Some e ->
    5 <= entry_bits e <= 30.
Proof.
  induction bitIdxs as [|b bitIdxs IH]; intros depth table Hc H; [discriminate|].
  cbn [lookup_loop] in H.
  set (k := Z.to_nat (Z.land (Z.shiftr code (24 - b)) 255)) in *.
  destruct (nth_in_or_default k table None) as [Hin|Hd].
  - destruct (nth k table None) as [[s n [t|]]|] eqn:En.
    + cbn [entry_nextTable] in H.
      destruct depth as [|depth]; cbn [check_table] in Hc;
        rewrite forallb_forall in Hc; specialize (Hc _ Hin); cbn in Hc;
        [discriminate|].
      exact (IH depth t Hc H).
    + cbn [entry_nextTable] in H. injection H as <-.
      destruct depth as [|depth]; cbn [check_table] in Hc;
        rewrite forallb_forall in Hc; specialize (Hc _ Hin); cbn in Hc;
        apply andb_true_iff in Hc; cbn [entry_bits]; lia.
    + exact (IH depth table Hc H).
  - rewrite Hd in H. exact (IH depth table Hc H).
Qed.

Lemma HuffmanDecode_loop_safe (fuel : nat) :
  forall (br : bitReader) (decoded : list byte),
    reader_ok br -> (1 <= fuel)%nat -> BitsAvailable br < Z.of_nat fuel ->
    (exists s, HuffmanDecode_loop fuel br decoded = Ok s)
    \/ HuffmanDecode_loop fuel br decoded = Err ErrHuffmanDecodeFailure.
Proof.
  induction fuel as [|fuel IH]; intros br decoded Hok Hf1 Hfuel; [lia|].
  cbn [HuffmanDecode_loop].
  destruct (BitsAvailable br >=? 5) eqn:E; [|left; now exists decoded].
  rewrite Z.geb_leb in E. apply Z.leb_le in E.
  rewrite BitsAvailable_spec in E, Hfuel.
  rewrite (PeekBits_spec br Hok ltac:(lia)). cbn [bind].
  destruct (lookup_loop [0; 8; 16; 24] lookupTable (int32 (window (remaining br))))
    as [entry|] eqn:El.
  - pose proof (lookup_loop_bits _ _ _ _ _ check_lookupTable El) as Hb.
    destruct (ConsumeBits_spec br (entry_bits entry) Hok ltac:(lia))
      as (Hok' & Hpos' & Hbuf').
    apply IH; [assumption|lia|].
    rewrite BitsAvailable_spec, Hpos', Hbuf'. lia.
  - destruct (_ <=? 7); [left; now exists decoded|now right].
Qed.

(** [HuffmanDecode] returns octets or the error of an invalid code,
    whatever it is given: it does not read past the buffer and its loop
    ends. *)
Lemma HuffmanDecode_safe (encoded : list byte) :
  (exists s, HuffmanDecode encoded = Ok s)
  \/ HuffmanDecode encoded = Err ErrHuffmanDecodeFailure.
Proof.
  unfold HuffmanDecode. apply HuffmanDecode_loop_safe.
  - unfold reader_ok, newBitReader. cbn. lia.
  - lia.
  - rewrite BitsAvailable_spec. unfold rpos, newBitReader, len.
    cbn [br_index br_bitIndex br_buf]. lia.
Qed.

(** ** [Decode] returns *)

Lemma bind_Diverges {A B : Type} (o : outcome A) (f : A -> outcome B) :
  o <> Diverges -> (forall a, f a <> Diverges) -> bind o f <> Diverges.
Proof.
  intros Ho Hf. destruct o; cbn [bind]; try discriminate; [apply Hf|congruence].
Qed.

Lemma decodeInteger_loop_returns (rest : list byte) :
  forall idx m n prefix iMax lMax,
    decodeInteger_loop rest idx m n prefix iMax lMax <> Diverges.
Proof.
  induction rest as [|b rest IH]; intros idx m n prefix iMax lMax; [discriminate|].
  cbn [decodeInteger_loop].
  destruct (Z.land (Z_of_byte b) (Z.shiftl 1 7) =? 0).
  - destruct (_ >? iMax); discriminate.
  - destruct (idx + 1 =? lMax); [discriminate|apply IH].
Qed.

Lemma decodeInteger_returns (buf : list byte) (N iMax lMax : Z) :
  decodeInteger buf N iMax lMax <> Diverges.
Proof.
  unfold decodeInteger. destruct ((N <? 1) || (N >? 8)); [discriminate|].
  destruct buf as [|b0 rest]; [discriminate|].
  destruct (negb _); [discriminate|apply decodeInteger_loop_returns].
Qed.

Lemma HuffmanDecode_returns (encoded : list byte) : HuffmanDecode encoded <> Diverges.
Proof.
  destruct (HuffmanDecode_safe encoded) as [[s H]|H]; rewrite H; discriminate.
Qed.

Lemma readPrefixedLengthString_returns (d : Decoder.t) (buf : list byte) (N : Z) :
  Decoder.readPrefixedLengthString d buf N <> Diverges.
Proof.
  unfold Decoder.readPrefixedLengthString, Decoder.DecodeInteger.
  apply bind_Diverges; [apply decodeInteger_returns|].
  intros [[rest huffman] length].
  destruct (length >? _); [discriminate|].
  destruct (Z.land huffman huffmanEncoded =? huffmanEncoded).
  - destruct (len rest <? length); [discriminate|].
    destruct (Decoder.slice_at rest length) as [[payload rest']|]; [|discriminate].
    apply bind_Diverges; [apply HuffmanDecode_returns|discriminate].
  - destruct (Decoder.slice_at rest length) as [[payload rest']|]; discriminate.
Qed.

Lemma getIndexedNameValue_returns (d : Decoder.t) (index : Z) :
  Decoder.getIndexedNameValue d index <> Diverges.
Proof.
  unfold Decoder.getIndexedNameValue.
  destruct (index >? len staticTable).
  - destruct (_ >? len (Decoder.dynamicTable d)); [discriminate|].
    destruct (index_at (Decoder.dynamicTable d) _); discriminate.
  - destruct (index_at staticTable _); discriminate.
Qed.

Lemma parseHeaderFieldNotIndexed_returns (d : Decoder.t) (buf : list byte) :
  Decoder.parseHeaderFieldNotIndexed d buf <> Diverges.
Proof.
  unfold Decoder.parseHeaderFieldNotIndexed, Decoder.DecodeInteger.
  apply bind_Diverges; [apply decodeInteger_returns|].
  intros [[rest p] index]. destruct (index =? 0).
  - apply bind_Diverges; [apply readPrefixedLengthString_returns|].
    intros [rest1 name].
    apply bind_Diverges; [apply readPrefixedLengthString_returns|].
    intros [rest2 value]. discriminate.
  - apply bind_Diverges; [apply getIndexedNameValue_returns|].
    intros [name v].
    apply bind_Diverges; [apply readPrefixedLengthString_returns|].
    intros [rest2 value]. discriminate.
Qed.

Lemma parseHeaderField_returns (d : Decoder.t) (buf : list byte) :
  snd (Decoder.parseHeaderField d buf) <> Diverges.
Proof.
  unfold Decoder.parseHeaderField.
  destruct buf as [|b0 buf']; [discriminate|].
  set (buf := b0 :: buf').
  destruct (Z.land (Z_of_byte b0) headerFieldIndexed =? headerFieldIndexed).
  { cbn [snd]. apply bind_Diverges; [|intros [rest h]; discriminate].
    unfold Decoder.parseHeaderFieldIndexed, Decoder.DecodeInteger.
    apply bind_Diverges; [apply decodeInteger_returns|].
    intros [[rest p] index].
    apply bind_Diverges; [apply getIndexedNameValue_returns|].
    intros [name value]. discriminate. }
  destruct (Z.land (Z_of_byte b0) headerFieldLiteralIncrementalIndex
            =? headerFieldLiteralIncrementalIndex).
  { unfold Decoder.parseHeaderFieldIncrementalIndex, Decoder.DecodeInteger.
    match goal with
    | |- snd (let (_, _) := match ?o with _ => _ end in _) <> _ =>
        assert (Ho : o <> Diverges); [|destruct o as [[[rest name] value]| | |]]
    end.
    - apply bind_Diverges; [apply decodeInteger_returns|].
      intros [[rest p] index].
      apply bind_Diverges.
      + destruct (index =? 0); [apply readPrefixedLengthString_returns|].
        apply bind_Diverges; [apply getIndexedNameValue_returns|].
        intros [name v]. discriminate.
      + intros [rest1 name].
        apply bind_Diverges; [apply readPrefixedLengthString_returns|].
        intros [rest2 value]. discriminate.
    - cbn. discriminate.
    - cbn. discriminate.
    - cbn. discriminate.
    - congruence. }
  destruct (Z.land (Z_of_byte b0) headerFieldDynamicSizeUpdate
            =? headerFieldDynamicSizeUpdate).
  { unfold Decoder.parseDynamicSizeUpdate, Decoder.DecodeInteger.
    pose proof (decodeInteger_returns buf 5 (Decoder.integerValueMax d)
                  (Decoder.integerEncodedLengthMax d)) as Ho.
    destruct (decodeInteger buf 5 _ _) as [[[consumed p] size]| | |].
    - destruct (size >? _); cbn; discriminate.
    - cbn. discriminate.
    - cbn. discriminate.
    - congruence. }
  destruct (Z.land (Z_of_byte b0) headerFieldLiteralNeverIndexed
            =? headerFieldLiteralNeverIndexed).
  { cbn [snd]. apply bind_Diverges; [|intros [rest h]; discriminate].
    apply parseHeaderFieldNotIndexed_returns. }
  destruct (Z.land (Z_of_byte b0) headerFieldLiteralNotIndexed
            =? headerFieldLiteralNotIndexed).
  { cbn [snd]. apply bind_Diverges; [|intros [rest h]; discriminate].
    apply parseHeaderFieldNotIndexed_returns. }
  cbn. discriminate.
Qed.

(** [Decode] returns on every block, in every state of the decoder: with
    headers, with an error or with a panic, and the loops end. *)
Lemma Decode_returns (d : Decoder.t) (block : list byte) :
  snd (Decoder.Decode d block) <> Diverges.
Proof.
  unfold Decoder.Decode. intros H.
  destruct (Decode_loop_returns (S (List.length block)) d block [] ltac:(lia) H) as (d' & buf' & H').
  exact (parseHeaderField_returns d' buf' H').
Qed.

(** ** String literals *)

Lemma orFirst_0 (bs : list byte) : orFirst 0 bs = bs.
Proof.
  destruct bs as [|b bs]; [reflexivity|]. cbn [orFirst].
  now rewrite Z.lor_0_r, byte_of_Z_of_byte.
Qed.

Lemma slice_at_app (payload rest : list byte) :
  Decoder.slice_at (payload ++ rest) (len payload) = Some (payload, rest).
Proof.
  unfold Decoder.slice_at. pose proof (len_nonneg payload). pose proof (len_nonneg rest).
  rewrite len_app.
  replace (len payload <? 0) with false by (symmetry; apply Z.ltb_ge; lia).
  replace (len payload + len rest <? len payload) with false
    by (symmetry; apply Z.ltb_ge; lia).
  cbn [orb]. unfold len. rewrite Nat2Z.id.
  rewrite firstn_app, skipn_app, Nat.sub_diag, firstn_all, skipn_all.
  cbn. now rewrite app_nil_r.
Qed.

(** What [encodeLiteralString] writes, [readPrefixedLengthString] reads
    back, with or without Huffman coding, when the payload is not longer
    than the decoder allows. *)
Lemma readPrefixedLengthString_encoded (d : Decoder.t) (s suffix : list byte)
      (huffman : bool) :
  default_limits d ->
  len (if huffman then HuffmanEncode s else s) <= DefaultMaxStringLiteralLength ->
  exists enc,
    encodeLiteralString s 7 huffman = Ok enc /\
    Decoder.readPrefixedLengthString d (enc ++ suffix) 7 = Ok (suffix, s).
Proof.
  intros Hlim Hlen. unfold encodeLiteralString.
  set (value := if huffman then HuffmanEncode s else s) in *.
  pose proof (len_nonneg value) as Hnn.
  change DefaultMaxStringLiteralLength with 65536 in Hlen.
  set (flag := if huffman then huffmanEncoded else 0).
  assert (Hflag : 0 <= flag < 256 /\ Z.land flag (Z.ones 7) = 0).
  { unfold flag, huffmanEncoded. destruct huffman; cbn; lia. }
  destruct (DecodeInteger_encoded d (len value) 7 flag (value ++ suffix) Hlim
              ltac:(lia) ltac:(lia) (proj1 Hflag) (proj2 Hflag))
    as (b & bs & Henc & Hb & Hbyte & Hdec).
  rewrite Henc. cbn [bind].
  exists (orFirst flag (b :: bs) ++ value). split.
  - unfold flag. destruct huffman; [reflexivity|]. now rewrite orFirst_0.
  - rewrite <- app_assoc. unfold Decoder.readPrefixedLengthString.
    rewrite Hdec. cbn [bind].
    destruct Hlim as (_ & _ & ->).
    change DefaultMaxStringLiteralLength with 65536.
    replace (len value >? 65536) with false
      by (symmetry; rewrite Z.gtb_ltb; apply Z.ltb_ge; lia).
    rewrite slice_at_app.
    unfold flag, value. destruct huffman.
    + change (Z.land huffmanEncoded huffmanEncoded =? huffmanEncoded) with true.
      cbv iota.
      replace (len (HuffmanEncode s ++ suffix) <? len (HuffmanEncode s)) with false.
      * now rewrite HuffmanDecode_HuffmanEncode.
      * symmetry. apply Z.ltb_ge. rewrite len_app.
        pose proof (len_nonneg suffix). lia.
    + reflexivity.
Qed.

(** ** Parsing the literal representations *)

(** A literal with incremental indexing and a literal name. *)
Lemma parse_incremental_literal (d : Decoder.t) (name value : list byte)
      (huffman : bool) :
  default_limits d -> lit_ok huffman name -> lit_ok huffman value ->
  exists (b : byte) (bs litn litv : list byte),
    encodeInteger 0 6 = Ok (b :: bs) /\
    encodeLiteralString name 7 huffman = Ok litn /\
    encodeLiteralString value 7 huffman = Ok litv /\
    forall suffix : list byte,
      Decoder.parseHeaderField d
        (orFirst headerFieldLiteralIncrementalIndex (b :: bs) ++ litn ++ litv ++ suffix)
      = (Decoder.addNewDynamicEntry d name value,
         Ok (suffix, Some (mkHeader name value false))).
Proof.
  intros Hlim Hn Hv.
  destruct (readPrefixedLengthString_encoded d value [] huffman Hlim Hv)
    as (litv & Elv & _).
  destruct (readPrefixedLengthString_encoded d name [] huffman Hlim Hn)
    as (litn & Eln & _).
  destruct (encodeInteger_first 0 6 ltac:(lia) ltac:(lia)) as (b & bs & Ei & _).
  exists b, bs, litn, litv. repeat (split; [assumption|]).
  intros suffix.
  destruct (readPrefixedLengthString_encoded d value suffix huffman Hlim Hv)
    as (litv' & Elv' & Rv).
  rewrite Elv in Elv'. injection Elv' as <-.
  destruct (readPrefixedLengthString_encoded d name (litv ++ suffix) huffman Hlim Hn)
    as (litn' & Eln' & Rn).
  rewrite Eln in Eln'. injection Eln' as <-.
  destruct (DecodeInteger_encoded d 0 6 headerFieldLiteralIncrementalIndex
              (litn ++ litv ++ suffix) Hlim
              ltac:(lia) ltac:(lia)
              ltac:(unfold headerFieldLiteralIncrementalIndex; lia) eq_refl)
    as (b' & bs' & Henc & Hb & Hbyte & Hdec).
  rewrite Ei in Henc. injection Henc as <- <-.
  cbn [orFirst app] in *.
  unfold Decoder.parseHeaderField. rewrite Hbyte.
  change (2 ^ 6) with 64 in Hb.
  destruct (first_incremental (Z_of_byte b) Hb) as (E1 & E2).
  rewrite E1, E2.
  unfold Decoder.parseHeaderFieldIncrementalIndex. rewrite Hdec. cbn [bind].
  change (0 =? 0) with true. cbv iota.
  rewrite Rn. cbn [bind]. rewrite Rv. reflexivity.
Qed.

(** A literal with incremental indexing and an indexed name. *)
Lemma parse_incremental_indexed (d : Decoder.t) (i : Z) (name v value : list byte)
      (huffman : bool) :
  default_limits d -> 1 <= i <= 2 ^ 32 - 1 ->
  Decoder.getIndexedNameValue d i = Ok (name, v) ->
  lit_ok huffman value ->
  exists (b : byte) (bs litv : list byte),
    encodeInteger i 6 = Ok (b :: bs) /\
    encodeLiteralString value 7 huffman = Ok litv /\
    forall suffix : list byte,
      Decoder.parseHeaderField d
        (orFirst headerFieldLiteralIncrementalIndex (b :: bs) ++ litv ++ suffix)
      = (Decoder.addNewDynamicEntry d name value,
         Ok (suffix, Some (mkHeader name value false))).
Proof.
  intros Hlim Hi Hget Hv.
  destruct (readPrefixedLengthString_encoded d value [] huffman Hlim Hv)
    as (litv & Elv & _).
  destruct (encodeInteger_first i 6 ltac:(lia) ltac:(lia)) as (b & bs & Ei & _).
  exists b, bs, litv. repeat (split; [assumption|]).
  intros suffix.
  destruct (readPrefixedLengthString_encoded d value suffix huffman Hlim Hv)
    as (litv' & Elv' & Rv).
  rewrite Elv in Elv'. injection Elv' as <-.
  destruct (DecodeInteger_encoded d i 6 headerFieldLiteralIncrementalIndex
              (litv ++ suffix) Hlim
              ltac:(lia) ltac:(lia)
              ltac:(unfold headerFieldLiteralIncrementalIndex; lia) eq_refl)
    as (b' & bs' & Henc & Hb & Hbyte & Hdec).
  rewrite Ei in Henc. injection Henc as <- <-.
  cbn [orFirst app] in *.
  unfold Decoder.parseHeaderField. rewrite Hbyte.
  change (2 ^ 6) with 64 in Hb.
  destruct (first_incremental (Z_of_byte b) Hb) as (E1 & E2).
  rewrite E1, E2.
  unfold Decoder.parseHeaderFieldIncrementalIndex. rewrite Hdec. cbn [bind].
  replace (i =? 0) with false by (symmetry; apply Z.eqb_neq; lia).
  rewrite Hget. cbn [bind]. rewrite Rv. reflexivity.
Qed.

(** A never-indexed literal with a literal name. *)
Lemma parse_never_literal (d : Decoder.t) (name value : list byte)
      (huffman : bool) :
  default_limits d -> lit_ok huffman name -> lit_ok huffman value ->
  exists (b : byte) (bs litn litv : list byte),
    encodeInteger 0 4 = Ok (b :: bs) /\
    encodeLiteralString name 7 huffman = Ok litn /\
    encodeLiteralString value 7 huffman = Ok litv /\
    forall suffix : list byte,
      Decoder.parseHeaderField d
        (orFirst headerFieldLiteralNeverIndexed (b :: bs) ++ litn ++ litv ++ suffix)
      = (d,
         Ok (suffix, Some (mkHeader name value true))).
Proof.
  intros Hlim Hn Hv.
  destruct (readPrefixedLengthString_encoded d value [] huffman Hlim Hv)
    as (litv & Elv & _).
  destruct (readPrefixedLengthString_encoded d name [] huffman Hlim Hn)
    as (litn & Eln & _).
  destruct (encodeInteger_first 0 4 ltac:(lia) ltac:(lia)) as (b & bs & Ei & _).
  exists b, bs, litn, litv. repeat (split; [assumption|]).
  intros suffix.
  destruct (readPrefixedLengthString_encoded d value suffix huffman Hlim Hv)
    as (litv' & Elv' & Rv).
  rewrite Elv in Elv'. injection Elv' as <-.
  destruct (readPrefixedLengthString_encoded d name (litv ++ suffix) huffman Hlim Hn)
    as (litn' & Eln' & Rn).
  rewrite Eln in Eln'. injection Eln' as <-.
  destruct (DecodeInteger_encoded d 0 4 headerFieldLiteralNeverIndexed
              (litn ++ litv ++ suffix) Hlim
              ltac:(lia) ltac:(lia)
              ltac:(unfold headerFieldLiteralNeverIndexed; lia) eq_refl)
    as (b' & bs' & Henc & Hb & Hbyte & Hdec).
  rewrite Ei in Henc. injection Henc as <- <-.
  cbn [orFirst app] in *.
  unfold Decoder.parseHeaderField. rewrite Hbyte.
  change (2 ^ 4) with 16 in Hb.
  destruct (first_literal (Z_of_byte b) headerFieldLiteralNeverIndexed Hb
              ltac:(now left)) as (E1 & E2 & E3 & E4 & _).
  rewrite E1, E2, E3, E4. rewrite Z.eqb_refl.
  unfold Decoder.parseHeaderFieldNotIndexed. rewrite Hdec. cbn [bind].
  change (0 =? 0) with true. cbv iota.
  rewrite Rn. cbn [bind]. rewrite Rv. reflexivity.
Qed.

(** A never-indexed literal with an indexed name. *)
Lemma parse_never_indexed (d : Decoder.t) (i : Z) (name v value : list byte)
      (huffman : bool) :
  default_limits d -> 1 <= i <= 2 ^ 32 - 1 ->
  Decoder.getIndexedNameValue d i = Ok (name, v) ->
  lit_ok huffman value ->
  exists (b : byte) (bs litv : list byte),
    encodeInteger i 4 = Ok (b :: bs) /\
    encodeLiteralString value 7 huffman = Ok litv /\
    forall suffix : list byte,
      Decoder.parseHeaderField d
        (orFirst headerFieldLiteralNeverIndexed (b :: bs) ++ litv ++ suffix)
      = (d,
         Ok (suffix, Some (mkHeader name value true))).
Proof.
  intros Hlim Hi Hget Hv.
  destruct (readPrefixedLengthString_encoded d value [] huffman Hlim Hv)
    as (litv & Elv & _).
  destruct (encodeInteger_first i 4 ltac:(lia) ltac:(lia)) as (b & bs & Ei & _).
  exists b, bs, litv. repeat (split; [assumption|]).
  intros suffix.
  destruct (readPrefixedLengthString_encoded d value suffix huffman Hlim Hv)
    as (litv' & Elv' & Rv).
  rewrite Elv in Elv'. injection Elv' as <-.
  destruct (DecodeInteger_encoded d i 4 headerFieldLiteralNeverIndexed
              (litv ++ suffix) Hlim
              ltac:(lia) ltac:(lia)
              ltac:(unfold headerFieldLiteralNeverIndexed; lia) eq_refl)
    as (b' & bs' & Henc & Hb & Hbyte & Hdec).
  rewrite Ei in Henc. injection Henc as <- <-.
  cbn [orFirst app] in *.
  unfold Decoder.parseHeaderField. rewrite Hbyte.
  change (2 ^ 4) with 16 in Hb.
  destruct (first_literal (Z_of_byte b) headerFieldLiteralNeverIndexed Hb
              ltac:(now left)) as (E1 & E2 & E3 & E4 & _).
  rewrite E1, E2, E3, E4. rewrite Z.eqb_refl.
  unfold Decoder.parseHeaderFieldNotIndexed. rewrite Hdec. cbn [bind].
  replace (i =? 0) with false by (symmetry; apply Z.eqb_neq; lia).
  rewrite Hget. cbn [bind]. rewrite Rv. reflexivity.
Qed.

(** ** An encoder and a decoder that go together *)

(** A pending size update comes first in the encoding of a field and
    leaves the rest of it as it is. *)
Lemma encodeHeaderField_pending (e e' : Encoder.t) (h : Header)
      (huffman addDynamicIndex : bool) (su enc : list byte) :
  Encoder.pendingDynamicTableSizeUpdate e = true ->
  encodeInteger (Encoder.dynamicTableSizeMax e) 5 = Ok su ->
  Encoder.encodeHeaderField
    (Encoder.mk (Encoder.dynamicTable e) (Encoder.dynamicTableSizeMax e)
                (Encoder.dynamicTableSizeCurrent e) false) h huffman addDynamicIndex
  = (e', Ok enc) ->
  Encoder.encodeHeaderField e h huffman addDynamicIndex
  = (e', Ok (orFirst headerFieldDynamicSizeUpdate su ++ enc)).
Proof.
  intros Hp Hsu. unfold Encoder.encodeHeaderField. rewrite Hp, Hsu.
  cbn [bind Encoder.pendingDynamicTableSizeUpdate app].
  set (e0 := Encoder.mk _ _ _ false).
  set (pre := orFirst headerFieldDynamicSizeUpdate su).
  destruct (Sensitive h).
  - destruct (negb (findStaticEntryInTable (Name h) =? -1)).
    + destruct (encodeInteger _ 4) as [ix| | |]; cbn [bind]; try discriminate.
      destruct (encodeLiteralString (Value h) 7 huffman) as [lv| | |]; cbn [bind];
        try discriminate.
      intros H. injection H as <- <-. cbn [app]. now rewrite <- app_assoc.
    + destruct (encodeInteger 0 4) as [ix| | |]; cbn [bind]; try discriminate.
      destruct (encodeLiteralString (Name h) 7 huffman) as [ln| | |]; cbn [bind];
        try discriminate.
      destruct (encodeLiteralString (Value h) 7 huffman) as [lv| | |]; cbn [bind];
        try discriminate.
      intros H. injection H as <- <-. cbn [app]. now rewrite <- !app_assoc.
  - change (Encoder.findHeaderInTable e0 (Name h) (Value h))
      with (Encoder.findHeaderInTable e (Name h) (Value h)).
    destruct (Encoder.findHeaderInTable e (Name h) (Value h)) as [index valueIndexed].
    destruct (negb (index =? -1) && valueIndexed).
    + destruct (encodeInteger index 7) as [ix| | |]; cbn [bind]; try discriminate.
      intros H. injection H as <- <-. reflexivity.
    + destruct (if index =? -1 then encodeInteger 0 6 else encodeInteger index 6)
        as [ix| | |]; try discriminate.
      destruct addDynamicIndex.
      * destruct (index =? -1).
        -- destruct (encodeLiteralString (Name h) 7 huffman) as [ln| | |]; cbn [bind];
             try discriminate.
           destruct (encodeLiteralString (Value h) 7 huffman) as [lv| | |]; cbn [bind];
             try discriminate.
           intros H. injection H as <- <-. cbn [app]. now rewrite <- !app_assoc.
        -- cbn [bind].
           destruct (encodeLiteralString (Value h) 7 huffman) as [lv| | |]; cbn [bind];
             try discriminate.
           intros H. injection H as <- <-. cbn [app]. now rewrite <- !app_assoc.
      * destruct (index =? -1).
        -- destruct (encodeLiteralString (Name h) 7 huffman) as [ln| | |]; cbn [bind];
             try discriminate.
           destruct (encodeLiteralString (Value h) 7 huffman) as [lv| | |]; cbn [bind];
             try discriminate.
           intros H. injection H as <- <-. cbn [app]. now rewrite <- !app_assoc.
        -- cbn [bind].
           destruct (encodeLiteralString (Value h) 7 huffman) as [lv| | |]; cbn [bind];
             try discriminate.
           intros H. injection H as <- <-. cbn [app]. now rewrite <- !app_assoc.
Qed.

(** The same insertion keeps the encoder and the decoder together. *)
Lemma synced_add (e : Encoder.t) (d : Decoder.t) (name value : list byte) :
  synced e d ->
  synced (Encoder.addNewDynamicEntry e name value)
         (Decoder.addNewDynamicEntry d name value) /\
  Encoder.pendingDynamicTableSizeUpdate (Encoder.addNewDynamicEntry e name value)
  = Encoder.pendingDynamicTableSizeUpdate e.
Proof.
  intros (Ht & Hm & Hc & Hinv & Hmax & Hlim).
  pose proof (enc_add_inv e name value Hinv) as Hinv'.
  revert Hinv'. unfold synced, enc_inv, default_limits.
  unfold Encoder.addNewDynamicEntry, Decoder.addNewDynamicEntry,
    Encoder.evictEntries, Decoder.evictEntries.
  rewrite <- Ht, <- Hm, <- Hc.
  destruct (evict_loop _ _ _ _) as [[ok rtable] current].
  destruct ok; cbn [negb]; proj_simpl; intros Hinv'; repeat split;
    try reflexivity; try assumption; try apply Hinv'; try apply Hlim.
Qed.

(** A size update to the maximal size that the decoder has leaves the
    decoder as it is. *)
Lemma dec_resize_same (d : Decoder.t) :
  Decoder.dynamicTableSizeCurrent d <= Decoder.dynamicTableSizeMax d ->
  Decoder.SetDynamicTableMaxSize d (Decoder.dynamicTableSizeMax d) = d.
Proof.
  intros H. unfold Decoder.SetDynamicTableMaxSize, Decoder.evictEntries. proj_simpl.
  destruct (rev (Decoder.dynamicTable d)) as [|h t] eqn:E; cbn [evict_loop];
    replace (_ >? Decoder.dynamicTableSizeMax d) with false
      by (symmetry; rewrite Z.gtb_ltb; apply Z.ltb_ge; lia);
    cbn [fst]; rewrite <- E, rev_involutive; now destruct d.
Qed.

(** The joint table is small enough for its indices to be read. *)
Lemma synced_index_bound (e : Encoder.t) (d : Decoder.t) :
  synced e d -> len staticTable + len (Decoder.dynamicTable d) <= 2 ^ 32 - 1.
Proof.
  intros (Ht & Hm & Hc & [Hle Hsz] & Hmax & Hlim).
  pose proof (table_size_length (Encoder.dynamicTable e)) as H.
  rewrite <- Ht. rewrite len_static.
  change DefaultMaxIntegerValue with (2 ^ 32 - 1) in Hmax.
  pose proof (len_nonneg (Encoder.dynamicTable e)).
  assert (32 * len (Encoder.dynamicTable e) <= 2 ^ 32 - 1) by lia.
  change (2 ^ 32 - 1) with 4294967295 in *. lia.
Qed.

(** What the name-only lookup of the static table finds, the decoder
    resolves to that name. *)
Lemma static_name_resolves (d : Decoder.t) (name : list byte) (i : Z) :
  staticTableEncoding name = Some i ->
  1 <= i <= 61 /\ exists v, Decoder.getIndexedNameValue d i = Ok (name, v).
Proof.
  intros Es. pose proof (staticEncoding_range name i Es) as Hi.
  split; [assumption|].
  apply staticEncoding_Some in Es. destruct Es as [[_ [v Hn]] _].
  destruct (getIndexedNameValue_in_range d i) as (_ & Hs & _).
  destruct (Hs ltac:(rewrite len_static; lia)) as (nv & Hnv & Hget).
  rewrite Hn in Hnv. injection Hnv as <-. now exists v.
Qed.

(** What [findHeaderInTable] finds for a header with a name, the decoder
    resolves: with the value also, to the header; without it, to the
    name, and then the index is one of the static table. *)
Lemma findHeaderInTable_resolves (e : Encoder.t) (d : Decoder.t)
      (name value : list byte) (index : Z) (valueIndexed : bool) :
  Encoder.dynamicTable e = Decoder.dynamicTable d -> name <> [] ->
  Encoder.findHeaderInTable e name value = (index, valueIndexed) ->
  index = -1 /\ valueIndexed = false
  \/ 1 <= index <= len staticTable + len (Decoder.dynamicTable d) /\
     valueIndexed = true /\
     Decoder.getIndexedNameValue d index = Ok (name, value)
  \/ 1 <= index <= 61 /\ valueIndexed = false /\
     exists v, Decoder.getIndexedNameValue d index = Ok (name, v).
Proof.
  intros Ht Hname. unfold Encoder.findHeaderInTable.
  destruct (if negb (eqb_bytes value [])
            then staticTableEncodingWithValues (name ++ str ":" ++ value)
            else None) as [i|] eqn:E1.
  - intros H. injection H as <- <-. right. left.
    destruct (negb (eqb_bytes value [])); [|discriminate].
    destruct (staticWithValues_Some name value i Hname E1) as [[Hi Hn] Hle].
    pose proof (len_nonneg (Decoder.dynamicTable d)).
    rewrite len_static. split; [lia|]. split; [reflexivity|].
    destruct (getIndexedNameValue_in_range d i) as (_ & Hs & _).
    destruct (Hs ltac:(rewrite len_static; lia)) as (nv & Hnv & Hget).
    rewrite Hn in Hnv. injection Hnv as <-. exact Hget.
  - destruct (find_index _ (Encoder.dynamicTable e) 0) as [x|] eqn:E2.
    + intros H.
      assert (Hiv : index = len staticTable + x + 1 /\ valueIndexed = true)
        by (split; congruence).
      clear H. destruct Hiv as [-> ->]. right. left.
      apply find_dynamic_Some in E2.
      destruct E2 as [[Hx (h & Hn & Hhn & Hhv)] _].
      rewrite Ht in Hn.
      assert (Hlt : x < len (Decoder.dynamicTable d)).
      { assert (Z.to_nat x < List.length (Decoder.dynamicTable d))%nat
          by (apply nth_error_Some; congruence).
        unfold len. lia. }
      pose proof len_static as Hls.
      split; [lia|]. split; [reflexivity|].
      destruct (getIndexedNameValue_in_range d (len staticTable + x + 1)) as (_ & _ & Hd).
      destruct (Hd ltac:(lia)) as (h' & Hn' & Hget).
      replace (len staticTable + x + 1 - len staticTable - 1) with x in Hn' by lia.
      rewrite Hn in Hn'. injection Hn' as <-.
      now rewrite Hget, Hhn, Hhv.
    + destruct (staticTableEncoding name) as [i|] eqn:E3.
      * intros H. injection H as <- <-. right. right.
        destruct (static_name_resolves d name i E3) as [Hi Hv].
        split; [assumption|]. split; [reflexivity|assumption].
      * intros H. injection H as <- <-. left. now split.
Qed.

(** One header field, with no size update pending: the decoder reads
    back the header and stays together with the encoder. *)
Lemma field_roundtrip_nopending (e : Encoder.t) (d : Decoder.t) (h : Header)
      (huffman : bool) :
  synced e d -> Encoder.pendingDynamicTableSizeUpdate e = false ->
  encodable huffman h ->
  exists (enc : list byte) (e' : Encoder.t) (d' : Decoder.t),
    Encoder.encodeHeaderField e h huffman true = (e', Ok enc) /\
    (forall suffix : list byte,
        Decoder.parseHeaderField d (enc ++ suffix) = (d', Ok (suffix, Some h))) /\
    synced e' d' /\ Encoder.pendingDynamicTableSizeUpdate e' = false.
Proof.
  intros Hs Hp (Hname & Hln & Hlv).
  pose proof (synced_index_bound e d Hs) as Hbound.
  pose proof Hs as (Ht & Hm & Hc & Hinv & Hmax & Hlim).
  destruct h as [name value sens]. cbn [Name Value] in *.
  unfold Encoder.encodeHeaderField. rewrite Hp. cbn [Sensitive Name Value app].
  destruct sens.
  - unfold findStaticEntryInTable.
    destruct (staticTableEncoding name) as [i|] eqn:Es.
    + destruct (static_name_resolves d name i Es) as [Hi [v Hget]].
      replace (negb (i =? -1)) with true
        by (symmetry; apply negb_true_iff, Z.eqb_neq; lia).
      destruct (parse_never_indexed d i name v value huffman Hlim
                  ltac:(lia) Hget Hlv) as (b & bs & litv & Ei & Elv & Hparse).
      rewrite Ei. cbn [bind]. rewrite Elv. cbn [bind].
      exists (orFirst headerFieldLiteralNeverIndexed (b :: bs) ++ litv), e, d.
      split; [reflexivity|]. split; [|now split].
      intros suffix. rewrite <- app_assoc. apply Hparse.
    + change (negb (-1 =? -1)) with false. cbv iota.
      destruct (parse_never_literal d name value huffman Hlim Hln Hlv)
        as (b & bs & litn & litv & Ei & Eln & Elv & Hparse).
      rewrite Ei. cbn [bind]. rewrite Eln. cbn [bind]. rewrite Elv. cbn [bind].
      exists ((orFirst headerFieldLiteralNeverIndexed (b :: bs) ++ litn) ++ litv), e, d.
      split; [reflexivity|]. split; [|now split].
      intros suffix. rewrite <- !app_assoc. apply Hparse.
  - destruct (Encoder.findHeaderInTable e name value) as [index valueIndexed] eqn:Ef.
    destruct (findHeaderInTable_resolves e d name value index valueIndexed Ht Hname Ef)
      as [[-> ->]|[(Hi & -> & Hget)|(Hi & -> & v & Hget)]].
    + change (negb (-1 =? -1) && false) with false. cbv iota.
      change (-1 =? -1) with true. cbv iota.
      destruct (parse_incremental_literal d name value huffman Hlim Hln Hlv)
        as (b & bs & litn & litv & Ei & Eln & Elv & Hparse).
      rewrite Ei. cbn [bind]. rewrite Eln. cbn [bind]. rewrite Elv. cbn [bind].
      destruct (synced_add e d name value Hs) as [Hs' Hp'].
      exists ((orFirst headerFieldLiteralIncrementalIndex (b :: bs) ++ litn) ++ litv),
        (Encoder.addNewDynamicEntry e name value),
        (Decoder.addNewDynamicEntry d name value).
      split; [reflexivity|]. split; [|split; [assumption|congruence]].
      intros suffix. rewrite <- !app_assoc. apply Hparse.
    + replace (negb (index =? -1) && true) with true
        by (symmetry; apply andb_true_iff; split;
            [apply negb_true_iff, Z.eqb_neq; lia|reflexivity]).
      destruct (encodeInteger_first index 7 ltac:(lia) ltac:(lia)) as (b & bs & Ei & _).
      rewrite Ei. cbn [bind].
      exists (orFirst headerFieldIndexed (b :: bs)), e, d.
      split; [reflexivity|]. split; [|now split].
      intros suffix.
      destruct (parse_indexed d index suffix name value Hlim ltac:(lia) Hget)
        as (b' & bs' & Ei' & Hparse).
      rewrite Ei in Ei'. injection Ei' as <- <-. exact Hparse.
    + rewrite andb_false_r.
      replace (index =? -1) with false by (symmetry; apply Z.eqb_neq; lia).
      destruct (parse_incremental_indexed d index name v value huffman Hlim
                  ltac:(lia) Hget Hlv) as (b & bs & litv & Ei & Elv & Hparse).
      rewrite Ei. cbn [bind]. rewrite Elv. cbn [bind].
      destruct (synced_add e d name value Hs) as [Hs' Hp'].
      exists (orFirst headerFieldLiteralIncrementalIndex (b :: bs) ++ litv),
        (Encoder.addNewDynamicEntry e name value),
        (Decoder.addNewDynamicEntry d name value).
      split; [reflexivity|]. split; [|split; [assumption|congruence]].
      intros suffix. rewrite <- !app_assoc. apply Hparse.
Qed.

(** ** [Decode] on the output of [Encode] *)

(** One header field as [EncodeIndexed] writes it, with the size update
    that may come before it: the loop of [Decode] reads back the header
    and goes on with what follows. *)
Lemma field_roundtrip (e : Encoder.t) (d : Decoder.t) (h : Header) (huffman : bool) :
  synced e d -> encodable huffman h ->
  exists (enc : list byte) (e' : Encoder.t) (d' : Decoder.t),
    Encoder.EncodeIndexed e h huffman = (e', Ok enc) /\
    (forall (suffix : list byte) (headers : list Header),
        Decoder.Decode_loop (S (List.length (enc ++ suffix))) d (enc ++ suffix) headers
        = Decoder.Decode_loop (S (List.length suffix)) d' suffix (headers ++ [h])) /\
    synced e' d' /\ Encoder.pendingDynamicTableSizeUpdate e' = false.
Proof.
  intros Hs Hh. unfold Encoder.EncodeIndexed.
  destruct (Encoder.pendingDynamicTableSizeUpdate e) eqn:Hp.
  - pose proof Hs as (Ht & Hm & Hc & Hinv & Hmax & Hlim).
    set (e0 := Encoder.mk (Encoder.dynamicTable e) (Encoder.dynamicTableSizeMax e)
                          (Encoder.dynamicTableSizeCurrent e) false).
    assert (Hs0 : synced e0 d) by (unfold synced, enc_inv in *; now proj_simpl).
    destruct (field_roundtrip_nopending e0 d h huffman Hs0 eq_refl Hh)
      as (enc & e' & d' & Henc & Hparse & Hs' & Hp').
    destruct Hinv as [Hle Hsz].
    pose proof (table_size_nonneg (Encoder.dynamicTable e)) as Hnn.
    change DefaultMaxIntegerValue with (2 ^ 32 - 1) in Hmax.
    destruct (encodeInteger_first (Encoder.dynamicTableSizeMax e) 5
                ltac:(lia) ltac:(lia)) as (b & bs & Esu & _).
    exists (orFirst headerFieldDynamicSizeUpdate (b :: bs) ++ enc), e', d'.
    split; [now apply encodeHeaderField_pending|].
    split; [|now split].
    intros suffix headers.
    destruct (parse_size_update d (Encoder.dynamicTableSizeMax e) (enc ++ suffix) Hlim
                ltac:(lia) ltac:(lia)) as (b' & bs' & Esu' & Hsu).
    rewrite Esu in Esu'. injection Esu' as <- <-.
    rewrite Hm, dec_resize_same in Hsu by lia.
    rewrite <- app_assoc.
    rewrite (Decode_loop_field d d _ (enc ++ suffix) None headers Hsu).
    now rewrite (Decode_loop_field d d' _ suffix (Some h) headers (Hparse suffix)).
  - destruct (field_roundtrip_nopending e d h huffman Hs Hp Hh)
      as (enc & e' & d' & Henc & Hparse & Hs' & Hp').
    exists enc, e', d'. split; [assumption|]. split; [|now split].
    intros suffix headers.
    now rewrite (Decode_loop_field d d' _ suffix (Some h) headers (Hparse suffix)).
Qed.

(** The loops of [encode] and [Decode], header by header. *)
Lemma encode_decode_loop (huffman : bool) (hs : list Header) :
  forall (e : Encoder.t) (d : Decoder.t) (acc : list byte),
    synced e d -> Forall (encodable huffman) hs ->
    exists (block : list byte) (e' : Encoder.t) (d' : Decoder.t),
      Encoder.encode_loop e hs huffman acc = (e', Ok (acc ++ block)) /\
      (forall (suffix : list byte) (headers : list Header),
          Decoder.Decode_loop (S (List.length (block ++ suffix))) d (block ++ suffix)
                              headers
          = Decoder.Decode_loop (S (List.length suffix)) d' suffix (headers ++ hs)) /\
      synced e' d'.
Proof.
  induction hs as [|h hs IH]; intros e d acc Hs Hall.
  - exists [], e, d. cbn [Encoder.encode_loop app]. rewrite app_nil_r.
    split; [reflexivity|]. split; [|assumption].
    intros suffix headers. now rewrite app_nil_r.
  - inversion Hall as [|h' hs' Hh Hall']; subst.
    destruct (field_roundtrip e d h huffman Hs Hh)
      as (enc & e1 & d1 & Henc & Hdec & Hs1 & _).
    destruct (IH e1 d1 (acc ++ enc) Hs1 Hall') as (block & e' & d' & Hencs & Hdecs & Hs').
    exists (enc ++ block), e', d'.
    split; [|split; [|assumption]].
    + cbn [Encoder.encode_loop]. rewrite Henc, Hencs. now rewrite app_assoc.
    + intros suffix headers. rewrite <- app_assoc.
      rewrite Hdec, Hdecs. now rewrite <- app_assoc.
Qed.

(** A block written by [encode] (with or without Huffman coding) for an
    encoder that goes together with the decoder is decoded by [Decode] to
    the headers that were encoded, and the two still go together. *)
Lemma encode_Decode (e : Encoder.t) (d : Decoder.t) (hs : list Header) (huffman : bool) :
  synced e d -> Forall (encodable huffman) hs ->
  exists (block : list byte) (e' : Encoder.t) (d' : Decoder.t),
    Encoder.encode e hs huffman = (e', Ok block) /\
    Decoder.Decode d block = (d', Ok hs) /\
    synced e' d'.
Proof.
  intros Hs Hall.
  destruct (encode_decode_loop huffman hs e d [] Hs Hall)
    as (block & e' & d' & Henc & Hdec & Hs').
  exists block, e', d'. split; [exact Henc|]. split; [|assumption].
  unfold Decoder.Decode. specialize (Hdec [] []).
  rewrite app_nil_r in Hdec. rewrite Hdec. reflexivity.
Qed.

(** An encoder and a decoder made with the same maximal size go together,
    and so they do after the same change of the maximal size. *)
Lemma synced_new (m : Z) :
  0 <= m <= DefaultMaxIntegerValue ->
  synced (Encoder.NewEncoder m) (Decoder.NewDecoder m).
Proof.
  intros Hm. unfold synced, enc_inv, size_inv, default_limits,
    Encoder.NewEncoder, Decoder.NewDecoder. proj_simpl.
  repeat split; try reflexivity; lia.
Qed.

Lemma synced_resize (e : Encoder.t) (d : Decoder.t) (n : Z) :
  0 <= n <= DefaultMaxIntegerValue -> synced e d ->
  synced (Encoder.SetDynamicTableMaxSize e n) (Decoder.SetDynamicTableMaxSize d n).
Proof.
  intros Hn (Ht & Hm & Hc & Hinv & Hmax & Hlim).
  pose proof (enc_resize_inv e n ltac:(lia) Hinv) as Hinv'.
  revert Hinv'. unfold synced, enc_inv, default_limits.
  unfold Encoder.SetDynamicTableMaxSize, Decoder.SetDynamicTableMaxSize,
    Encoder.evictEntries, Decoder.evictEntries. proj_simpl.
  rewrite <- Ht, <- Hc.
  destruct (evict_loop _ _ _ _) as [[ok rtable] current]. proj_simpl.
  intros Hinv'. repeat split; try reflexivity; try apply Hinv'; try apply Hlim; lia.
Qed.

(** ** The length of [HuffmanEncode] *)

Lemma enc_bits_length (s : list byte) :
  5 * len s <= len (enc_bits s) <= 30 * len s.
Proof.
  induction s as [|a s IH]; [cbn; lia|].
  cbn [enc_bits flat_map]. fold (enc_bits s). rewrite len_app, symbol_bits_length.
  pose proof (huffmanCode_length (Z_of_byte a) (Z_of_byte_range a)).
  assert (len (a :: s) = 1 + len s) by (unfold len; cbn [List.length]; lia).
  lia.
Qed.

(** [HuffmanEncode] writes between 5 and 30 bits for each octet, and
    fills the last octet. *)
Lemma HuffmanEncode_length (s : list byte) :
  5 * len s <= 8 * len (HuffmanEncode s) <= 30 * len s + 7.
Proof.
  destruct (HuffmanEncode_bits s) as (k & Hk & Hbits).
  apply (f_equal (@List.length bool)) in Hbits.
  rewrite bits_of_bytes_length, length_app, repeat_length in Hbits.
  pose proof (enc_bits_length s) as H. unfold len in *. lia.
Qed.

(** ** The eviction loop *)

(** The loop evicts from the end of the table, and an entry only when the
    entries before it and the additional size do not fit. *)
Lemma evict_loop_suffix (rtable : list Header) :
  forall (current additionalSize maxSize : Z) (ok : bool) (rtable' : list Header)
         (current' : Z),
    current = table_size rtable ->
    evict_loop rtable current additionalSize maxSize = (ok, rtable', current') ->
    exists evicted,
      rtable = evicted ++ rtable' /\
      forall ev1 h ev2,
        evicted = ev1 ++ h :: ev2 ->
        table_size (h :: ev2 ++ rtable') + additionalSize > maxSize.
Proof.
  induction rtable as [|h rtable IH];
    intros current additionalSize maxSize ok rtable' current' Hc H.
  - cbn [evict_loop] in H. exists [].
    split.
    + destruct (_ >? maxSize); injection H as <- <- <-; reflexivity.
    + intros [|? ?] ? ? Hev; discriminate.
  - cbn [evict_loop] in H.
    destruct (current + additionalSize >? maxSize) eqn:E.
    + cbn [table_size] in Hc. unfold entrySize in Hc.
      destruct (IH (current - (32 + len (Name h) + len (Value h)))
                  additionalSize maxSize ok rtable' current' ltac:(lia) H)
        as (evicted & Hrt & Hev).
      exists (h :: evicted). split; [now rewrite Hrt|].
      intros [|x ev1] h' ev2 Heq; cbn [app] in Heq; injection Heq as -> ->.
      * rewrite <- Hrt. apply Z.gtb_lt in E. cbn [table_size]. unfold entrySize. lia.
      * eapply Hev. reflexivity.
    + injection H as <- <- <-. exists []. split; [reflexivity|].
      intros [|? ?] ? ? Hev; discriminate.
Qed.

Lemma evicted_oldest (table table' : list Header) (additionalSize maxSize : Z)
      (ok : bool) (rtable' : list Header) (current current' : Z) :
  current = table_size table ->
  evict_loop (rev table) current additionalSize maxSize = (ok, rtable', current') ->
  table' = rev rtable' ->
  exists old,
    table = table' ++ old /\
    forall h old', old = h :: old' ->
                   table_size (table' ++ [h]) + additionalSize > maxSize.
Proof.
  intros Hc H ->.
  destruct (evict_loop_suffix (rev table) current additionalSize maxSize ok rtable'
              current' ltac:(now rewrite table_size_rev) H) as (evicted & Hrt & Hev).
  exists (rev evicted). split.
  - rewrite <- rev_app_distr, <- Hrt. now rewrite rev_involutive.
  - intros h old' Hold.
    assert (Hevd : evicted = rev old' ++ h :: []).
    { rewrite <- (rev_involutive evicted), Hold. reflexivity. }
    specialize (Hev _ _ _ Hevd). cbn [app] in Hev.
    rewrite table_size_app, table_size_rev. cbn [table_size] in *. lia.
Qed.

(** ** A raw string literal that is longer than the buffer *)

Lemma readPrefixedLengthString_raw_short (d : Decoder.t) (buf rest : list byte)
      (N p length : Z) :
  Decoder.DecodeInteger d buf N = Ok (rest, p, length) ->
  length <= Decoder.stringLiteralLengthMax d ->
  Z.land p huffmanEncoded <> huffmanEncoded ->
  len rest < length ->
  Decoder.readPrefixedLengthString d buf N = Panic PanicSliceBounds.
Proof.
  intros Hdec Hmax Hflag Hshort.
  unfold Decoder.readPrefixedLengthString. rewrite Hdec. cbn [bind].
  replace (length >? _) with false by (symmetry; rewrite Z.gtb_ltb; apply Z.ltb_ge; lia).
  replace (Z.land p huffmanEncoded =? huffmanEncoded) with false
    by (symmetry; now apply Z.eqb_neq).
  unfold Decoder.slice_at.
  replace (len rest <? length) with true by (symmetry; apply Z.ltb_lt; lia).
  now rewrite orb_true_r.
Qed.

(** ** A literal without indexing and the prefix of its index *)



(** ** A sensitive header and the dynamic table *)

(** The encoder does not put a sensitive header into its dynamic table:
    the table and its sizes stay as they are. *)
Lemma sensitive_not_indexed (e : Encoder.t) (h : Header) (huffman addDynamicIndex : bool) :
  Sensitive h = true ->
  Encoder.dynamicTable (fst (Encoder.encodeHeaderField e h huffman addDynamicIndex))
  = Encoder.dynamicTable e /\
  Encoder.dynamicTableSizeCurrent
    (fst (Encoder.encodeHeaderField e h huffman addDynamicIndex))
  = Encoder.dynamicTableSizeCurrent e /\
  Encoder.dynamicTableSizeMax (fst (Encoder.encodeHeaderField e h huffman addDynamicIndex))
  = Encoder.dynamicTableSizeMax e.
Proof.
  intros Hs. unfold Encoder.encodeHeaderField. rewrite Hs.
  destruct (Encoder.pendingDynamicTableSizeUpdate e).
  - destruct (encodeInteger (Encoder.dynamicTableSizeMax e) 5); cbn [bind fst];
      now repeat split.
  - cbn [fst]. now repeat split.
Qed.

(** ** The value of a decoded integer *)

Lemma decodeInteger_loop_bound (rest : list byte) :
  forall (idx m n prefix iMax lMax : Z) (r : list byte) (p v : Z),
    decodeInteger_loop rest idx m n prefix iMax lMax = Ok (r, p, v) -> v <= iMax.
Proof.
  induction rest as [|b rest IH]; intros idx m n prefix iMax lMax r p v H;
    [discriminate|].
  cbn [decodeInteger_loop] in H.
  destruct (Z.land (Z_of_byte b) (Z.shiftl 1 7) =? 0).
  - destruct (_ >? iMax) eqn:E; [discriminate|].
    injection H as _ _ <-. rewrite Z.gtb_ltb in E. apply Z.ltb_ge in E. exact E.
  - destruct (idx + 1 =? lMax); [discriminate|]. exact (IH _ _ _ _ _ _ _ _ _ H).
Qed.

Lemma decodeInteger_bound (buf : list byte) (N iMax lMax : Z) (r : list byte) (p v : Z) :
  decodeInteger buf N iMax lMax = Ok (r, p, v) ->
  v < 2 ^ N - 1 \/ v <= iMax.
Proof.
  unfold decodeInteger. destruct ((N <? 1) || (N >? 8)) eqn:EN; [discriminate|].
  apply orb_false_iff in EN. destruct EN as [E1 E8].
  apply Z.ltb_ge in E1. rewrite Z.gtb_ltb in E8. apply Z.ltb_ge in E8.
  destruct buf as [|b0 rest]; [discriminate|].
  rewrite mask_is_ones by lia.
  destruct (negb _) eqn:E.
  - intros H. injection H as _ _ <-. left.
    apply negb_true_iff, Z.eqb_neq in E.
    pose proof (Z_of_byte_range b0) as Hb.
    rewrite Z.land_comm, Z.land_ones in * by lia.
    pose proof (Z.mod_pos_bound (Z_of_byte b0) (2 ^ N) ltac:(apply Z.pow_pos_nonneg; lia)).
    unfold Z.ones in E. rewrite Z.shiftl_1_l in E. lia.
  - intros H. right. exact (decodeInteger_loop_bound _ _ _ _ _ _ _ _ _ _ H).
Qed.

(** ** Octets after a field *)

Lemma decodeInteger_loop_app (rest suffix : list byte) :
  forall (idx m n prefix iMax lMax : Z) (r : list byte) (p v : Z),
    decodeInteger_loop rest idx m n prefix iMax lMax = Ok (r, p, v) ->
    decodeInteger_loop (rest ++ suffix) idx m n prefix iMax lMax = Ok (r ++ suffix, p, v).
Proof.
  induction rest as [|b rest IH]; intros idx m n prefix iMax lMax r p v H;
    [discriminate|].
  cbn [decodeInteger_loop app] in *.
  destruct (Z.land (Z_of_byte b) (Z.shiftl 1 7) =? 0).
  - destruct (_ >? iMax); [discriminate|]. now injection H as <- <- <-.
  - destruct (idx + 1 =? lMax); [discriminate|]. now apply IH.
Qed.

Lemma decodeInteger_app (buf suffix : list byte) (N iMax lMax : Z)
      (r : list byte) (p v : Z) :
  decodeInteger buf N iMax lMax = Ok (r, p, v) ->
  decodeInteger (buf ++ suffix) N iMax lMax = Ok (r ++ suffix, p, v).
Proof.
  unfold decodeInteger. destruct ((N <? 1) || (N >? 8)); [discriminate|].
  destruct buf as [|b0 rest]; [discriminate|]. cbn [app].
  destruct (negb _).
  - intros H. now injection H as <- <- <-.
  - apply decodeInteger_loop_app.
Qed.

Lemma slice_at_app_suffix (rest suffix payload rest' : list byte) (length : Z) :
  Decoder.slice_at rest length = Some (payload, rest') ->
  Decoder.slice_at (rest ++ suffix) length = Some (payload, rest' ++ suffix).
Proof.
  intros H. destruct (slice_at_Some _ _ _ _ H) as (Hl & Hp & Hr & _).
  unfold Decoder.slice_at. rewrite len_app. pose proof (len_nonneg suffix).
  replace (length <? 0) with false by (symmetry; apply Z.ltb_ge; lia).
  replace (len rest + len suffix <? length) with false by (symmetry; apply Z.ltb_ge; lia).
  cbn [orb]. unfold len in Hl.
  rewrite firstn_app, skipn_app.
  replace (Z.to_nat length - List.length rest)%nat with 0%nat by lia.
  cbn [firstn skipn]. now rewrite app_nil_r, <- Hp, <- Hr.
Qed.

Lemma readPrefixedLengthString_app (d : Decoder.t) (buf suffix : list byte) (N : Z)
      (r s : list byte) :
  Decoder.readPrefixedLengthString d buf N = Ok (r, s) ->
  Decoder.readPrefixedLengthString d (buf ++ suffix) N = Ok (r ++ suffix, s).
Proof.
  unfold Decoder.readPrefixedLengthString, Decoder.DecodeInteger.
  destruct (decodeInteger buf N _ _) as [[[rest huffman] length]| | |] eqn:E;
    cbn [bind]; try discriminate.
  rewrite (decodeInteger_app _ suffix _ _ _ _ _ _ E). cbn [bind].
  destruct (length >? _); [discriminate|].
  destruct (Z.land huffman huffmanEncoded =? huffmanEncoded).
  - destruct (len rest <? length) eqn:El; [discriminate|].
    apply Z.ltb_ge in El. rewrite len_app. pose proof (len_nonneg suffix) as Hsfx.
    replace (len rest + len suffix <? length) with false
      by (symmetry; apply Z.ltb_ge; lia).
    destruct (Decoder.slice_at rest length) as [[payload rest']|] eqn:Es;
      [|discriminate].
    rewrite (slice_at_app_suffix _ suffix _ _ _ Es).
    destruct (HuffmanDecode payload); cbn [bind]; try discriminate.
    intros Heq. now injection Heq as <- <-.
  - destruct (Decoder.slice_at rest length) as [[payload rest']|] eqn:Es;
      [|discriminate].
    rewrite (slice_at_app_suffix _ suffix _ _ _ Es).
    intros H. now injection H as <- <-.
Qed.

Lemma parseHeaderFieldNotIndexed_app (d : Decoder.t) (buf suffix r : list byte)
      (h : Header) :
  Decoder.parseHeaderFieldNotIndexed d buf = Ok (r, h) ->
  Decoder.parseHeaderFieldNotIndexed d (buf ++ suffix) = Ok (r ++ suffix, h).
Proof.
  unfold Decoder.parseHeaderFieldNotIndexed, Decoder.DecodeInteger.
  destruct (decodeInteger buf 4 _ _) as [[[rest p] index]| | |] eqn:E;
    cbn [bind]; try discriminate.
  rewrite (decodeInteger_app _ suffix _ _ _ _ _ _ E). cbn [bind].
  destruct (index =? 0).
  - destruct (Decoder.readPrefixedLengthString d rest 7) as [[rest1 name]| | |] eqn:E1;
      cbn [bind]; try discriminate.
    rewrite (readPrefixedLengthString_app _ _ suffix _ _ _ E1). cbn [bind].
    destruct (Decoder.readPrefixedLengthString d rest1 7) as [[rest2 value]| | |] eqn:E2;
      cbn [bind]; try discriminate.
    rewrite (readPrefixedLengthString_app _ _ suffix _ _ _ E2). cbn [bind].
    intros Heq. now injection Heq as <- <-.
  - destruct (Decoder.getIndexedNameValue d index) as [[name v]| | |];
      cbn [bind]; try discriminate.
    destruct (Decoder.readPrefixedLengthString d rest 7) as [[rest2 value]| | |] eqn:E2;
      cbn [bind]; try discriminate.
    rewrite (readPrefixedLengthString_app _ _ suffix _ _ _ E2). cbn [bind].
    intros Heq. now injection Heq as <- <-.
Qed.

(** A field that parses is parsed in the same way when more octets
    follow, and these are left. *)
Lemma parseHeaderField_app (d d' : Decoder.t) (buf suffix r : list byte)
      (oh : option Header) :
  Decoder.parseHeaderField d buf = (d', Ok (r, oh)) ->
  Decoder.parseHeaderField d (buf ++ suffix) = (d', Ok (r ++ suffix, oh)).
Proof.
  unfold Decoder.parseHeaderField.
  destruct buf as [|b0 buf']; [discriminate|].
  cbn [app]. change (b0 :: buf' ++ suffix) with ((b0 :: buf') ++ suffix).
  set (buf := b0 :: buf').
  destruct (Z.land (Z_of_byte b0) headerFieldIndexed =? headerFieldIndexed).
  { unfold Decoder.parseHeaderFieldIndexed, Decoder.DecodeInteger.
    destruct (decodeInteger buf 7 _ _) as [[[rest p] index]| | |] eqn:E;
      cbn [bind]; try discriminate.
    rewrite (decodeInteger_app _ suffix _ _ _ _ _ _ E). cbn [bind].
    destruct (Decoder.getIndexedNameValue d index) as [[name value]| | |];
      cbn [bind]; try discriminate.
    intros Heq. now injection Heq as <- <- <-. }
  destruct (Z.land (Z_of_byte b0) headerFieldLiteralIncrementalIndex
            =? headerFieldLiteralIncrementalIndex).
  { unfold Decoder.parseHeaderFieldIncrementalIndex, Decoder.DecodeInteger.
    destruct (decodeInteger buf 6 _ _) as [[[rest p] index]| | |] eqn:E;
      cbn [bind]; try discriminate.
    rewrite (decodeInteger_app _ suffix _ _ _ _ _ _ E). cbn [bind].
    destruct (index =? 0).
    - destruct (Decoder.readPrefixedLengthString d rest 7) as [[rest1 name]| | |] eqn:E1;
        cbn [bind]; try discriminate.
      rewrite (readPrefixedLengthString_app _ _ suffix _ _ _ E1). cbn [bind].
      destruct (Decoder.readPrefixedLengthString d rest1 7) as [[rest2 value]| | |] eqn:E2;
        cbn [bind]; try discriminate.
      rewrite (readPrefixedLengthString_app _ _ suffix _ _ _ E2). cbn [bind].
      intros Heq. now injection Heq as <- <- <-.
    - destruct (Decoder.getIndexedNameValue d index) as [[name v]| | |];
        cbn [bind]; try discriminate.
      destruct (Decoder.readPrefixedLengthString d rest 7) as [[rest2 value]| | |] eqn:E2;
        cbn [bind]; try discriminate.
      rewrite (readPrefixedLengthString_app _ _ suffix _ _ _ E2). cbn [bind].
      intros Heq. now injection Heq as <- <- <-. }
  destruct (Z.land (Z_of_byte b0) headerFieldDynamicSizeUpdate
            =? headerFieldDynamicSizeUpdate).
  { unfold Decoder.parseDynamicSizeUpdate, Decoder.DecodeInteger.
    destruct (decodeInteger buf 5 _ _) as [[[consumed p] size]| | |] eqn:E;
      cbn [bind]; try discriminate.
    rewrite (decodeInteger_app _ suffix _ _ _ _ _ _ E).
    destruct (size >? _); cbn [bind]; try discriminate.
    intros Heq. now injection Heq as <- <- <-. }
  destruct (Z.land (Z_of_byte b0) headerFieldLiteralNeverIndexed
            =? headerFieldLiteralNeverIndexed).
  { destruct (Decoder.parseHeaderFieldNotIndexed d buf) as [[rest h]| | |] eqn:E;
      cbn [bind]; try discriminate.
    rewrite (parseHeaderFieldNotIndexed_app _ _ suffix _ _ E). cbn [bind].
    intros Heq. now injection Heq as <- <- <-. }
  destruct (Z.land (Z_of_byte b0) headerFieldLiteralNotIndexed
            =? headerFieldLiteralNotIndexed); [|discriminate].
  destruct (Decoder.parseHeaderFieldNotIndexed d buf) as [[rest h]| | |] eqn:E;
    cbn [bind]; try discriminate.
  rewrite (parseHeaderFieldNotIndexed_app _ _ suffix _ _ E). cbn [bind].
  intros Heq. now injection Heq as <- <- <-.
Qed.

(** The headers that the loop of [Decode] starts with stay in front. *)
Lemma Decode_loop_headers (fuel : nat) :
  forall (d d' : Decoder.t) (buf : list byte) (hs0 hs r : list Header),
    Decoder.Decode_loop fuel d buf hs0 = (d', Ok r) ->
    Decoder.Decode_loop fuel d buf (hs ++ hs0) = (d', Ok (hs ++ r)).
Proof.
  induction fuel as [|fuel IH]; intros d d' buf hs0 hs r H; [discriminate|].
  rewrite Decode_loop_S in *.
  destruct (len buf >? 0).
  - destruct (Decoder.parseHeaderField d buf) as [d1 [[buf1 oh]| | |]];
      try discriminate.
    destruct oh as [h|].
    + rewrite <- app_assoc. now apply IH.
    + now apply IH.
  - injection H as <- <-. reflexivity.
Qed.

(** The loop of [Decode] on a block that it decodes, followed by more
    octets, goes on with these octets. *)
Lemma Decode_loop_app (fuel : nat) :
  forall (d d1 : Decoder.t) (b1 b2 : list byte) (hs hs1 : list Header),
    Decoder.Decode_loop fuel d b1 hs = (d1, Ok hs1) ->
    Decoder.Decode_loop (fuel + List.length b2) d (b1 ++ b2) hs
    = Decoder.Decode_loop (S (List.length b2)) d1 b2 hs1.
Proof.
  induction fuel as [|fuel IH]; intros d d1 b1 b2 hs hs1 H; [discriminate|].
  rewrite Decode_loop_S in H.
  destruct (len b1 >? 0) eqn:El.
  - cbn [Nat.add]. rewrite Decode_loop_S.
    rewrite len_app. pose proof (len_nonneg b2) as H2.
    rewrite Z.gtb_ltb in El. apply Z.ltb_lt in El.
    replace (len b1 + len b2 >? 0) with true
      by (symmetry; rewrite Z.gtb_ltb; apply Z.ltb_lt; lia).
    destruct (Decoder.parseHeaderField d b1) as [d' [[buf1 oh]| | |]] eqn:Ep;
      try discriminate.
    rewrite (parseHeaderField_app _ _ _ b2 _ _ Ep).
    now apply IH.
  - injection H as <- <-.
    assert (b1 = []) as ->.
    { rewrite Z.gtb_ltb in El. apply Z.ltb_ge in El.
      destruct b1; [reflexivity|]. unfold len in El. cbn [List.length] in El. lia. }
    cbn [app]. apply Decode_loop_enough; lia.
Qed.

(** [Decode] on two blocks one after the other in one buffer gives what
    it gives on the first block and then, in the state that this leaves,
    on the second. *)
Lemma Decode_app (d d1 d2 : Decoder.t) (b1 b2 : list byte) (hs1 hs2 : list Header) :
  Decoder.Decode d b1 = (d1, Ok hs1) ->
  Decoder.Decode d1 b2 = (d2, Ok hs2) ->
  Decoder.Decode d (b1 ++ b2) = (d2, Ok (hs1 ++ hs2)).
Proof.
  unfold Decoder.Decode. intros H1 H2.
  rewrite length_app.
  change (S (List.length b1 + List.length b2)) with (S (List.length b1) + List.length b2)%nat.
  rewrite (Decode_loop_app _ _ _ _ b2 _ _ H1).
  pose proof (Decode_loop_headers _ _ _ _ _ hs1 _ H2) as H.
  now rewrite app_nil_r in H.
Qed.

(** ** The limit on the length of an encoded integer *)

Lemma decodeInteger_loop_too_long (conts : list byte) :
  forall (rest : list byte) (idx m n prefix iMax lMax : Z),
    Forall (fun b => Z.land (Z_of_byte b) 128 <> 0) conts ->
    1 <= len conts -> idx + len conts = lMax ->
    decodeInteger_loop (conts ++ rest) idx m n prefix iMax lMax
    = Err ErrIntegerEncodedLengthTooLong.
Proof.
  induction conts as [|b conts IH]; intros rest idx m n prefix iMax lMax Hall Hlen Hidx.
  - unfold len in Hlen. cbn in Hlen. lia.
  - cbn [decodeInteger_loop app]. inversion Hall as [|? ? Hb Hall']; subst.
    change (Z.shiftl 1 7) with 128.
    replace (Z.land (Z_of_byte b) 128 =? 0) with false
      by (symmetry; now apply Z.eqb_neq).
    assert (Hl : len (b :: conts) = 1 + len conts)
      by (unfold len; cbn [List.length]; lia).
    pose proof (len_nonneg conts) as Hnn.
    destruct (idx + 1 =? idx + len (b :: conts)) eqn:E; [reflexivity|].
    apply Z.eqb_neq in E. apply IH; [assumption|lia|lia].
Qed.

(** ** A list of headers encoded in two parts *)

(** The loop of [encode] appends to what was encoded before, and what it
    appends and the state it ends in do not depend on that. *)
Lemma encode_loop_acc (huffman : bool) (hs : list Header) :
  forall e : Encoder.t,
  exists (e' : Encoder.t) (block : list byte),
    forall acc, Encoder.encode_loop e hs huffman acc = (e', Ok (acc ++ block)).
Proof.
  induction hs as [|h hs IH]; intros e.
  - exists e, []. intros acc. cbn. now rewrite app_nil_r.
  - destruct (encodeHeaderField_ok e h huffman true) as (enc & Henc).
    destruct (Encoder.encodeHeaderField e h huffman true) as [e1 o] eqn:E.
    cbn [snd] in Henc. subst o.
    destruct (IH e1) as (e' & block & Hb).
    exists e', (enc ++ block). intros acc.
    cbn [Encoder.encode_loop]. unfold Encoder.EncodeIndexed. rewrite E.
    rewrite Hb. now rewrite app_assoc.
Qed.

Lemma encode_app (e e1 e2 : Encoder.t) (hs1 hs2 : list Header) (huffman : bool)
      (b1 b2 : list byte) :
  Encoder.encode e hs1 huffman = (e1, Ok b1) ->
  Encoder.encode e1 hs2 huffman = (e2, Ok b2) ->
  Encoder.encode e (hs1 ++ hs2) huffman = (e2, Ok (b1 ++ b2)).
Proof.
  unfold Encoder.encode. intros H1 H2.
  assert (G : forall hs1 e acc e1 b1,
             Encoder.encode_loop e hs1 huffman acc = (e1, Ok b1) ->
             Encoder.encode_loop e (hs1 ++ hs2) huffman acc
             = Encoder.encode_loop e1 hs2 huffman b1).
  { clear. induction hs1 as [|h hs1 IH]; intros e acc e1 b1 H.
    - cbn in H. injection H as <- <-. reflexivity.
    - cbn [Encoder.encode_loop app] in *.
      destruct (Encoder.EncodeIndexed e h huffman) as [e' [enc| | |]];
        try discriminate.
      now apply IH. }
  rewrite (G _ _ _ _ _ H1).
  destruct (encode_loop_acc huffman hs2 e1) as (e' & block & Hb).
  rewrite Hb in H2. cbn [app] in H2. injection H2 as <- <-.
  apply Hb.
Qed.

(** ** A header that was encoded before *)

Lemma enc_add_fits (e : Encoder.t) (name value : list byte) :
  Encoder.dynamicTableSizeCurrent e = table_size (Encoder.dynamicTable e) ->
  entrySize name value <= Encoder.dynamicTableSizeMax e ->
  exists kept,
    Encoder.dynamicTable (Encoder.addNewDynamicEntry e name value)
    = mkHeader name value false :: kept.
Proof.
  intros Hc Hfit. unfold Encoder.addNewDynamicEntry.
  pose proof (enc_evictEntries_spec e (32 + len name + len value)
                (Encoder.dynamicTableSizeMax e) Hc) as H.
  destruct (Encoder.evictEntries e _ _) as [e' ok].
  destruct H as (_ & _ & _ & _ & Hno).
  destruct ok.
  - cbn [negb]. proj_simpl. now exists (Encoder.dynamicTable e').
  - exfalso. unfold entrySize in Hfit. destruct (Hno eq_refl) as [_ Hlt]. lia.
Qed.

(** The state that [encodeHeaderField] leaves for a header that is not
    sensitive, with incremental indexing. *)
Lemma encodeHeaderField_state (e : Encoder.t) (h : Header) (huffman : bool) :
  Sensitive h = false ->
  fst (Encoder.encodeHeaderField e h huffman true)
  = (let e0 := Encoder.mk (Encoder.dynamicTable e) (Encoder.dynamicTableSizeMax e)
                          (Encoder.dynamicTableSizeCurrent e) false in
     let (index, valueIndexed) := Encoder.findHeaderInTable e (Name h) (Value h) in
     if negb (index =? -1) && valueIndexed then e0
     else Encoder.addNewDynamicEntry e0 (Name h) (Value h)).
Proof.
  intros Hs. destruct e as [t m c p]. unfold Encoder.encodeHeaderField. proj_simpl.
  rewrite Hs.
  change (Encoder.findHeaderInTable (Encoder.mk t m c false) (Name h) (Value h))
    with (Encoder.findHeaderInTable (Encoder.mk t m c p) (Name h) (Value h)).
  destruct (encodeInteger_ok m 5 ltac:(lia)) as (b5 & bs5 & E5).
  assert (G : forall (encoded : list byte) (e0 : Encoder.t),
             fst (let (index, valueIndexed) :=
                    Encoder.findHeaderInTable (Encoder.mk t m c p) (Name h) (Value h) in
                  if negb (index =? -1) && valueIndexed
                  then (e0,
                        bind (encodeInteger index 7) (fun indexed =>
                        Ok (encoded ++ orFirst headerFieldIndexed indexed)))
                  else
                    match (if index =? -1 then encodeInteger 0 6
                           else encodeInteger index 6) with
                    | Ok indexed =>
                        let (indexed0, encoder) :=
                          (orFirst headerFieldLiteralIncrementalIndex indexed,
                           Encoder.addNewDynamicEntry e0 (Name h) (Value h)) in
                        let encoded0 := encoded ++ indexed0 in
                        (encoder,
                         bind (if index =? -1
                               then bind (encodeLiteralString (Name h) 7 huffman)
                                         (fun lit => Ok (encoded0 ++ lit))
                               else Ok encoded0) (fun encoded1 =>
                         bind (encodeLiteralString (Value h) 7 huffman) (fun lit =>
                         Ok (encoded1 ++ lit))))
                    | Err e1 => (e0, Err e1)
                    | Panic p0 => (e0, Panic p0)
                    | Diverges => (e0, Diverges)
                    end)
             = (let (index, valueIndexed) :=
                  Encoder.findHeaderInTable (Encoder.mk t m c p) (Name h) (Value h) in
                if negb (index =? -1) && valueIndexed then e0
                else Encoder.addNewDynamicEntry e0 (Name h) (Value h))).
  { intros encoded e0.
    destruct (Encoder.findHeaderInTable _ _ _) as [index valueIndexed].
    destruct (negb (index =? -1) && valueIndexed); [reflexivity|].
    destruct (encodeInteger_ok 0 6 ltac:(lia)) as (b0 & bs0 & E0).
    destruct (encodeInteger_ok index 6 ltac:(lia)) as (b6 & bs6 & E6).
    rewrite E0, E6. now destruct (index =? -1). }
  destruct p.
  - rewrite E5. cbn [bind]. apply G.
  - apply G.
Qed.

(** The encoding of a header that is not sensitive and is found with its
    value. *)
Lemma encodeHeaderField_found (e : Encoder.t) (h : Header) (huffman add : bool) (i : Z) :
  Encoder.pendingDynamicTableSizeUpdate e = false ->
  Sensitive h = false ->
  Encoder.findHeaderInTable e (Name h) (Value h) = (i, true) -> i <> -1 ->
  exists ix,
    encodeInteger i 7 = Ok ix /\
    Encoder.encodeHeaderField e h huffman add = (e, Ok (orFirst headerFieldIndexed ix)).
Proof.
  intros Hp Hs Hf Hi. unfold Encoder.encodeHeaderField. rewrite Hp, Hs, Hf.
  replace (negb (i =? -1) && true) with true
    by (symmetry; apply andb_true_iff; split;
        [now apply negb_true_iff, Z.eqb_neq|reflexivity]).
  destruct (encodeInteger_ok i 7 ltac:(lia)) as (b & bs & E).
  exists (b :: bs). split; [assumption|]. rewrite E. reflexivity.
Qed.

(** A header that is not sensitive and fits the dynamic table is, after
    it was encoded once, found with its value. *)
Lemma found_after_encoding (e : Encoder.t) (h : Header) (huffman : bool) :
  Encoder.dynamicTableSizeCurrent e = table_size (Encoder.dynamicTable e) ->
  Sensitive h = false ->
  entrySize (Name h) (Value h) <= Encoder.dynamicTableSizeMax e ->
  exists i,
    i <> -1 /\
    Encoder.findHeaderInTable (fst (Encoder.encodeHeaderField e h huffman true))
                              (Name h) (Value h) = (i, true) /\
    Encoder.pendingDynamicTableSizeUpdate (fst (Encoder.encodeHeaderField e h huffman true))
    = false.
Proof.
  intros Hc Hs Hfit. rewrite (encodeHeaderField_state e h huffman Hs).
  set (e0 := Encoder.mk _ _ _ false). cbv zeta.
  destruct (Encoder.findHeaderInTable e (Name h) (Value h)) as [index vi] eqn:Ef.
  destruct (negb (index =? -1) && vi) eqn:Ec.
  - apply andb_true_iff in Ec. destruct Ec as [Ei ->].
    apply negb_true_iff, Z.eqb_neq in Ei.
    exists index. split; [assumption|]. split; [exact Ef|reflexivity].
  - destruct (enc_add_fits e0 (Name h) (Value h) Hc Hfit) as (kept & Hk).
    exists (len staticTable + 0 + 1). split; [rewrite len_static; lia|]. split.
    + unfold Encoder.findHeaderInTable in *. rewrite Hk.
      destruct (if negb (eqb_bytes (Value h) [])
                then staticTableEncodingWithValues (Name h ++ str ":" ++ Value h)
                else None) as [entry|] eqn:Est.
      * exfalso. injection Ef as <- <-.
        rewrite andb_true_r in Ec. apply negb_false_iff, Z.eqb_eq in Ec. subst entry.
        destruct (negb (eqb_bytes (Value h) [])); [|discriminate].
        unfold staticTableEncodingWithValues in Est.
        apply find_index_Some in Est. destruct Est as (k & a & Hk1 & _). lia.
      * cbn [find_index Name Value]. now rewrite !eqb_bytes_refl.
    + unfold Encoder.addNewDynamicEntry, Encoder.evictEntries.
      destruct (evict_loop _ _ _ _) as [[ok rtable] current].
      destruct ok; reflexivity.
Qed.

(* ================================================================== *)
(** * Part IV: further properties of the code                          *)
(* ================================================================== *)

(** ** huffman.go *)

(** X1.  Huffman round trip: for every byte string [s],
    [HuffmanDecode (HuffmanEncode s)] returns [s] and no error; the
    padding of the last octet gives no symbol. *)
Theorem X1_huffman_roundtrip (s : list byte) :
  HuffmanDecode (HuffmanEncode s) = Ok s.
Proof. apply HuffmanDecode_HuffmanEncode. Qed.

(** X2.  The octets that [HuffmanEncode] returns are, bit by bit, the
    codes of the octets of the input in their order, followed by fewer
    than eight bits of padding, which are all ones. *)
Theorem X2_HuffmanEncode_bits (data : list byte) :
  exists k : nat,
    (k < 8)%nat /\
    bits_of_bytes (HuffmanEncode data) = enc_bits data ++ repeat true k.
Proof. apply HuffmanEncode_bits. Qed.

(** X3.  [HuffmanEncode] writes at least 5 and at most 30 bits for each
    octet of the input, rounded up to whole octets. *)
Theorem X3_HuffmanEncode_length (s : list byte) :
  5 * len s <= 8 * len (HuffmanEncode s) <= 30 * len s + 7.
Proof. apply HuffmanEncode_length. Qed.

(** X4.  On any octets, [HuffmanDecode] returns octets or the error of an
    invalid code: it never reads past the end of the buffer (no panic),
    and its loop ends. *)
Theorem X4_HuffmanDecode_safe (encoded : list byte) :
  (exists s, HuffmanDecode encoded = Ok s)
  \/ HuffmanDecode encoded = Err ErrHuffmanDecodeFailure.
Proof. apply HuffmanDecode_safe. Qed.

(** X5.  [PeekBits(32)] on a reader that is within its buffer returns the
    next 32 bits, most significant first and with zeros after the end of
    the buffer, and the number of bits read: it reads up to 40 bits, and
    reports all the bits that are left when they are at most 40, and 32
    otherwise.  The reader is not moved. *)
Theorem X5_PeekBits_window (br : bitReader) :
  reader_ok br -> rpos br < 8 * len (br_buf br) ->
  PeekBits br 32
  = Ok (window (remaining br),
        if (List.length (remaining br) <=? 40)%nat then len (remaining br) else 32).
Proof. apply PeekBits_spec. Qed.

Lemma X5_PeekBits_window_witness :
  PeekBits (mkBitReader [byte_of_Z 168; byte_of_Z 235; byte_of_Z 16] 1 3) 32
  = Ok (window (remaining (mkBitReader [byte_of_Z 168; byte_of_Z 235; byte_of_Z 16] 1 3)),
        if (List.length
              (remaining (mkBitReader [byte_of_Z 168; byte_of_Z 235; byte_of_Z 16] 1 3))
            <=? 40)%nat
        then len (remaining (mkBitReader [byte_of_Z 168; byte_of_Z 235; byte_of_Z 16] 1 3))
        else 32).
Proof.
  apply (X5_PeekBits_window (mkBitReader [byte_of_Z 168; byte_of_Z 235; byte_of_Z 16] 1 3)).
  - unfold reader_ok. cbn. lia.
  - vm_compute. reflexivity.
Defined.

(** X6.  [PeekBits] on a reader whose index is at or past the end of the
    buffer panics on [br.buf[idx]]; [HuffmanDecode] calls it only when
    [BitsAvailable] is at least 5. *)
Theorem X6_PeekBits_past_end (br : bitReader) (numBits : Z) :
  0 <= numBits -> len (br_buf br) <= br_index br ->
  PeekBits br numBits = Panic PanicIndexOutOfRange.
Proof.
  intros Hn Hidx. unfold PeekBits.
  replace (Z.to_nat (numBits / 8) + 2)%nat with (S (Z.to_nat (numBits / 8) + 1)) by lia.
  cbn [PeekBits_outer].
  replace (numBits >=? 0) with true by (symmetry; rewrite Z.geb_leb; apply Z.leb_le; lia).
  cbn [PeekBits_inner]. unfold index_at.
  pose proof (len_nonneg (br_buf br)).
  replace (br_index br <? 0) with false by (symmetry; apply Z.ltb_ge; lia).
  replace (nth_error (br_buf br) (Z.to_nat (br_index br))) with (@None byte);
    [reflexivity|].
  symmetry. apply nth_error_None. unfold len in Hidx. lia.
Qed.

Lemma X6_PeekBits_past_end_witness :
  PeekBits (mkBitReader [byte_of_Z 168] 1 0) 32 = Panic PanicIndexOutOfRange.
Proof.
  apply (X6_PeekBits_past_end (mkBitReader [byte_of_Z 168] 1 0) 32).
  - lia.
  - vm_compute. discriminate.
Defined.



(** ** integers.go *)

(** X8.  An integer in a field: for a decoder with the limits of
    [NewDecoder], every prefix length, every value up to 2^32 - 1 and
    every choice of the bits above the prefix, [DecodeInteger] reads what
    [encodeInteger] wrote, returns the bits above the prefix as they are,
    and leaves the octets after the integer. *)
Theorem X8_integer_in_field (d : Decoder.t) (v N flag : Z) (suffix : list byte) :
  default_limits d ->
  1 <= N <= 8 -> 0 <= v <= 2 ^ 32 - 1 ->
  0 <= flag < 256 -> Z.land flag (Z.ones N) = 0 ->
  exists enc,
    encodeInteger v N = Ok enc /\
    Decoder.DecodeInteger d (orFirst flag enc ++ suffix) N = Ok (suffix, flag, v).
Proof.
  intros Hlim HN Hv Hflag Hland.
  destruct (DecodeInteger_encoded d v N flag suffix Hlim HN Hv Hflag Hland)
    as (b & bs & Henc & _ & _ & Hdec).
  exists (b :: bs). now split.
Qed.

Lemma X8_integer_in_field_witness :
  exists enc,
    encodeInteger 1337 5 = Ok enc /\
    Decoder.DecodeInteger (Decoder.NewDecoder 256)
                          (orFirst 32 enc ++ [byte_of_Z 130]) 5
    = Ok ([byte_of_Z 130], 32, 1337).
Proof.
  apply (X8_integer_in_field (Decoder.NewDecoder 256) 1337 5 32 [byte_of_Z 130]).
  - repeat split.
  - lia.
  - vm_compute. split; discriminate.
  - lia.
  - reflexivity.
Defined.

(** X9.  With a limit of 2 to 9 on the encoded length, the integer that
    [decodeInteger] returns is never negative: the sum of the octets does
    not leave the range of [int]. *)
Theorem X9_decodeInteger_nonneg (buf : list byte) (N iMax lMax : Z)
        (r : list byte) (p v : Z) :
  2 <= lMax <= 9 ->
  decodeInteger buf N iMax lMax = Ok (r, p, v) -> 0 <= v.
Proof. apply decodeInteger_nonneg. Qed.

Lemma X9_decodeInteger_nonneg_witness :
  decodeInteger [byte_of_Z 31; byte_of_Z 154; byte_of_Z 10] 5
                DefaultMaxIntegerValue DefaultMaxIntegerEncodedLength
  = Ok ([], 0, 1337) /\
  0 <= 1337.
Proof.
  split; [vm_compute; reflexivity|].
  apply (X9_decodeInteger_nonneg [byte_of_Z 31; byte_of_Z 154; byte_of_Z 10] 5
           DefaultMaxIntegerValue DefaultMaxIntegerEncodedLength [] 0 1337).
  - vm_compute. split; discriminate.
  - vm_compute. reflexivity.
Defined.

(** ** hpack.go: the decoder *)

(** X10.  [Decode] returns on every block and in every state of the
    decoder: with headers, with an error or with a panic; none of its
    loops runs for ever. *)
Theorem X10_Decode_returns (d : Decoder.t) (block : list byte) :
  snd (Decoder.Decode d block) <> Diverges.
Proof. apply Decode_returns. Qed.

(** X11.  A field that [parseHeaderField] parses takes at least one octet
    off the buffer: this is what ends the loop of [Decode]. *)
Theorem X11_parseHeaderField_progress (d d' : Decoder.t) (buf r : list byte)
        (oh : option Header) :
  Decoder.parseHeaderField d buf = (d', Ok (r, oh)) ->
  (List.length r < List.length buf)%nat.
Proof. apply parseHeaderField_shrinks. Qed.

Lemma X11_parseHeaderField_progress_witness :
  Decoder.parseHeaderField (Decoder.NewDecoder 256) [byte_of_Z 130; byte_of_Z 32]
  = (Decoder.NewDecoder 256,
     Ok ([byte_of_Z 32], Some (mkHeader (str ":method") (str "GET") false))) /\
  (List.length [byte_of_Z 32] < List.length [byte_of_Z 130; byte_of_Z 32])%nat.
Proof.
  split; [vm_compute; reflexivity|].
  apply (X11_parseHeaderField_progress
           (Decoder.NewDecoder 256) (Decoder.NewDecoder 256)
           [byte_of_Z 130; byte_of_Z 32] [byte_of_Z 32]
           (Some (mkHeader (str ":method") (str "GET") false))).
  vm_compute. reflexivity.
Defined.

(** X12.  The index space of the decoder: an index from 1 to the length
    of the static table plus that of the dynamic table resolves to the
    entry at that place of the static table followed by the dynamic
    table. *)
Theorem X12_joint_index (d : Decoder.t) (index : Z) :
  1 <= index <= len staticTable + len (Decoder.dynamicTable d) ->
  exists name value,
    Decoder.getIndexedNameValue d index = Ok (name, value) /\
    nth_error (staticTable ++ map (fun h => (Name h, Value h)) (Decoder.dynamicTable d))
              (Z.to_nat (index - 1))
    = Some (name, value).
Proof.
  intros Hi. destruct (getIndexedNameValue_in_range d index) as (_ & Hs & Hd).
  pose proof len_static as Hls.
  destruct (Z_le_gt_dec index (len staticTable)) as [Hle|Hgt].
  - destruct (Hs ltac:(lia)) as (nv & Hn & Hget).
    exists (fst nv), (snd nv). split; [assumption|].
    rewrite nth_error_app1 by (unfold len in Hle; lia).
    rewrite Hn. now destruct nv.
  - destruct (Hd ltac:(lia)) as (h & Hn & Hget).
    exists (Name h), (Value h). split; [assumption|].
    rewrite nth_error_app2 by (unfold len in Hgt; lia).
    replace (Z.to_nat (index - 1) - List.length staticTable)%nat
      with (Z.to_nat (index - len staticTable - 1)) by (unfold len; lia).
    now rewrite nth_error_map, Hn.
Qed.

Lemma X12_joint_index_witness :
  exists name value,
    Decoder.getIndexedNameValue
      (Decoder.addNewDynamicEntry (Decoder.NewDecoder 256) (str "a") (str "b")) 62
    = Ok (name, value) /\
    nth_error (staticTable
                 ++ map (fun h => (Name h, Value h))
                        (Decoder.dynamicTable
                           (Decoder.addNewDynamicEntry (Decoder.NewDecoder 256)
                                                       (str "a") (str "b"))))
              (Z.to_nat (62 - 1))
    = Some (name, value).
Proof.
  apply (X12_joint_index
           (Decoder.addNewDynamicEntry (Decoder.NewDecoder 256) (str "a") (str "b")) 62).
  vm_compute. split; discriminate.
Defined.

(** X13.  An index above the static and the dynamic table gives the
    error "index not found", not a panic. *)
Theorem X13_index_too_large (d : Decoder.t) (index : Z) :
  len staticTable + len (Decoder.dynamicTable d) < index ->
  Decoder.getIndexedNameValue d index = Err (ErrIndexNotFound index).
Proof.
  intros Hi. destruct (getIndexedNameValue_in_range d index) as (He & _ & _).
  now apply He.
Qed.

Lemma X13_index_too_large_witness :
  Decoder.getIndexedNameValue (Decoder.NewDecoder 256) 62 = Err (ErrIndexNotFound 62).
Proof.
  apply (X13_index_too_large (Decoder.NewDecoder 256) 62).
  vm_compute. reflexivity.
Defined.

(** X14.  String literals round trip: what [encodeLiteralString] writes
    for a string, with or without Huffman coding, [readPrefixedLengthString]
    of a decoder with the limits of [NewDecoder] reads back as that
    string, leaving the octets that follow, provided that the payload (the
    Huffman coding of the string, or the string) is not longer than
    [DefaultMaxStringLiteralLength]. *)
Theorem X14_string_literal_roundtrip (d : Decoder.t) (s suffix : list byte)
        (huffman : bool) :
  default_limits d ->
  len (if huffman then HuffmanEncode s else s) <= DefaultMaxStringLiteralLength ->
  exists enc,
    encodeLiteralString s 7 huffman = Ok enc /\
    Decoder.readPrefixedLengthString d (enc ++ suffix) 7 = Ok (suffix, s).
Proof. apply readPrefixedLengthString_encoded. Qed.

Lemma X14_string_literal_roundtrip_witness :
  exists enc,
    encodeLiteralString (str "www.example.com") 7 true = Ok enc /\
    Decoder.readPrefixedLengthString (Decoder.NewDecoder 256) (enc ++ [byte_of_Z 130]) 7
    = Ok ([byte_of_Z 130], str "www.example.com").
Proof.
  apply (X14_string_literal_roundtrip (Decoder.NewDecoder 256) (str "www.example.com")
           [byte_of_Z 130] true).
  - repeat split.
  - vm_compute. discriminate.
Defined.

(** X15.  A string literal without Huffman coding whose declared length
    (within the limit of the decoder) is greater than the number of
    octets that remain makes [readPrefixedLengthString] panic on the
    slice expression [rest[length:]]: unlike the Huffman branch, this
    branch has no test of the length. *)
Theorem X15_raw_literal_too_short (d : Decoder.t) (buf rest : list byte)
        (N p length : Z) :
  Decoder.DecodeInteger d buf N = Ok (rest, p, length) ->
  length <= Decoder.stringLiteralLengthMax d ->
  Z.land p huffmanEncoded <> huffmanEncoded ->
  len rest < length ->
  Decoder.readPrefixedLengthString d buf N = Panic PanicSliceBounds.
Proof. apply readPrefixedLengthString_raw_short. Qed.

Lemma X15_raw_literal_too_short_witness :
  Decoder.readPrefixedLengthString (Decoder.NewDecoder 256)
                                   [byte_of_Z 5; byte_of_Z 97] 7
  = Panic PanicSliceBounds.
Proof.
  apply (X15_raw_literal_too_short (Decoder.NewDecoder 256)
           [byte_of_Z 5; byte_of_Z 97] [byte_of_Z 97] 7 0 5).
  - vm_compute. reflexivity.
  - vm_compute. discriminate.
  - vm_compute. discriminate.
  - vm_compute. reflexivity.
Defined.

(** ** hpack.go: the dynamic table *)

(** X16.  [evictEntries] (of the decoder and of the encoder) takes
    entries off the end of the dynamic table only, the oldest first, and
    no more than it has to: what it keeps is the front of the table, and
    the newest entry that it evicted did not fit together with the
    entries kept and the additional size. *)
Theorem X16_evictEntries_oldest_first (d : Decoder.t) (e : Encoder.t)
        (additionalSize maxSize : Z) :
  Decoder.dynamicTableSizeCurrent d = table_size (Decoder.dynamicTable d) ->
  Encoder.dynamicTableSizeCurrent e = table_size (Encoder.dynamicTable e) ->
  (exists old,
      Decoder.dynamicTable d
      = Decoder.dynamicTable (fst (Decoder.evictEntries d additionalSize maxSize)) ++ old /\
      forall h old',
        old = h :: old' ->
        table_size (Decoder.dynamicTable
                      (fst (Decoder.evictEntries d additionalSize maxSize)) ++ [h])
        + additionalSize > maxSize) /\
  (exists old,
      Encoder.dynamicTable e
      = Encoder.dynamicTable (fst (Encoder.evictEntries e additionalSize maxSize)) ++ old /\
      forall h old',
        old = h :: old' ->
        table_size (Encoder.dynamicTable
                      (fst (Encoder.evictEntries e additionalSize maxSize)) ++ [h])
        + additionalSize > maxSize).
Proof.
  intros Hd He. split.
  - unfold Decoder.evictEntries.
    destruct (evict_loop (rev (Decoder.dynamicTable d)) _ additionalSize maxSize)
      as [[ok rtable'] current'] eqn:E.
    cbn [fst Decoder.dynamicTable].
    exact (evicted_oldest _ _ _ _ _ _ _ _ Hd E eq_refl).
  - unfold Encoder.evictEntries.
    destruct (evict_loop (rev (Encoder.dynamicTable e)) _ additionalSize maxSize)
      as [[ok rtable'] current'] eqn:E.
    cbn [fst Encoder.dynamicTable].
    exact (evicted_oldest _ _ _ _ _ _ _ _ He E eq_refl).
Qed.

Lemma X16_evictEntries_oldest_first_witness :
  (exists old,
      Decoder.dynamicTable
        (Decoder.addNewDynamicEntry
           (Decoder.addNewDynamicEntry (Decoder.NewDecoder 100) (str "a") (str "b"))
           (str "c") (str "d"))
      = Decoder.dynamicTable
          (fst (Decoder.evictEntries
                  (Decoder.addNewDynamicEntry
                     (Decoder.addNewDynamicEntry (Decoder.NewDecoder 100) (str "a") (str "b"))
                     (str "c") (str "d")) 40 100)) ++ old /\
      forall h old',
        old = h :: old' ->
        table_size (Decoder.dynamicTable
                      (fst (Decoder.evictEntries
                              (Decoder.addNewDynamicEntry
                                 (Decoder.addNewDynamicEntry (Decoder.NewDecoder 100)
                                                             (str "a") (str "b"))
                                 (str "c") (str "d")) 40 100)) ++ [h])
        + 40 > 100) /\
  (exists old,
      Encoder.dynamicTable
        (Encoder.addNewDynamicEntry
           (Encoder.addNewDynamicEntry (Encoder.NewEncoder 100) (str "a") (str "b"))
           (str "c") (str "d"))
      = Encoder.dynamicTable
          (fst (Encoder.evictEntries
                  (Encoder.addNewDynamicEntry
                     (Encoder.addNewDynamicEntry (Encoder.NewEncoder 100) (str "a") (str "b"))
                     (str "c") (str "d")) 40 100)) ++ old /\
      forall h old',
        old = h :: old' ->
        table_size (Encoder.dynamicTable
                      (fst (Encoder.evictEntries
                              (Encoder.addNewDynamicEntry
                                 (Encoder.addNewDynamicEntry (Encoder.NewEncoder 100)
                                                             (str "a") (str "b"))
                                 (str "c") (str "d")) 40 100)) ++ [h])
        + 40 > 100).
Proof.
  apply (X16_evictEntries_oldest_first
           (Decoder.addNewDynamicEntry
              (Decoder.addNewDynamicEntry (Decoder.NewDecoder 100) (str "a") (str "b"))
              (str "c") (str "d"))
           (Encoder.addNewDynamicEntry
              (Encoder.addNewDynamicEntry (Encoder.NewEncoder 100) (str "a") (str "b"))
              (str "c") (str "d"))
           40 100).
  - vm_compute. reflexivity.
  - vm_compute. reflexivity.
Defined.

(** X17.  Insertion and lookup: an entry that fits the maximal size of
    the table is, after [addNewDynamicEntry], the first entry of the
    dynamic table, and the decoder resolves the index after the static
    table to it. *)
Theorem X17_insert_lookup (d : Decoder.t) (name value : list byte) :
  Decoder.dynamicTableSizeCurrent d = table_size (Decoder.dynamicTable d) ->
  entrySize name value <= Decoder.dynamicTableSizeMax d ->
  Decoder.getIndexedNameValue (Decoder.addNewDynamicEntry d name value)
                              (len staticTable + 1)
  = Ok (name, value).
Proof.
  intros Hc Hfit. unfold Decoder.addNewDynamicEntry.
  pose proof (dec_evictEntries_spec d (32 + len name + len value)
                (Decoder.dynamicTableSizeMax d) Hc) as H.
  destruct (Decoder.evictEntries d _ _) as [d' ok].
  destruct H as (_ & _ & _ & _ & _ & _ & Hno).
  destruct ok.
  - cbn [negb]. unfold Decoder.getIndexedNameValue. proj_simpl.
    rewrite len_static. change (62 >? 61) with true. cbv iota.
    change (61 + 1 - 61) with 1.
    assert (Hlen : len (mkHeader name value false :: Decoder.dynamicTable d')
                   = 1 + len (Decoder.dynamicTable d'))
      by (unfold len; cbn [List.length]; lia).
    pose proof (len_nonneg (Decoder.dynamicTable d')).
    replace (1 >? _) with false by (symmetry; rewrite Z.gtb_ltb; apply Z.ltb_ge; lia).
    reflexivity.
  - exfalso. unfold entrySize in Hfit. destruct (Hno eq_refl) as [_ Hlt]. lia.
Qed.

Lemma X17_insert_lookup_witness :
  Decoder.getIndexedNameValue
    (Decoder.addNewDynamicEntry
       (Decoder.addNewDynamicEntry (Decoder.NewDecoder 80) (str "a") (str "b"))
       (str "custom-key") (str "custom-value"))
    (len staticTable + 1)
  = Ok (str "custom-key", str "custom-value").
Proof.
  apply (X17_insert_lookup
           (Decoder.addNewDynamicEntry (Decoder.NewDecoder 80) (str "a") (str "b"))
           (str "custom-key") (str "custom-value")).
  - vm_compute. reflexivity.
  - vm_compute. discriminate.
Defined.

(** ** hpack.go: the encoder and the decoder together *)

(** X18.  Codec round trip: let the encoder and the decoder hold the same
    dynamic table with the same current and maximal size, the maximal
    size being at most 2^32 - 1, and let the decoder have the limits of
    [NewDecoder].  Then for every list of headers with non-empty names
    whose literals fit [DefaultMaxStringLiteralLength], with any
    sensitive flags, [encode] (with Huffman coding, as [Encode] calls it,
    or without) returns a block and no error, [Decode] of that block
    returns exactly the headers, in their order and with their flags, and
    the encoder and the decoder are together again afterwards, a pending
    size update of the encoder included. *)
Theorem X18_codec_roundtrip (e : Encoder.t) (d : Decoder.t) (hs : list Header)
        (huffman : bool) :
  synced e d -> Forall (encodable huffman) hs ->
  exists (block : list byte) (e' : Encoder.t) (d' : Decoder.t),
    Encoder.encode e hs huffman = (e', Ok block) /\
    Decoder.Decode d block = (d', Ok hs) /\
    synced e' d'.
Proof. apply encode_Decode. Qed.

Lemma X18_codec_roundtrip_witness :
  exists (block : list byte) (e' : Encoder.t) (d' : Decoder.t),
    Encoder.encode (Encoder.SetDynamicTableMaxSize (Encoder.NewEncoder 4096) 256)
                   [mkHeader (str ":method") (str "GET") false;
                    mkHeader (str "custom-key") (str "custom-value") false;
                    mkHeader (str "password") (str "secret") true;
                    mkHeader (str "custom-key") (str "custom-value") false]
                   true
    = (e', Ok block) /\
    Decoder.Decode (Decoder.SetDynamicTableMaxSize (Decoder.NewDecoder 4096) 256) block
    = (d', Ok [mkHeader (str ":method") (str "GET") false;
               mkHeader (str "custom-key") (str "custom-value") false;
               mkHeader (str "password") (str "secret") true;
               mkHeader (str "custom-key") (str "custom-value") false]) /\
    synced e' d'.
Proof.
  apply (X18_codec_roundtrip
           (Encoder.SetDynamicTableMaxSize (Encoder.NewEncoder 4096) 256)
           (Decoder.SetDynamicTableMaxSize (Decoder.NewDecoder 4096) 256)
           [mkHeader (str ":method") (str "GET") false;
            mkHeader (str "custom-key") (str "custom-value") false;
            mkHeader (str "password") (str "secret") true;
            mkHeader (str "custom-key") (str "custom-value") false]
           true).
  - unfold synced, enc_inv, size_inv, default_limits.
    repeat split; try (vm_compute; reflexivity); vm_compute; discriminate.
  - repeat (apply Forall_cons; [split; [discriminate|split; vm_compute; discriminate]|]).
    apply Forall_nil.
Defined.

(** X19.  The same calls keep the encoder and the decoder together: so
    they are when made by [NewEncoder] and [NewDecoder] with the same
    maximal size, and so they stay when [SetDynamicTableMaxSize] is called
    on both with the same size (up to 2^32 - 1): both evict the same
    entries. *)
Theorem X19_same_resize (e : Encoder.t) (d : Decoder.t) (m n : Z) :
  0 <= m <= DefaultMaxIntegerValue ->
  0 <= n <= DefaultMaxIntegerValue ->
  synced e d ->
  synced (Encoder.NewEncoder m) (Decoder.NewDecoder m) /\
  synced (Encoder.SetDynamicTableMaxSize e n) (Decoder.SetDynamicTableMaxSize d n).
Proof.
  intros Hm Hn Hs. split; [now apply synced_new|now apply synced_resize].
Qed.

Lemma X19_same_resize_witness :
  synced (Encoder.NewEncoder 4096) (Decoder.NewDecoder 4096) /\
  synced (Encoder.SetDynamicTableMaxSize
            (Encoder.addNewDynamicEntry (Encoder.NewEncoder 256) (str "a") (str "b")) 20)
         (Decoder.SetDynamicTableMaxSize
            (Decoder.addNewDynamicEntry (Decoder.NewDecoder 256) (str "a") (str "b")) 20).
Proof.
  apply (X19_same_resize
           (Encoder.addNewDynamicEntry (Encoder.NewEncoder 256) (str "a") (str "b"))
           (Decoder.addNewDynamicEntry (Decoder.NewDecoder 256) (str "a") (str "b"))
           4096 20).
  - vm_compute. split; discriminate.
  - vm_compute. split; discriminate.
  - unfold synced, enc_inv, size_inv, default_limits.
    repeat split; try (vm_compute; reflexivity); vm_compute; discriminate.
Defined.



(** X21.  A sensitive header is never put into the dynamic table of the
    encoder: whatever the state and the flags of the call,
    [encodeHeaderField] leaves the table, its size and its maximal size
    as they are. *)
Theorem X21_sensitive_not_indexed (e : Encoder.t) (h : Header)
        (huffman addDynamicIndex : bool) :
  Sensitive h = true ->
  Encoder.dynamicTable (fst (Encoder.encodeHeaderField e h huffman addDynamicIndex))
  = Encoder.dynamicTable e /\
  Encoder.dynamicTableSizeCurrent
    (fst (Encoder.encodeHeaderField e h huffman addDynamicIndex))
  = Encoder.dynamicTableSizeCurrent e /\
  Encoder.dynamicTableSizeMax (fst (Encoder.encodeHeaderField e h huffman addDynamicIndex))
  = Encoder.dynamicTableSizeMax e.
Proof. apply sensitive_not_indexed. Qed.

Lemma X21_sensitive_not_indexed_witness :
  Encoder.dynamicTable
    (fst (Encoder.encodeHeaderField (Encoder.NewEncoder 4096)
            (mkHeader (str "password") (str "secret") true) true true))
  = Encoder.dynamicTable (Encoder.NewEncoder 4096) /\
  Encoder.dynamicTableSizeCurrent
    (fst (Encoder.encodeHeaderField (Encoder.NewEncoder 4096)
            (mkHeader (str "password") (str "secret") true) true true))
  = Encoder.dynamicTableSizeCurrent (Encoder.NewEncoder 4096) /\
  Encoder.dynamicTableSizeMax
    (fst (Encoder.encodeHeaderField (Encoder.NewEncoder 4096)
            (mkHeader (str "password") (str "secret") true) true true))
  = Encoder.dynamicTableSizeMax (Encoder.NewEncoder 4096).
Proof.
  apply (X21_sensitive_not_indexed (Encoder.NewEncoder 4096)
           (mkHeader (str "password") (str "secret") true) true true).
  reflexivity.
Defined.

(** X22.  A pending size update: when the flag set by
    [SetDynamicTableMaxSize] is up, [encodeHeaderField] writes the size
    update with the maximal size of the encoder first, then the field as
    it writes it with the flag down, and it takes the flag down. *)
Theorem X22_pending_size_update_first (e e' : Encoder.t) (h : Header)
        (huffman addDynamicIndex : bool) (su enc : list byte) :
  Encoder.pendingDynamicTableSizeUpdate e = true ->
  encodeInteger (Encoder.dynamicTableSizeMax e) 5 = Ok su ->
  Encoder.encodeHeaderField
    (Encoder.mk (Encoder.dynamicTable e) (Encoder.dynamicTableSizeMax e)
                (Encoder.dynamicTableSizeCurrent e) false) h huffman addDynamicIndex
  = (e', Ok enc) ->
  Encoder.encodeHeaderField e h huffman addDynamicIndex
  = (e', Ok (orFirst headerFieldDynamicSizeUpdate su ++ enc)) /\
  Encoder.pendingDynamicTableSizeUpdate e' = false.
Proof.
  intros Hp Hsu Henc. split; [now apply encodeHeaderField_pending|].
  revert Henc. unfold Encoder.encodeHeaderField.
  cbn [Encoder.pendingDynamicTableSizeUpdate].
  destruct (Sensitive h).
  - intros H. injection H as <- _. reflexivity.
  - destruct (Encoder.findHeaderInTable _ _ _) as [index valueIndexed].
    destruct (negb (index =? -1) && valueIndexed).
    + intros H. injection H as <- _. reflexivity.
    + destruct (if index =? -1 then encodeInteger 0 6 else encodeInteger index 6);
        try (intros H; injection H as <- _; reflexivity).
      destruct addDynamicIndex; intros H; injection H as <- _; [|reflexivity].
      unfold Encoder.addNewDynamicEntry, Encoder.evictEntries.
      destruct (evict_loop _ _ _ _) as [[ok rtable] current].
      destruct ok; reflexivity.
Qed.

Lemma X22_pending_size_update_first_witness :
  Encoder.encodeHeaderField
    (Encoder.SetDynamicTableMaxSize (Encoder.NewEncoder 4096) 256)
    (mkHeader (str ":method") (str "GET") false) true true
  = (Encoder.mk [] 256 0 false,
     Ok (orFirst headerFieldDynamicSizeUpdate [byte_of_Z 31; byte_of_Z 225; byte_of_Z 1]
           ++ [byte_of_Z 130])) /\
  Encoder.pendingDynamicTableSizeUpdate (Encoder.mk [] 256 0 false) = false.
Proof.
  apply (X22_pending_size_update_first
           (Encoder.SetDynamicTableMaxSize (Encoder.NewEncoder 4096) 256)
           (Encoder.mk [] 256 0 false)
           (mkHeader (str ":method") (str "GET") false) true true
           [byte_of_Z 31; byte_of_Z 225; byte_of_Z 1] [byte_of_Z 130]).
  - vm_compute. reflexivity.
  - vm_compute. reflexivity.
  - vm_compute. reflexivity.
Defined.

(** X23.  The keys of the static table with values: [findHeaderInTable]
    looks a header up under its name, a colon and its value.  A header
    with an empty name whose value is the rest of the key of a static
    entry (the name of the entry begins with a colon) is therefore
    encoded as the index of that entry, and [Decode] returns the static
    entry, which is another header. *)
Theorem X23_empty_name_collision (e : Encoder.t) (d : Decoder.t)
        (n v : list byte) (huffman : bool) :
  Encoder.pendingDynamicTableSizeUpdate e = false ->
  default_limits d ->
  In (str ":" ++ n, v) staticTable ->
  exists block,
    Encoder.EncodeIndexed e (mkHeader [] (n ++ str ":" ++ v) false) huffman
    = (e, Ok block) /\
    Decoder.Decode d block = (d, Ok [mkHeader (str ":" ++ n) v false]).
Proof.
  intros Hp Hlim Hin.
  apply In_nth_error in Hin. destruct Hin as [k Hk].
  destruct (static_nth_In k _ Hk) as [_ Hk61].
  assert (Hm : static_match_both (1 + Z.of_nat k) (str ":" ++ n) v).
  { split; [lia|]. now replace (Z.to_nat (1 + Z.of_nat k - 1)) with k by lia. }
  pose proof (staticWithValues_complete (str ":" ++ n) v (1 + Z.of_nat k)
                ltac:(discriminate) Hm) as Hkey.
  destruct (getIndexedNameValue_in_range d (1 + Z.of_nat k)) as (_ & Hs & _).
  destruct (Hs ltac:(rewrite len_static; lia)) as (nv & Hnv & Hget).
  destruct Hm as [_ Hn]. rewrite Hn in Hnv. injection Hnv as <-. cbn [fst snd] in Hget.
  destruct (parse_indexed d (1 + Z.of_nat k) [] (str ":" ++ n) v Hlim ltac:(lia) Hget)
    as (b & bs & Ei & Hparse).
  exists (orFirst headerFieldIndexed (b :: bs)). split.
  - unfold Encoder.EncodeIndexed, Encoder.encodeHeaderField.
    rewrite Hp. cbn [Sensitive Name Value]. unfold Encoder.findHeaderInTable.
    assert (Hne : eqb_bytes (n ++ str ":" ++ v) [] = false).
    { apply eqb_bytes_neq. destruct n; discriminate. }
    rewrite Hne. cbn [negb].
    replace ([] ++ str ":" ++ n ++ str ":" ++ v) with ((str ":" ++ n) ++ str ":" ++ v)
      by (now rewrite <- app_assoc).
    rewrite Hkey.
    replace (negb (1 + Z.of_nat k =? -1) && true) with true
      by (symmetry; apply andb_true_iff; split;
          [apply negb_true_iff, Z.eqb_neq; lia|reflexivity]).
    rewrite Ei. reflexivity.
  - rewrite app_nil_r in Hparse. unfold Decoder.Decode.
    rewrite (Decode_loop_field d d _ [] _ [] Hparse). reflexivity.
Qed.

Lemma X23_empty_name_collision_witness :
  exists block,
    Encoder.EncodeIndexed (Encoder.NewEncoder 4096)
                          (mkHeader [] (str "method" ++ str ":" ++ str "GET") false) true
    = (Encoder.NewEncoder 4096, Ok block) /\
    Decoder.Decode (Decoder.NewDecoder 4096) block
    = (Decoder.NewDecoder 4096, Ok [mkHeader (str ":" ++ str "method") (str "GET") false]).
Proof.
  apply (X23_empty_name_collision (Encoder.NewEncoder 4096) (Decoder.NewDecoder 4096)
           (str "method") (str "GET") true).
  - reflexivity.
  - repeat split.
  - right. left. reflexivity.
Defined.

(** X24.  The integer that [decodeInteger] returns is below the all-ones
    value of the prefix (it was read from the prefix alone) or at most
    the maximal integer value of the call: a larger one is refused with
    an error. *)
Theorem X24_decodeInteger_bound (buf : list byte) (N iMax lMax : Z)
        (r : list byte) (p v : Z) :
  decodeInteger buf N iMax lMax = Ok (r, p, v) ->
  v < 2 ^ N - 1 \/ v <= iMax.
Proof. apply decodeInteger_bound. Qed.

Lemma X24_decodeInteger_bound_witness :
  decodeInteger [byte_of_Z 31; byte_of_Z 154; byte_of_Z 10] 5
                DefaultMaxIntegerValue DefaultMaxIntegerEncodedLength
  = Ok ([], 0, 1337) /\
  (1337 < 2 ^ 5 - 1 \/ 1337 <= DefaultMaxIntegerValue).
Proof.
  split; [vm_compute; reflexivity|].
  apply (X24_decodeInteger_bound [byte_of_Z 31; byte_of_Z 154; byte_of_Z 10] 5
           DefaultMaxIntegerValue DefaultMaxIntegerEncodedLength [] 0 1337).
  vm_compute. reflexivity.
Defined.

(** X25.  Blocks compose: when [Decode] returns headers for a block, and
    then headers for a second block, it returns, for the two blocks in one
    buffer and from the first state, the headers of the first followed by
    those of the second, and ends in the same state. *)
Theorem X25_Decode_concat (d d1 d2 : Decoder.t) (b1 b2 : list byte)
        (hs1 hs2 : list Header) :
  Decoder.Decode d b1 = (d1, Ok hs1) ->
  Decoder.Decode d1 b2 = (d2, Ok hs2) ->
  Decoder.Decode d (b1 ++ b2) = (d2, Ok (hs1 ++ hs2)).
Proof. apply Decode_app. Qed.

Lemma X25_Decode_concat_witness :
  Decoder.Decode (Decoder.NewDecoder 256)
                 ([byte_of_Z 130; byte_of_Z 32] ++ [byte_of_Z 134])
  = (Decoder.SetDynamicTableMaxSize (Decoder.NewDecoder 256) 0,
     Ok ([mkHeader (str ":method") (str "GET") false]
           ++ [mkHeader (str ":scheme") (str "http") false])).
Proof.
  apply (X25_Decode_concat (Decoder.NewDecoder 256)
           (Decoder.SetDynamicTableMaxSize (Decoder.NewDecoder 256) 0)
           (Decoder.SetDynamicTableMaxSize (Decoder.NewDecoder 256) 0)
           [byte_of_Z 130; byte_of_Z 32] [byte_of_Z 134]
           [mkHeader (str ":method") (str "GET") false]
           [mkHeader (str ":scheme") (str "http") false]).
  - vm_compute. reflexivity.
  - vm_compute. reflexivity.
Defined.

(** X26.  A header that is not sensitive and fits the dynamic table is,
    once [EncodeIndexed] has encoded it, found in the tables with its
    value: encoding it again gives the indexed representation of an index
    and nothing else, and leaves the encoder as it is. *)
Theorem X26_repeated_header_indexed (e : Encoder.t) (h : Header) (huffman : bool) :
  Encoder.dynamicTableSizeCurrent e = table_size (Encoder.dynamicTable e) ->
  Sensitive h = false ->
  entrySize (Name h) (Value h) <= Encoder.dynamicTableSizeMax e ->
  exists (i : Z) (ix : list byte),
    i <> -1 /\
    Encoder.findHeaderInTable (fst (Encoder.EncodeIndexed e h huffman)) (Name h) (Value h)
    = (i, true) /\
    encodeInteger i 7 = Ok ix /\
    Encoder.EncodeIndexed (fst (Encoder.EncodeIndexed e h huffman)) h huffman
    = (fst (Encoder.EncodeIndexed e h huffman), Ok (orFirst headerFieldIndexed ix)).
Proof.
  intros Hc Hs Hfit. unfold Encoder.EncodeIndexed.
  destruct (found_after_encoding e h huffman Hc Hs Hfit) as (i & Hi & Hf & Hp).
  destruct (encodeHeaderField_found _ h huffman true i Hp Hs Hf Hi) as (ix & Eix & Henc).
  exists i, ix. now repeat split.
Qed.

Lemma X26_repeated_header_indexed_witness :
  exists (i : Z) (ix : list byte),
    i <> -1 /\
    Encoder.findHeaderInTable
      (fst (Encoder.EncodeIndexed (Encoder.NewEncoder 4096)
              (mkHeader (str "custom-key") (str "custom-value") false) true))
      (Name (mkHeader (str "custom-key") (str "custom-value") false))
      (Value (mkHeader (str "custom-key") (str "custom-value") false))
    = (i, true) /\
    encodeInteger i 7 = Ok ix /\
    Encoder.EncodeIndexed
      (fst (Encoder.EncodeIndexed (Encoder.NewEncoder 4096)
              (mkHeader (str "custom-key") (str "custom-value") false) true))
      (mkHeader (str "custom-key") (str "custom-value") false) true
    = (fst (Encoder.EncodeIndexed (Encoder.NewEncoder 4096)
              (mkHeader (str "custom-key") (str "custom-value") false) true),
       Ok (orFirst headerFieldIndexed ix)).
Proof.
  apply (X26_repeated_header_indexed (Encoder.NewEncoder 4096)
           (mkHeader (str "custom-key") (str "custom-value") false) true).
  - reflexivity.
  - reflexivity.
  - vm_compute. discriminate.
Defined.

(** X27.  Header lists compose: when [encode] returns a block for a list
    of headers, and then a block for a second list, it returns, for the
    two lists as one and from the first state, the first block followed
    by the second, and ends in the same state. *)
Theorem X27_encode_concat (e e1 e2 : Encoder.t) (hs1 hs2 : list Header) (huffman : bool)
        (b1 b2 : list byte) :
  Encoder.encode e hs1 huffman = (e1, Ok b1) ->
  Encoder.encode e1 hs2 huffman = (e2, Ok b2) ->
  Encoder.encode e (hs1 ++ hs2) huffman = (e2, Ok (b1 ++ b2)).
Proof. apply encode_app. Qed.

Lemma X27_encode_concat_witness :
  Encoder.encode (Encoder.NewEncoder 256)
                 ([mkHeader (str ":method") (str "GET") false]
                    ++ [mkHeader (str ":scheme") (str "http") false]) true
  = (Encoder.NewEncoder 256, Ok ([byte_of_Z 130] ++ [byte_of_Z 134])).
Proof.
  apply (X27_encode_concat (Encoder.NewEncoder 256) (Encoder.NewEncoder 256)
           (Encoder.NewEncoder 256)
           [mkHeader (str ":method") (str "GET") false]
           [mkHeader (str ":scheme") (str "http") false] true
           [byte_of_Z 130] [byte_of_Z 134]).
  - vm_compute. reflexivity.
  - vm_compute. reflexivity.
Defined.

(** X28.  The limit on the length of an encoded integer: when the prefix
    is all ones and the octets after it that have their high bit set are
    as many as the limit minus one, [decodeInteger] returns the error of
    an encoding that is too long, whatever follows and whatever the value
    would be. *)
Theorem X28_integer_too_long (b0 : byte) (conts rest : list byte) (N iMax lMax : Z) :
  1 <= N <= 8 ->
  Z.land (Z.shiftl 1 N - 1) (Z_of_byte b0) = Z.shiftl 1 N - 1 ->
  Forall (fun b => Z.land (Z_of_byte b) 128 <> 0) conts ->
  2 <= lMax -> len conts = lMax - 1 ->
  decodeInteger (b0 :: conts ++ rest) N iMax lMax = Err ErrIntegerEncodedLengthTooLong.
Proof.
  intros HN Hmask Hall Hl Hlen. unfold decodeInteger.
  assert (EN : (N <? 1) || (N >? 8) = false).
  { apply orb_false_iff. split; [apply Z.ltb_ge; lia|].
    rewrite Z.gtb_ltb. apply Z.ltb_ge; lia. }
  rewrite EN, Hmask, Z.eqb_refl. cbn [negb].
  apply decodeInteger_loop_too_long; [assumption|lia|lia].
Qed.

Lemma X28_integer_too_long_witness :
  decodeInteger (byte_of_Z 31 :: [byte_of_Z 128; byte_of_Z 128; byte_of_Z 128;
                                  byte_of_Z 128; byte_of_Z 128] ++ [byte_of_Z 0])
                5 DefaultMaxIntegerValue DefaultMaxIntegerEncodedLength
  = Err ErrIntegerEncodedLengthTooLong.
Proof.
  apply (X28_integer_too_long (byte_of_Z 31)
           [byte_of_Z 128; byte_of_Z 128; byte_of_Z 128; byte_of_Z 128; byte_of_Z 128]
           [byte_of_Z 0] 5 DefaultMaxIntegerValue DefaultMaxIntegerEncodedLength).
  - lia.
  - vm_compute. reflexivity.
  - repeat constructor; vm_compute; discriminate.
  - vm_compute. discriminate.
  - vm_compute. reflexivity.
Defined.
